(** * Verification of the FlatBuffers Rust binding generator (idl_gen_rust.cpp)

    A shallow embedding of the parts of [idl_gen_rust.cpp] that decide the
    shape of the generated code: the identifier case conversion, the type
    classifier, the namespace resolver, and the table and struct emitters.

    Text is modelled as [string]; the output buffer [code_] as the list of
    the lines appended to it, in order.  Assertions ([FLATBUFFERS_ASSERT])
    abort: the functions that can reach one return in an error sum.  The
    type classifier is also given as built without assertions. *)

From Stdlib Require Import Bool Arith ZArith List Ascii String Lia Permutation.
From Stdlib Require Import DecimalString FunInd Recdef.
From Stdlib Require DecimalNat DecimalFacts.
Import ListNotations.
Open Scope list_scope.
Open Scope string_scope.

(* ===================================================================== *)
(** * Part I: the embedding                                               *)
(* ===================================================================== *)

(** ** Characters and identifier case conversion (lines 26-52) *)

(** [islower] and [isupper] of the C library, in the "C" locale: the
    letters a..z and A..Z. *)
Definition islower (c : ascii) : bool :=
  ((97 <=? nat_of_ascii c) && (nat_of_ascii c <=? 122))%nat.

Definition isupper (c : ascii) : bool :=
  ((65 <=? nat_of_ascii c) && (nat_of_ascii c <=? 90))%nat.

(** Modelled from the spec: [CharToLower] and [CharToUpper] are declared in
    flatbuffers/util.h, which is not part of the sources at hand.  The spec
    calls the operation a case conversion (case-normalized components);
    they are the C library's [tolower] and [toupper] on one character. *)
Definition CharToLower (c : ascii) : ascii :=
  if isupper c then ascii_of_nat (nat_of_ascii c + 32) else c.

Definition CharToUpper (c : ascii) : ascii :=
  if islower c then ascii_of_nat (nat_of_ascii c - 32) else c.

(** [in[i]]: the character at index [i] (the loops below never index
    outside the string). *)
Definition char_at (s : string) (i : nat) : ascii :=
  match String.get i s with
  | Some c => c
  | None => zero
  end.

(** [s += c] for a single character. *)
Definition push_back (s : string) (c : ascii) : string :=
  s ++ String c EmptyString.

(** One iteration of the loop of [MakeSnakeCase], at index [i], on the
    accumulated output [s]. *)
Definition MakeSnakeCase_body (in_ : string) (s : string) (i : nat) : string :=
  if (i =? 0)%nat then
    push_back s (CharToLower (char_at in_ 0))
  else if Ascii.eqb (char_at in_ i) "_" then
    push_back s "_"
  else if negb (islower (char_at in_ i)) then
    let s := if islower (char_at in_ (i - 1)) then push_back s "_" else s in
    push_back s (CharToLower (char_at in_ i))
  else
    push_back s (char_at in_ i).

(** [std::string MakeSnakeCase(const std::string &in)]:
    [for (size_t i = 0; i < in.length(); i++) ...]. *)
Definition MakeSnakeCase (in_ : string) : string :=
  fold_left (MakeSnakeCase_body in_) (seq 0 (String.length in_)) "".

(** [std::string MakeUpper(const std::string &in)]. *)
Definition MakeUpper (in_ : string) : string :=
  fold_left (fun s i => push_back s (CharToUpper (char_at in_ i)))
            (seq 0 (String.length in_)) "".

(** ** Errors *)

(** Modelled from the spec: [FLATBUFFERS_ASSERT] is defined in
    flatbuffers/base.h (not part of the sources at hand) as [assert]; a
    failed assertion stops the generator, as the specification says of the
    unsupported types.  What stops the generator is recorded here: a failed
    assertion (with its text), or the use of a null [struct_def] or
    [enum_def] pointer.  The statements after an assertion, which a build
    with assertions compiled out would reach, are modelled for the type
    classifier, in [GetFullType_build]; every other function is modelled
    as built with assertions. *)
Inductive GenError : Type :=
| AssertionFailed (msg : string)
| NullPointer.

Inductive Result (A : Type) : Type :=
| Ok (a : A)
| Abort (e : GenError).
Arguments Ok {A} a.
Arguments Abort {A} e.

Definition bind {A B : Type} (r : Result A) (k : A -> Result B) : Result B :=
  match r with
  | Ok a => k a
  | Abort e => Abort e
  end.

Notation "x <- r ;; k" := (bind r (fun x => k))
  (at level 61, r at next level, right associativity).

(** Run [f] on every element in order, stopping at the first abort. *)
Fixpoint mapM {A B : Type} (f : A -> Result B) (l : list A) : Result (list B) :=
  match l with
  | [] => Ok []
  | a :: l' => b <- f a ;; bs <- mapM f l' ;; Ok (b :: bs)
  end.

(** ** The schema IR (flatbuffers/idl.h) *)

(** Modelled from the spec: flatbuffers/idl.h, which declares [BaseType],
    [Type], [StructDef], [EnumDef], [FieldDef], [Namespace] and the
    predicates on them, is not part of the sources at hand.  The spec's
    Schema Type is a scalar kind (bool, integer, float, of width 1, 2, 4 or
    8 bytes), a string, a reference to a struct, table, enum or union
    definition, or a vector; these are the base types of idl.h's type table,
    in the table's order (the generator indexes [ctypename] by them and
    names NONE, BOOL, STRUCT and UNION). *)
Inductive BaseType : Type :=
| BASE_TYPE_NONE | BASE_TYPE_UTYPE | BASE_TYPE_BOOL
| BASE_TYPE_CHAR | BASE_TYPE_UCHAR | BASE_TYPE_SHORT | BASE_TYPE_USHORT
| BASE_TYPE_INT | BASE_TYPE_UINT | BASE_TYPE_LONG | BASE_TYPE_ULONG
| BASE_TYPE_FLOAT | BASE_TYPE_DOUBLE
| BASE_TYPE_STRING | BASE_TYPE_VECTOR | BASE_TYPE_STRUCT | BASE_TYPE_UNION
| BASE_TYPE_ARRAY.

Definition BaseType_index (t : BaseType) : nat :=
  match t with
  | BASE_TYPE_NONE => 0 | BASE_TYPE_UTYPE => 1 | BASE_TYPE_BOOL => 2
  | BASE_TYPE_CHAR => 3 | BASE_TYPE_UCHAR => 4 | BASE_TYPE_SHORT => 5
  | BASE_TYPE_USHORT => 6 | BASE_TYPE_INT => 7 | BASE_TYPE_UINT => 8
  | BASE_TYPE_LONG => 9 | BASE_TYPE_ULONG => 10 | BASE_TYPE_FLOAT => 11
  | BASE_TYPE_DOUBLE => 12 | BASE_TYPE_STRING => 13 | BASE_TYPE_VECTOR => 14
  | BASE_TYPE_STRUCT => 15 | BASE_TYPE_UNION => 16 | BASE_TYPE_ARRAY => 17
  end.

Definition BaseType_eqb (a b : BaseType) : bool :=
  (BaseType_index a =? BaseType_index b)%nat.

(** Modelled from the spec: the scalar-kind predicates of idl.h (bool,
    integer, float; the union discriminant type UTYPE is an integer). *)
Definition IsScalar (t : BaseType) : bool :=
  ((1 <=? BaseType_index t) && (BaseType_index t <=? 12))%nat.

Definition IsInteger (t : BaseType) : bool :=
  ((1 <=? BaseType_index t) && (BaseType_index t <=? 10))%nat.

Definition IsFloat (t : BaseType) : bool :=
  BaseType_eqb t BASE_TYPE_FLOAT || BaseType_eqb t BASE_TYPE_DOUBLE.

Definition IsBool (t : BaseType) : bool := BaseType_eqb t BASE_TYPE_BOOL.

Definition IsOneByte (t : BaseType) : bool :=
  ((1 <=? BaseType_index t) && (BaseType_index t <=? 4))%nat.

(** Modelled from the spec: [SizeOf], the byte width of a base type (idl.h's
    size table): scalars have width 1, 2, 4 or 8; strings, vectors, structs
    and unions are held through a 4-byte offset. *)
Definition SizeOf (t : BaseType) : nat :=
  match t with
  | BASE_TYPE_NONE | BASE_TYPE_UTYPE | BASE_TYPE_BOOL
  | BASE_TYPE_CHAR | BASE_TYPE_UCHAR => 1
  | BASE_TYPE_SHORT | BASE_TYPE_USHORT => 2
  | BASE_TYPE_INT | BASE_TYPE_UINT | BASE_TYPE_FLOAT => 4
  | BASE_TYPE_LONG | BASE_TYPE_ULONG | BASE_TYPE_DOUBLE => 8
  | BASE_TYPE_STRING | BASE_TYPE_VECTOR | BASE_TYPE_STRUCT
  | BASE_TYPE_UNION | BASE_TYPE_ARRAY => 4
  end.

(** Modelled from the spec: [sizeof(largest_scalar_t)], the largest scalar
    width (8 bytes). *)
Definition sizeof_largest_scalar_t : nat := 8.

(** A namespace path: the ordered list of its components.  The generator
    holds namespaces through pointers ([const Namespace *], possibly null):
    [option Namespace] below.  The parser keeps one object per path, so
    pointer equality is equality of paths. *)
Record Namespace : Type := { components : list string }.

(** What the generator reads of a struct or table through a [Type]'s
    [struct_def] pointer: its name, its namespace, whether it is a fixed
    struct, and its byte size. *)
Record StructRef : Type := {
  sr_name : string;
  sr_defined_namespace : Namespace;
  fixed : bool;
  bytesize : nat
}.

(** Modelled from the spec: [Type], [EnumDef] and [EnumVal] of idl.h.  A
    vector type carries the base type of its element in [element] and shares
    [struct_def] and [enum_def] with it (the generator reads
    [type.struct_def] and [type.enum_def] of a vector for its element's
    definition).  The pointers [struct_def] and [enum_def] may be null. *)
Inductive Type_ : Type :=
  Build_Type (base_type element : BaseType)
             (struct_def : option StructRef) (enum_def : option EnumDef)
with EnumDef : Type :=
  Build_EnumDef (ed_name : string) (ed_defined_namespace : Namespace)
                (is_union : bool) (ed_generated : bool)
                (Vals : list EnumVal)
with EnumVal : Type :=
  Build_EnumVal (ev_name : string) (ev_value : Z) (union_type : Type_).

Definition base_type (t : Type_) : BaseType :=
  let (b, _, _, _) := t in b.
Definition element (t : Type_) : BaseType :=
  let (_, e, _, _) := t in e.
Definition struct_def (t : Type_) : option StructRef :=
  let (_, _, s, _) := t in s.
Definition enum_def (t : Type_) : option EnumDef :=
  let (_, _, _, e) := t in e.

Definition ed_name (e : EnumDef) : string :=
  let (n, _, _, _, _) := e in n.
Definition ed_defined_namespace (e : EnumDef) : Namespace :=
  let (_, n, _, _, _) := e in n.
Definition is_union (e : EnumDef) : bool :=
  let (_, _, u, _, _) := e in u.
Definition ed_generated (e : EnumDef) : bool :=
  let (_, _, _, g, _) := e in g.
Definition Vals (e : EnumDef) : list EnumVal :=
  let (_, _, _, _, v) := e in v.

Definition ev_name (v : EnumVal) : string := let (n, _, _) := v in n.
Definition ev_value (v : EnumVal) : Z := let (_, x, _) := v in x.
Definition union_type (v : EnumVal) : Type_ := let (_, _, t) := v in t.

(** [Type::VectorType()]: the element type of a vector; its own [element]
    is NONE. *)
Definition VectorType (t : Type_) : Type_ :=
  Build_Type (element t) BASE_TYPE_NONE (struct_def t) (enum_def t).

Definition IsString (t : Type_) : bool :=
  BaseType_eqb (base_type t) BASE_TYPE_STRING.

Definition IsVector (t : Type_) : bool :=
  BaseType_eqb (base_type t) BASE_TYPE_VECTOR.


(** ** The type classifier (lines 54-158) *)

Inductive FullType : Type :=
| ftInteger | ftFloat | ftBool
| ftStruct | ftTable
| ftEnumKey | ftUnionKey
| ftUnionValue
| ftString
| ftVectorOfInteger | ftVectorOfFloat | ftVectorOfBool | ftVectorOfEnumKey
| ftVectorOfStruct | ftVectorOfTable | ftVectorOfString
| ftVectorOfUnionValue.

(** The numeric value of each enumerator. *)
Definition FullType_value (ft : FullType) : nat :=
  match ft with
  | ftInteger => 0 | ftFloat => 1 | ftBool => 2
  | ftStruct => 3 | ftTable => 4
  | ftEnumKey => 5 | ftUnionKey => 6
  | ftUnionValue => 7
  | ftString => 8
  | ftVectorOfInteger => 9 | ftVectorOfFloat => 10 | ftVectorOfBool => 11
  | ftVectorOfEnumKey => 12 | ftVectorOfStruct => 13
  | ftVectorOfTable => 14 | ftVectorOfString => 15
  | ftVectorOfUnionValue => 16
  end.

(** How deep the vector branch of [GetFullType] can recurse on a type:
    [VectorType()] sets [element] to NONE. *)
Definition vector_depth (t : Type_) : nat :=
  if IsVector t then
    if BaseType_eqb (element t) BASE_TYPE_VECTOR then 2 else 1
  else 0.

(** [FullType GetFullType(const Type &type)] as built with assertions: a
    failed assertion aborts, so the statements after it (and the final
    [return ftBool], which "is only to satisfy the compiler's return
    analysis") are not reached.  [GetFullType_build] below has both
    builds. *)
Function GetFullType (type : Type_) {measure vector_depth type}
  : Result FullType :=
  if IsString type then
    Ok ftString
  else if BaseType_eqb (base_type type) BASE_TYPE_STRUCT then
    match struct_def type with
    | None => Abort NullPointer
    | Some sd => if fixed sd then Ok ftStruct else Ok ftTable
    end
  else if IsVector type then
    match GetFullType (VectorType type) with
    | Abort e => Abort e
    | Ok ftInteger => Ok ftVectorOfInteger
    | Ok ftFloat => Ok ftVectorOfFloat
    | Ok ftBool => Ok ftVectorOfBool
    | Ok ftStruct => Ok ftVectorOfStruct
    | Ok ftTable => Ok ftVectorOfTable
    | Ok ftString => Ok ftVectorOfString
    | Ok ftEnumKey => Ok ftVectorOfEnumKey
    | Ok ftUnionKey | Ok ftUnionValue =>
        Abort (AssertionFailed "vectors of unions are unsupported")
    | Ok _ => Abort (AssertionFailed "vector of vectors are unsupported")
    end
  else
    match enum_def type with
    | Some ed =>
        if is_union ed then
          if BaseType_eqb (base_type type) BASE_TYPE_UNION then
            Ok ftUnionValue
          else if IsInteger (base_type type) then
            Ok ftUnionKey
          else
            Abort (AssertionFailed "unknown union field type")
        else
          Ok ftEnumKey
    | None =>
        if IsScalar (base_type type) then
          if IsBool (base_type type) then Ok ftBool
          else if IsInteger (base_type type) then Ok ftInteger
          else if IsFloat (base_type type) then Ok ftFloat
          else Abort (AssertionFailed "unknown number type")
        else
          Abort (AssertionFailed "completely unknown type")
    end.
Proof.
  intros [b e sd ed] _ _ Hv.
  unfold vector_depth, VectorType, IsVector in *. simpl in *.
  rewrite Hv. destruct e; simpl; auto.
Defined.

(** [FLATBUFFERS_ASSERT(false && msg);] followed by the statements [rest]:
    a build with assertions stops there; a build without them (NDEBUG)
    goes on with [rest]. *)
Definition FLATBUFFERS_ASSERT_false {A : Type} (assertions : bool)
           (msg : string) (rest : Result A) : Result A :=
  if assertions then Abort (AssertionFailed msg) else rest.

(** The last two statements of [GetFullType] (lines 154-157), which every
    path that returns nothing before reaches: the assertion, then
    [return ftBool]. *)
Definition GetFullType_end (assertions : bool) : Result FullType :=
  FLATBUFFERS_ASSERT_false assertions "completely unknown type" (Ok ftBool).

(** [FullType GetFullType(const Type &type)] in either build: with
    [assertions] a failed assertion stops the generator; without them the
    statements that follow it run: [break] leaves the [switch], and every
    branch that returns nothing falls through to the end of the function. *)
Function GetFullType_build (assertions : bool) (type : Type_)
         {measure vector_depth type} : Result FullType :=
  if IsString type then
    Ok ftString
  else if BaseType_eqb (base_type type) BASE_TYPE_STRUCT then
    match struct_def type with
    | None => Abort NullPointer
    | Some sd => if fixed sd then Ok ftStruct else Ok ftTable
    end
  else if IsVector type then
    match GetFullType_build assertions (VectorType type) with
    | Abort e => Abort e
    | Ok ftInteger => Ok ftVectorOfInteger
    | Ok ftFloat => Ok ftVectorOfFloat
    | Ok ftBool => Ok ftVectorOfBool
    | Ok ftStruct => Ok ftVectorOfStruct
    | Ok ftTable => Ok ftVectorOfTable
    | Ok ftString => Ok ftVectorOfString
    | Ok ftEnumKey => Ok ftVectorOfEnumKey
    | Ok ftUnionKey | Ok ftUnionValue =>
        FLATBUFFERS_ASSERT_false assertions
          "vectors of unions are unsupported"
          (GetFullType_end assertions)
    | Ok _ =>
        FLATBUFFERS_ASSERT_false assertions
          "vector of vectors are unsupported"
          (GetFullType_end assertions)
    end
  else
    match enum_def type with
    | Some ed =>
        if is_union ed then
          if BaseType_eqb (base_type type) BASE_TYPE_UNION then
            Ok ftUnionValue
          else if IsInteger (base_type type) then
            Ok ftUnionKey
          else
            FLATBUFFERS_ASSERT_false assertions "unknown union field type"
                                     (GetFullType_end assertions)
        else
          Ok ftEnumKey
    | None =>
        if IsScalar (base_type type) then
          if IsBool (base_type type) then Ok ftBool
          else if IsInteger (base_type type) then Ok ftInteger
          else if IsFloat (base_type type) then Ok ftFloat
          else
            FLATBUFFERS_ASSERT_false assertions "unknown number type"
                                     (GetFullType_end assertions)
        else
          GetFullType_end assertions
    end.
Proof.
  intros _ [b e sd ed] _ _ Hv.
  unfold vector_depth, VectorType, IsVector in *. simpl in *.
  rewrite Hv. destruct e; simpl; auto.
Defined.

(** ** Text helpers *)

(** The double quote and the newline character, for the C string escapes
    backslash-quote and backslash-n. *)
Definition dq : string := String (ascii_of_nat 34) EmptyString.
Definition nl : string := String (ascii_of_nat 10) EmptyString.

(** Modelled from the spec: [NumToString] of flatbuffers/util.h (not part of
    the sources at hand), on the numbers the generator prints: decimal
    notation. *)
Definition NumToString (n : nat) : string :=
  NilZero.string_of_uint (Nat.to_uint n).

Definition NumToStringZ (z : Z) : string :=
  NilZero.string_of_int (Z.to_int z).

(** [std::string(n, ' ')]. *)
Fixpoint spaces (n : nat) : string :=
  match n with
  | O => ""
  | S k => String " " (spaces k)
  end.

(** [s.pop_back()] on a non-empty string. *)
Fixpoint pop_back (s : string) : string :=
  match s with
  | EmptyString => ""
  | String c EmptyString => ""
  | String c r => String c (pop_back r)
  end.

(** Is [p] a prefix of [s]? *)
Fixpoint starts_with (p s : string) : bool :=
  match p, s with
  | EmptyString, _ => true
  | String a p', String b s' => Ascii.eqb a b && starts_with p' s'
  | String _ _, EmptyString => false
  end.

(** ** Fields, structs and tables (flatbuffers/idl.h) *)

(** [field.value]: the type, the declared default as text, and the
    virtual-table offset. *)
Record Value : Type := {
  type : Type_;
  constant : string;
  offset : nat
}.

Record FieldDef : Type := {
  fd_name : string;
  value : Value;
  deprecated : bool;
  required : bool;
  optional : bool;
  key : bool;
  padding : nat;
  fd_doc_comment : list string
}.

Record StructDef : Type := {
  sd_ref : StructRef;
  fields : list FieldDef;
  sortbysize : bool;
  minalign : nat;
  sd_doc_comment : list string;
  sd_generated : bool
}.

Definition sd_name (sd : StructDef) : string := sr_name (sd_ref sd).
Definition sd_defined_namespace (sd : StructDef) : Namespace :=
  sr_defined_namespace (sd_ref sd).
Definition sd_fixed (sd : StructDef) : bool := fixed (sd_ref sd).

(** Modelled from the spec: [EnumDef::FindByValue] (idl_parser.cpp, not part
    of the sources at hand): the declared value whose number is the one
    written in [constant]. *)
Definition FindByValue (ed : EnumDef) (constant : string) : option EnumVal :=
  find (fun ev => String.eqb (NumToStringZ (ev_value ev)) constant) (Vals ed).

(** ** Reserved words and names (lines 190-232, 347-355) *)

(** The keyword set built by the constructor.  The loop that fills it stops
    at the first null pointer of the array, which stands before the three
    ["ENUM_..."] entries: these are not inserted. *)
Definition keywords_ : list string :=
  [ "as"; "break"; "const"; "continue"; "crate"; "else"; "enum"; "extern";
    "false"; "fn"; "for"; "if"; "impl"; "in"; "let"; "loop"; "match"; "mod";
    "move"; "mut"; "pub"; "ref"; "return"; "Self"; "self"; "static"; "struct";
    "super"; "trait"; "true"; "type"; "unsafe"; "use"; "where"; "while";
    "abstract"; "alignof"; "become"; "box"; "do"; "final"; "macro";
    "offsetof"; "override"; "priv"; "proc"; "pure"; "sizeof"; "typeof";
    "unsized"; "virtual"; "yield";
    "std"; "usize"; "isize"; "u8"; "i8"; "u16"; "i16"; "u32"; "i32"; "u64";
    "i64"; "u128"; "i128"; "f32"; "f64";
    "follow"; "push"; "size"; "alignment"; "to_little_endian";
    "from_little_endian" ].

Definition EscapeKeyword (name : string) : string :=
  if existsb (String.eqb name) keywords_ then name ++ "_" else name.

(** [Name(def)], for a struct or table, an enum, a field, an enum value. *)
Definition Name_struct (sd : StructDef) : string := EscapeKeyword (sd_name sd).
Definition Name_enum (ed : EnumDef) : string := EscapeKeyword (ed_name ed).
Definition Name_field (f : FieldDef) : string := EscapeKeyword (fd_name f).
Definition Name_enumval (ev : EnumVal) : string := EscapeKeyword (ev_name ev).

(** ** Namespace paths (lines 357-416) *)

Fixpoint strings_eqb (a b : list string) : bool :=
  match a, b with
  | [], [] => true
  | x :: a', y :: b' => String.eqb x y && strings_eqb a' b'
  | _, _ => false
  end.

(** Equality of namespace pointers: the parser keeps one [Namespace] object
    per path. *)
Definition Namespace_eqb (a b : Namespace) : bool :=
  strings_eqb (components a) (components b).

Definition Namespace_ptr_eqb (a b : option Namespace) : bool :=
  match a, b with
  | None, None => true
  | Some x, Some y => Namespace_eqb x y
  | _, _ => false
  end.

(** [GetAbsoluteNamespaceTraversal(dst)]. *)
Definition GetAbsoluteNamespaceTraversal (dst : Namespace) : string :=
  fold_left (fun stream d => stream ++ (MakeSnakeCase d ++ "::"))
            (components dst) "::".

(** The first loop of [GetRelativeNamespaceTraversal]: the iterators [s] and
    [d] advance together while both have a component and the components are
    equal. *)
Fixpoint skip_common (s d : list string) : list string * list string :=
  match s, d with
  | sc :: s', dc :: d' =>
      if String.eqb sc dc then skip_common s' d' else (s, d)
  | _, _ => (s, d)
  end.

(** [GetRelativeNamespaceTraversal(src, dst)]: one ["super::"] for each
    component left in [src], then the components left in [dst]. *)
Definition GetRelativeNamespaceTraversal (src dst : Namespace) : string :=
  let (s, d) := skip_common (components src) (components dst) in
  let stream := fold_left (fun stream _ => stream ++ "super::") s "" in
  fold_left (fun stream c => stream ++ (MakeSnakeCase c ++ "::")) d stream.

(** [WrapInNameSpace(ns, name)], with the namespace open at this point of
    the emission as [cur]. *)
Definition WrapInNameSpace (cur ns : Namespace) (name : string) : string :=
  if Namespace_eqb cur ns then name
  else GetRelativeNamespaceTraversal cur ns ++ name.

Definition WrapInNameSpace_struct (cur : Namespace) (sd : StructRef) : string :=
  WrapInNameSpace cur (sr_defined_namespace sd) (EscapeKeyword (sr_name sd)).

Definition WrapInNameSpace_enum (cur : Namespace) (ed : EnumDef) : string :=
  WrapInNameSpace cur (ed_defined_namespace ed) (Name_enum ed).

(** ** The generator state and the namespace scopes (lines 1913-1987) *)

(** The output buffer, as the list of the lines appended to it, and the
    namespace currently open (null at the start and at the end). *)
Record Generator : Type := {
  code_ : list string;
  cur_name_space_ : option Namespace
}.

(** [code_ += line], for several lines in a row. *)
Definition emit (lines : list string) (g : Generator) : Generator :=
  {| code_ := (code_ g ++ lines)%list;
     cur_name_space_ := cur_name_space_ g |}.

(** What the generator reads of the parser, beside the definitions.
    [included_basenames] holds, for each entry of [included_files_] with a
    non-empty file, [StripPath(StripExtension(file))] (util.h). *)
Record Options : Type := {
  generate_all : bool;
  generate_name_strings : bool;
  include_prefix : string;
  filename_suffix : string;
  included_basenames : list string
}.

(** [GenNamespaceImports(white_spaces)]. *)
Definition GenNamespaceImports (opts : Options) (white_spaces : nat)
  : list string :=
  let indent := spaces white_spaces in
  List.concat
    [ if (white_spaces =? 0)%nat
      then ["#![allow(unused_imports, dead_code)]"] else [];
      [""];
      if negb (generate_all opts) then
        map (fun basename =>
               if String.eqb (include_prefix opts) "" then
                 indent ++ "use crate::" ++ basename ++
                 filename_suffix opts ++ "::*;"
               else
                 let prefix := pop_back (include_prefix opts) in
                 indent ++ "use crate::" ++ prefix ++ "::" ++ basename ++
                 filename_suffix opts ++ "::*;")
            (included_basenames opts)
      else [];
      [ indent ++ "use std::mem;";
        indent ++ "use std::cmp::Ordering;";
        "";
        indent ++ "extern crate flatbuffers;";
        indent ++ "use self::flatbuffers::EndianScalar;" ] ].

(** [ns->components[i]]. *)
Definition component (ns : option Namespace) (i : nat) : string :=
  match ns with
  | Some n => nth i (components n) ""
  | None => ""
  end.

Definition components_size (ns : option Namespace) : nat :=
  match ns with
  | Some n => List.length (components n)
  | None => 0
  end.

(** The [while] loop of [SetNameSpace]; it runs at most [old_size] times. *)
Fixpoint common_prefix_loop (fuel : nat) (cur ns : option Namespace)
         (common_prefix_size : nat) : nat :=
  match fuel with
  | O => common_prefix_size
  | S fuel' =>
      if ((common_prefix_size <? components_size cur)%nat &&
          (common_prefix_size <? components_size ns)%nat &&
          String.eqb (component ns common_prefix_size)
                     (component cur common_prefix_size))%bool
      then common_prefix_loop fuel' cur ns (S common_prefix_size)
      else common_prefix_size
  end.

(** [void SetNameSpace(const Namespace *ns)]. *)
Definition SetNameSpace (opts : Options) (ns : option Namespace)
           (g : Generator) : Generator :=
  let cur := cur_name_space_ g in
  if Namespace_ptr_eqb cur ns then g
  else
    let old_size := components_size cur in
    let new_size := components_size ns in
    let common_prefix_size := common_prefix_loop old_size cur ns 0 in
    (* for (j = old_size; j > common_prefix_size; --j) *)
    let closes :=
      map (fun j => "}  // pub mod " ++ component cur (j - 1))
          (rev (seq (S common_prefix_size) (old_size - common_prefix_size))) in
    let closes_end :=
      if (old_size =? common_prefix_size)%nat then [] else [""] in
    (* for (j = common_prefix_size; j != new_size; ++j) *)
    let opens :=
      flat_map (fun j =>
                  "#[allow(unused_imports, dead_code)]"
                  :: ("pub mod " ++ MakeSnakeCase (component ns j) ++ " {")
                  :: GenNamespaceImports opts 2)
               (seq common_prefix_size (new_size - common_prefix_size)) in
    let opens_end :=
      if (new_size =? common_prefix_size)%nat then [] else [""] in
    {| code_ := List.concat [code_ g; closes; closes_end; opens; opens_end];
       cur_name_space_ := ns |}.

(** ** The emission driver (lines 234-302) *)

(** The definitions of the schema, as the parser holds them. *)
Record Parser : Type := {
  namespaces_ : list Namespace;
  enums_ : list EnumDef;
  structs_ : list StructDef;
  root_struct_def_ : option StructDef;
  opts : Options
}.

(** The emitters that [generate] runs inside the open namespace: [GenEnum],
    [GenStruct], [GenTable] and [GenRootTableFuncs].  Each appends lines to
    [code_] (or aborts) and leaves [cur_name_space_] alone; it reads the
    open namespace, its first argument here. *)
Record Emitters : Type := {
  emit_enum : Namespace -> EnumDef -> Result (list string);
  emit_struct : Namespace -> StructDef -> Result (list string);
  emit_table : Namespace -> StructDef -> Result (list string);
  emit_root : Namespace -> StructDef -> Result (list string)
}.

(** Modelled from the spec: [FlatBuffersGeneratedWarning()] of
    code_generators.cpp (not part of the sources at hand), the text of the
    first comment line of every generated file. *)
Definition FlatBuffersGeneratedWarning : string :=
  "automatically generated by the FlatBuffers compiler, do not modify".

Fixpoint foldM {A S : Type} (f : A -> S -> Result S) (l : list A) (s : S)
  : Result S :=
  match l with
  | [] => Ok s
  | a :: l' => s' <- f a s ;; foldM f l' s'
  end.

(** One turn of the inner loops of [generate]: skip a definition of another
    namespace ([continue]); for a wanted one, set the namespace, then emit. *)
Definition generate_def (o : Options) (ns def_ns : Namespace) (wanted : bool)
           (body : Namespace -> Result (list string)) (g : Generator)
  : Result Generator :=
  if negb (Namespace_eqb def_ns ns) then Ok g
  else if wanted then
    let g := SetNameSpace o (Some def_ns) g in
    lines <- body def_ns ;;
    Ok (emit lines g)
  else Ok g.

(** The body of the loop over [parser_.namespaces_]. *)
Definition generate_namespace (p : Parser) (em : Emitters) (ns : Namespace)
           (g : Generator) : Result Generator :=
  g <- foldM (fun enum_def =>
                generate_def (opts p) ns (ed_defined_namespace enum_def)
                             (negb (ed_generated enum_def))
                             (fun cur => emit_enum em cur enum_def))
             (enums_ p) g ;;
  g <- foldM (fun struct_def =>
                generate_def (opts p) ns (sd_defined_namespace struct_def)
                             (sd_fixed struct_def &&
                              negb (sd_generated struct_def))
                             (fun cur => emit_struct em cur struct_def))
             (structs_ p) g ;;
  g <- foldM (fun struct_def =>
                generate_def (opts p) ns (sd_defined_namespace struct_def)
                             (negb (sd_fixed struct_def) &&
                              negb (sd_generated struct_def))
                             (fun cur => emit_table em cur struct_def))
             (structs_ p) g ;;
  match root_struct_def_ p with
  | Some struct_def =>
      generate_def (opts p) ns (sd_defined_namespace struct_def) true
                   (fun cur => emit_root em cur struct_def) g
  | None => Ok g
  end.

(** [bool generate()], up to the saving of the file: the final state of the
    generator. *)
Definition generate (p : Parser) (em : Emitters) : Result Generator :=
  let g := {| code_ := []; cur_name_space_ := None |} in
  let g := emit ["// " ++ FlatBuffersGeneratedWarning ++ nl ++ nl] g in
  let g := emit (GenNamespaceImports (opts p) 0) g in
  let g := emit [""] g in
  g <- foldM (generate_namespace p em) (namespaces_ p) g ;;
  Ok (match cur_name_space_ g with
      | Some _ => SetNameSpace (opts p) None g
      | None => g
      end).

(** ** Type names (lines 160-176, 425-499) *)

(** A null pointer is not to be followed. *)
Definition deref {A : Type} (p : option A) : Result A :=
  match p with
  | Some a => Ok a
  | None => Abort NullPointer
  end.

(** [WrapInOptionIfNotRequired(s, required)]. *)
Definition WrapInOptionIfNotRequired (s : string) (required : bool) : string :=
  if required then s else "Option<" ++ s ++ ">".

(** [AddUnwrapIfRequired(s, required)]. *)
Definition AddUnwrapIfRequired (s : string) (required : bool) : string :=
  if required then s ++ ".unwrap()" else s.

(** Modelled from the spec: the Rust type column of idl.h's type table
    (not part of the sources at hand), which [ctypename] is built from:
    the Rust scalar of each width and kind. *)
Definition ctypename (t : BaseType) : string :=
  match t with
  | BASE_TYPE_NONE | BASE_TYPE_UTYPE | BASE_TYPE_UCHAR => "u8"
  | BASE_TYPE_BOOL => "bool"
  | BASE_TYPE_CHAR => "i8"
  | BASE_TYPE_SHORT => "i16"
  | BASE_TYPE_USHORT => "u16"
  | BASE_TYPE_INT => "i32"
  | BASE_TYPE_UINT => "u32"
  | BASE_TYPE_LONG => "i64"
  | BASE_TYPE_ULONG => "u64"
  | BASE_TYPE_FLOAT => "f32"
  | BASE_TYPE_DOUBLE => "f64"
  | BASE_TYPE_STRING | BASE_TYPE_VECTOR | BASE_TYPE_STRUCT
  | BASE_TYPE_UNION | BASE_TYPE_ARRAY => "unused"
  end.

(** [GetTypeBasic(type)]. *)
Definition GetTypeBasic (cur : Namespace) (t : Type_) : Result string :=
  ft <- GetFullType t ;;
  match ft with
  | ftInteger | ftFloat | ftBool | ftEnumKey | ftUnionKey =>
      match enum_def t with
      | Some ed => Ok (WrapInNameSpace_enum cur ed)
      | None => Ok (ctypename (base_type t))
      end
  | _ => Abort (AssertionFailed "incorrect type given")
  end.

(** [GetTypeGet(type)]. *)
Definition GetTypeGet (cur : Namespace) (t : Type_) : Result string :=
  ft <- GetFullType t ;;
  match ft with
  | ftInteger | ftFloat | ftBool | ftEnumKey | ftUnionKey =>
      GetTypeBasic cur t
  | ftTable =>
      sd <- deref (struct_def t) ;;
      Ok (WrapInNameSpace cur (sr_defined_namespace sd) (sr_name sd) ++ "<'a>")
  | _ =>
      sd <- deref (struct_def t) ;;
      Ok (WrapInNameSpace cur (sr_defined_namespace sd) (sr_name sd))
  end.

(** [GetEnumValue(enum_def, enum_val)]. *)
Definition GetEnumValue (ed : EnumDef) (ev : EnumVal) : string :=
  Name_enum ed ++ "::" ++ Name_enumval ev.

(** ** Table fields (lines 685-716, 915-1143) *)

(** [GetFieldOffsetName(field)]. *)
Definition GetFieldOffsetName (field : FieldDef) : string :=
  "VT_" ++ MakeUpper (Name_field field).

(** [GetDefaultScalarValue(field)]. *)
Definition GetDefaultScalarValue (cur : Namespace) (field : FieldDef)
  : Result string :=
  ft <- GetFullType (type (value field)) ;;
  match ft with
  | ftInteger | ftFloat =>
      Ok (if optional field then "None" else constant (value field))
  | ftBool =>
      Ok (if optional field then "None"
          else if String.eqb (constant (value field)) "0" then "false"
               else "true")
  | ftUnionKey | ftEnumKey =>
      if optional field then Ok "None"
      else
        ed <- deref (enum_def (type (value field))) ;;
        match FindByValue ed (constant (value field)) with
        | Some ev =>
            Ok (WrapInNameSpace cur (ed_defined_namespace ed)
                                (GetEnumValue ed ev))
        | None => Abort (AssertionFailed "ev")
        end
  | _ => Ok "None"
  end.

(** [GenTableAccessorFuncReturnType(field, lifetime)]. *)
Definition GenTableAccessorFuncReturnType (cur : Namespace) (field : FieldDef)
           (lifetime : string) : Result string :=
  let t := type (value field) in
  ft <- GetFullType t ;;
  match ft with
  | ftInteger | ftFloat | ftBool =>
      typname <- GetTypeBasic cur t ;;
      Ok (if optional field then "Option<" ++ typname ++ ">" else typname)
  | ftStruct =>
      sd <- deref (struct_def t) ;;
      let typname := WrapInNameSpace_struct cur sd in
      Ok (WrapInOptionIfNotRequired ("&" ++ lifetime ++ " " ++ typname)
                                    (required field))
  | ftTable =>
      sd <- deref (struct_def t) ;;
      let typname := WrapInNameSpace_struct cur sd in
      Ok (WrapInOptionIfNotRequired (typname ++ "<" ++ lifetime ++ ">")
                                    (required field))
  | ftEnumKey | ftUnionKey =>
      ed <- deref (enum_def t) ;;
      let typname := WrapInNameSpace_enum cur ed in
      Ok (if optional field then "Option<" ++ typname ++ ">" else typname)
  | ftUnionValue =>
      Ok (WrapInOptionIfNotRequired ("flatbuffers::Table<" ++ lifetime ++ ">")
                                    (required field))
  | ftString =>
      Ok (WrapInOptionIfNotRequired ("&" ++ lifetime ++ " str")
                                    (required field))
  | ftVectorOfInteger | ftVectorOfBool | ftVectorOfFloat =>
      typname <- GetTypeBasic cur (VectorType t) ;;
      if IsOneByte (base_type (VectorType t)) then
        Ok (WrapInOptionIfNotRequired
              ("&" ++ lifetime ++ " [" ++ typname ++ "]") (required field))
      else
        Ok (WrapInOptionIfNotRequired
              ("flatbuffers::Vector<" ++ lifetime ++ ", " ++ typname ++ ">")
              (required field))
  | ftVectorOfEnumKey =>
      ed <- deref (enum_def t) ;;
      let typname := WrapInNameSpace_enum cur ed in
      Ok (WrapInOptionIfNotRequired
            ("flatbuffers::Vector<" ++ lifetime ++ ", " ++ typname ++ ">")
            (required field))
  | ftVectorOfStruct =>
      sd <- deref (struct_def t) ;;
      let typname := WrapInNameSpace_struct cur sd in
      Ok (WrapInOptionIfNotRequired
            ("&" ++ lifetime ++ " [" ++ typname ++ "]") (required field))
  | ftVectorOfTable =>
      sd <- deref (struct_def t) ;;
      let typname := WrapInNameSpace_struct cur sd in
      Ok (WrapInOptionIfNotRequired
            ("flatbuffers::Vector<" ++ lifetime ++
             ", flatbuffers::ForwardsUOffset<" ++
             typname ++ "<" ++ lifetime ++ ">>>")
            (required field))
  | ftVectorOfString =>
      Ok (WrapInOptionIfNotRequired
            ("flatbuffers::Vector<" ++ lifetime ++
             ", flatbuffers::ForwardsUOffset<&" ++ lifetime ++ " str>>")
            (required field))
  | ftVectorOfUnionValue =>
      Abort (AssertionFailed "vectors of unions are not yet supported")
  end.

(** [FollowType(type, lifetime)]. *)
Definition FollowType (cur : Namespace) (t : Type_) (lifetime : string)
  : Result string :=
  let WrapForwardsUOffset (ty : string) : string :=
    "flatbuffers::ForwardsUOffset<" ++ ty ++ ">" in
  let WrapVector (ty : string) : string :=
    "flatbuffers::Vector<" ++ lifetime ++ ", " ++ ty ++ ">" in
  ft <- GetFullType t ;;
  match ft with
  | ftInteger | ftFloat | ftBool => GetTypeBasic cur t
  | ftStruct =>
      sd <- deref (struct_def t) ;; Ok (WrapInNameSpace_struct cur sd)
  | ftUnionKey | ftEnumKey =>
      ed <- deref (enum_def t) ;; Ok (WrapInNameSpace_enum cur ed)
  | ftTable =>
      sd <- deref (struct_def t) ;;
      Ok (WrapForwardsUOffset (WrapInNameSpace_struct cur sd))
  | ftUnionValue =>
      Ok (WrapForwardsUOffset ("flatbuffers::Table<" ++ lifetime ++ ">"))
  | ftString => Ok (WrapForwardsUOffset "&str")
  | ftVectorOfInteger | ftVectorOfBool | ftVectorOfFloat =>
      typname <- GetTypeBasic cur (VectorType t) ;;
      Ok (WrapForwardsUOffset (WrapVector typname))
  | ftVectorOfEnumKey =>
      ed <- deref (enum_def (VectorType t)) ;;
      Ok (WrapForwardsUOffset (WrapVector (WrapInNameSpace_enum cur ed)))
  | ftVectorOfStruct =>
      sd <- deref (struct_def t) ;;
      Ok (WrapForwardsUOffset (WrapVector (WrapInNameSpace_struct cur sd)))
  | ftVectorOfTable =>
      sd <- deref (struct_def t) ;;
      Ok (WrapForwardsUOffset
            (WrapVector (WrapForwardsUOffset (WrapInNameSpace_struct cur sd))))
  | ftVectorOfString =>
      Ok (WrapForwardsUOffset
            (WrapVector (WrapForwardsUOffset ("&" ++ lifetime ++ " str"))))
  | ftVectorOfUnionValue =>
      Abort (AssertionFailed "vectors of unions are not yet supported")
  end.

(** [GenTableAccessorFuncBody(field, lifetime)].  The text still holds the
    placeholder of the struct name, which the code writer fills in. *)
Definition GenTableAccessorFuncBody (cur : Namespace) (field : FieldDef)
           (lifetime : string) : Result string :=
  let vt_offset := GetFieldOffsetName field in
  typname <- FollowType cur (type (value field)) lifetime ;;
  default_value <-
    (if negb (optional field || required field) then
       d <- GetDefaultScalarValue cur field ;; Ok ("Some(" ++ d ++ ")")
     else Ok "None") ;;
  let unwrap := if optional field then "" else ".unwrap()" in
  t <- GetFullType (type (value field)) ;;
  let safe_slice :=
    if match t with
       | ftVectorOfStruct => true
       | ftVectorOfBool | ftVectorOfFloat | ftVectorOfInteger =>
           IsOneByte (base_type (VectorType (type (value field))))
       | _ => false
       end
    then ".map(|v| v.safe_slice())" else "" in
  Ok ("self._tab.get::<" ++ typname ++ ">({{STRUCT_NAME}}::" ++
      vt_offset ++ ", " ++ default_value ++ ")" ++ safe_slice ++ unwrap).

(** [TableFieldReturnsOption(field)]. *)
Definition TableFieldReturnsOption (field : FieldDef) : Result bool :=
  if optional field then Ok true
  else
    ft <- GetFullType (type (value field)) ;;
    match ft with
    | ftInteger | ftFloat | ftBool | ftEnumKey | ftUnionKey => Ok false
    | _ => Ok true
    end.

(** [TableBuilderTypeNeedsLifetime(type)]. *)
Definition TableBuilderTypeNeedsLifetime (t : Type_) : Result bool :=
  ft <- GetFullType t ;;
  match ft with
  | ftInteger | ftFloat | ftBool | ftEnumKey | ftUnionKey | ftUnionValue =>
      Ok false
  | _ => Ok true
  end.

(** The loop of [TableBuilderArgsNeedsLifetime]: it returns at the first
    field that needs a lifetime. *)
Fixpoint TableBuilderArgsNeedsLifetime_loop (l : list FieldDef) : Result bool :=
  match l with
  | [] => Ok false
  | field :: l' =>
      if deprecated field then TableBuilderArgsNeedsLifetime_loop l'
      else
        b <- TableBuilderTypeNeedsLifetime (type (value field)) ;;
        if b then Ok true else TableBuilderArgsNeedsLifetime_loop l'
  end.

(** [TableBuilderArgsNeedsLifetime(struct_def)]. *)
Definition TableBuilderArgsNeedsLifetime (struct_def : StructDef) : Result bool :=
  if sd_fixed struct_def then Abort (AssertionFailed "!struct_def.fixed")
  else TableBuilderArgsNeedsLifetime_loop (fields struct_def).

(** The values that [ForAllTableFields] binds for its callback. *)
Record TableFieldValues : Type := {
  OFFSET_NAME : string;
  OFFSET_VALUE : string;
  FIELD_NAME : string;
  DEFAULT_VALUE : string
}.

(** [ForAllTableFields(struct_def, cb, reversed)]: deprecated fields are
    skipped; for the others the four values are bound (the default value is
    computed for each of them, whatever the callback does), then the
    callback runs.  The result is what the callbacks append to [code_]. *)
Definition ForAllTableFields (cur : Namespace) (struct_def : StructDef)
           (cb : FieldDef -> TableFieldValues -> Result (list string))
           (reversed : bool) : Result (list string) :=
  let go (field : FieldDef) : Result (list string) :=
    if deprecated field then Ok []
    else
      default_value <- GetDefaultScalarValue cur field ;;
      cb field {| OFFSET_NAME := GetFieldOffsetName field;
                  OFFSET_VALUE := NumToString (offset (value field));
                  FIELD_NAME := Name_field field;
                  DEFAULT_VALUE := default_value |} in
  let fields := fields struct_def in
  lines <- mapM go (if reversed then rev fields else fields) ;;
  Ok (List.concat lines).

(** The values that [ForAllUnionVariantsBesidesNone] binds. *)
Record UnionVariantValues : Type := {
  U_ELEMENT_ENUM_TYPE : string;
  U_ELEMENT_TABLE_TYPE : string;
  U_ELEMENT_NAME : string
}.

(** [ForAllUnionVariantsBesidesNone(def, cb)]. *)
Definition ForAllUnionVariantsBesidesNone (cur : Namespace) (def : EnumDef)
           (cb : EnumVal -> UnionVariantValues -> Result (list string))
  : Result (list string) :=
  if negb (is_union def) then Abort (AssertionFailed "def.is_union")
  else
    let go (ev : EnumVal) : Result (list string) :=
      if BaseType_eqb (base_type (union_type ev)) BASE_TYPE_NONE then Ok []
      else
        sd <- deref (struct_def (union_type ev)) ;;
        cb ev {| U_ELEMENT_ENUM_TYPE :=
                   WrapInNameSpace cur (ed_defined_namespace def)
                                   (GetEnumValue def ev);
                 U_ELEMENT_TABLE_TYPE :=
                   WrapInNameSpace cur (sr_defined_namespace sd) (sr_name sd);
                 U_ELEMENT_NAME := MakeSnakeCase (Name_enumval ev) |} in
    lines <- mapM go (Vals def) ;;
    Ok (List.concat lines).

(** ** The table emitter: create, verifier, finish (lines 1186-1217,
    1332-1374, 1452-1468)

    Each definition below is a segment of [GenTable]; its result is the list
    of the texts appended to [code_], in order, with the placeholders
    replaced by the values bound at that point.  A text that ends with a
    backslash is continued by the next one on the same output line. *)

(** The sizes visited by [for (size = start; size; size /= 2)]. *)
Function size_loop (size : nat) {measure (fun n => n) size} : list nat :=
  if (size =? 0)%nat then [] else size :: size_loop (size / 2).
Proof.
  intros size H. apply Nat.eqb_neq in H.
  apply Nat.div_lt; lia.
Defined.

(** The body of the callback of the create function, for one field, when
    the loop is at [size]. *)
Definition GenTable_create_field (struct_def : StructDef) (size : nat)
           (field : FieldDef) (v : TableFieldValues) : Result (list string) :=
  if sortbysize struct_def &&
     negb (size =? SizeOf (base_type (type (value field))))%nat
  then Ok []
  else
    b <- TableFieldReturnsOption field ;;
    if b then
      Ok [ "      if let Some(x) = args." ++ FIELD_NAME v ++ " " ++
           "{ builder.add_" ++ FIELD_NAME v ++ "(x); }" ]
    else
      Ok [ "      builder.add_" ++ FIELD_NAME v ++
           "(args." ++ FIELD_NAME v ++ ");" ].

(** The loop over the sizes: the add-operations of the create function. *)
Definition GenTable_create_adds (cur : Namespace) (struct_def : StructDef)
  : Result (list string) :=
  lines <- mapM (fun size =>
                   ForAllTableFields cur struct_def
                     (GenTable_create_field struct_def size) true)
                (size_loop (if sortbysize struct_def
                            then sizeof_largest_scalar_t else 1)) ;;
  Ok (List.concat lines).

(** The create function. *)
Definition GenTable_create (cur : Namespace) (struct_def : StructDef)
  : Result (list string) :=
  let STRUCT_NAME := Name_struct struct_def in
  let MAYBE_US :=
    if (List.length (fields struct_def) =? 0)%nat then "_" else "" in
  needs_lifetime <- TableBuilderArgsNeedsLifetime struct_def ;;
  let MAYBE_LT := if needs_lifetime then "<'args>" else "" in
  adds <- GenTable_create_adds cur struct_def ;;
  Ok (List.concat
        [ [ "    #[allow(unused_mut)]";
            "    pub fn create<'bldr: 'args, 'args: 'mut_bldr, 'mut_bldr>(";
            "        _fbb: " ++
            "&'mut_bldr mut flatbuffers::FlatBufferBuilder<'bldr>,";
            "        " ++ MAYBE_US ++ "args: &'args " ++ STRUCT_NAME ++
            "Args" ++ MAYBE_LT ++ ")" ++
            " -> flatbuffers::WIPOffset<" ++ STRUCT_NAME ++ "<'bldr>> {";
            "      let mut builder = " ++ STRUCT_NAME ++ "Builder::new(_fbb);" ];
          adds;
          [ "      builder.finish()";
            "    }";
            "" ] ]).

(** The arm of the verifier's [match key] for one union variant. *)
Definition GenTable_verifier_arm (v : UnionVariantValues) : string :=
  "          " ++ U_ELEMENT_ENUM_TYPE v ++ " => v.verify_union_variant::" ++
  "<flatbuffers::ForwardsUOffset<" ++ U_ELEMENT_TABLE_TYPE v ++ ">>(" ++
  dq ++ U_ELEMENT_ENUM_TYPE v ++ dq ++ ", pos),".

(** The callback of the verifier, for one field. *)
Definition GenTable_verifier_field (cur : Namespace) (field : FieldDef)
           (v : TableFieldValues) : Result (list string) :=
  ft <- GetFullType (type (value field)) ;;
  match ft with
  | ftUnionKey => Ok []
  | ftUnionValue =>
      let IS_REQ := if required field then "true" else "false" in
      union_def <- deref (enum_def (type (value field))) ;;
      let UNION_TYPE := Name_enum union_def in
      arms <- ForAllUnionVariantsBesidesNone cur union_def
                (fun _ u => Ok [GenTable_verifier_arm u]) ;;
      Ok (List.concat
            [ [ nl ++ "     .visit_union::<" ++ UNION_TYPE ++ ", _>(" ++
                "&" ++ dq ++ FIELD_NAME v ++ "_type" ++ dq ++ ", Self::" ++
                OFFSET_NAME v ++ "_TYPE, " ++
                "&" ++ dq ++ FIELD_NAME v ++ dq ++ ", Self::" ++
                OFFSET_NAME v ++ ", " ++ IS_REQ ++ ", " ++
                "|key, v, pos| {";
                "        match key {" ];
              arms;
              [ "          _ => Ok(()),";
                "        }";
                "     })?\" ] ])
  | _ =>
      let IS_REQ := if required field then "true" else "false" in
      TY <- FollowType cur (type (value field)) "'_" ;;
      Ok [ nl ++ "     .visit_field::<" ++ TY ++ ">(&" ++ dq ++
           FIELD_NAME v ++ dq ++ ", " ++
           "Self::" ++ OFFSET_NAME v ++ ", " ++ IS_REQ ++ ")?\" ]
  end.

(** The structural verifier. *)
Definition GenTable_verifier (cur : Namespace) (struct_def : StructDef)
  : Result (list string) :=
  let STRUCT_NAME := Name_struct struct_def in
  checks <- ForAllTableFields cur struct_def
              (GenTable_verifier_field cur) false ;;
  Ok (List.concat
        [ [ "impl flatbuffers::Verifiable for " ++ STRUCT_NAME ++ "<'_> {";
            "  #[inline]";
            "  fn run_verifier(";
            "    v: &mut flatbuffers::Verifier, pos: usize";
            "  ) -> Result<(), flatbuffers::InvalidFlatbuffer> {";
            "    use self::flatbuffers::Verifiable;";
            "    v.visit_table(pos)?\" ];
          checks;
          [ nl ++ "     .finish();";
            "    Ok(())";
            "  }";
            "}" ] ]).

(** The presence check of [finish()] for one field. *)
Definition GenTable_finish_field (STRUCT_NAME : string) (field : FieldDef)
           (v : TableFieldValues) : Result (list string) :=
  if negb (required field) then Ok []
  else
    Ok [ "    self.fbb_.required(o, " ++ STRUCT_NAME ++ "::" ++
         OFFSET_NAME v ++ "," ++ dq ++ FIELD_NAME v ++ dq ++ ");" ].

(** The [finish()] function of the builder, and the end of the builder's
    [impl]. *)
Definition GenTable_finish (cur : Namespace) (struct_def : StructDef)
  : Result (list string) :=
  let STRUCT_NAME := Name_struct struct_def in
  checks <- ForAllTableFields cur struct_def
              (GenTable_finish_field STRUCT_NAME) false ;;
  Ok (List.concat
        [ [ "  #[inline]";
            "  pub fn finish(self) -> " ++
            "flatbuffers::WIPOffset<" ++ STRUCT_NAME ++ "<'a>> {";
            "    let o = self.fbb_.end_table(self.start_);" ];
          checks;
          [ "    flatbuffers::WIPOffset::new(o.value())";
            "  }";
            "}";
            "" ] ]).

(** ** The struct emitter (lines 1510-1531, 1093-1101, 1705-1911) *)






(** [PaddingDefinition] and [PaddingInitializer]: the state is the text
    [*code_ptr] and the counter [*id]. *)
Definition PaddingDefinition (bits : nat) (st : string * nat) : string * nat :=
  let (code, id) := st in
  (code ++ ("  padding" ++ NumToString id ++ "__: u" ++
            NumToString bits ++ ","),
   S id).

Definition PaddingInitializer (bits : nat) (st : string * nat) : string * nat :=
  let (code, id) := st in
  (code ++ ("padding" ++ NumToString id ++ "__: 0,"), S id).

(** [GenPadding(field, code_ptr, id, f)]: one call of [f] for each of the
    four low bits set in [field.padding], with the width in bits. *)
Definition GenPadding (field : FieldDef) (st : string * nat)
           (f : nat -> string * nat -> string * nat) : Result (string * nat) :=
  if (padding field =? 0)%nat then Ok st
  else
    let st := fold_left (fun st i =>
                           if Nat.testbit (padding field) i
                           then f (2 ^ i * 8)%nat st else st)
                        [0; 1; 2; 3]%nat st in
    if (padding field <? 16)%nat then Ok st
    else Abort (AssertionFailed "!(field.padding & ~0xF)").











(** ** The arguments of the table builder (lines 718-913) *)

(** [TableBuilderArgsDefnType(field, lifetime)]: the type of the member
    that the [Args] struct holds for the field. *)
Definition TableBuilderArgsDefnType (cur : Namespace) (field : FieldDef)
           (lifetime : string) : Result string :=
  let t := type (value field) in
  ft <- GetFullType t ;;
  match ft with
  | ftInteger | ftFloat | ftBool =>
      typname <- GetTypeBasic cur t ;;
      Ok (if optional field then "Option<" ++ typname ++ ">" else typname)
  | ftStruct =>
      sd <- deref (struct_def t) ;;
      let typname := WrapInNameSpace_struct cur sd in
      Ok ("Option<&" ++ lifetime ++ " " ++ typname ++ ">")
  | ftTable =>
      sd <- deref (struct_def t) ;;
      let typname := WrapInNameSpace_struct cur sd in
      Ok ("Option<flatbuffers::WIPOffset<" ++ typname ++ "<" ++ lifetime ++
          ">>>")
  | ftString =>
      Ok ("Option<flatbuffers::WIPOffset<&" ++ lifetime ++ " str>>")
  | ftEnumKey | ftUnionKey =>
      ed <- deref (enum_def t) ;;
      let typname := WrapInNameSpace_enum cur ed in
      Ok (if optional field then "Option<" ++ typname ++ ">" else typname)
  | ftUnionValue =>
      Ok "Option<flatbuffers::WIPOffset<flatbuffers::UnionWIPOffset>>"
  | ftVectorOfInteger | ftVectorOfBool | ftVectorOfFloat =>
      typname <- GetTypeBasic cur (VectorType t) ;;
      Ok ("Option<flatbuffers::WIPOffset<flatbuffers::Vector<" ++ lifetime ++
          ", " ++ typname ++ ">>>")
  | ftVectorOfEnumKey =>
      ed <- deref (enum_def t) ;;
      let typname := WrapInNameSpace_enum cur ed in
      Ok ("Option<flatbuffers::WIPOffset<flatbuffers::Vector<" ++ lifetime ++
          ", " ++ typname ++ ">>>")
  | ftVectorOfStruct =>
      sd <- deref (struct_def t) ;;
      let typname := WrapInNameSpace_struct cur sd in
      Ok ("Option<flatbuffers::WIPOffset<flatbuffers::Vector<" ++ lifetime ++
          ", " ++ typname ++ ">>>")
  | ftVectorOfTable =>
      sd <- deref (struct_def t) ;;
      let typname := WrapInNameSpace_struct cur sd in
      Ok ("Option<flatbuffers::WIPOffset<flatbuffers::Vector<" ++ lifetime ++
          ", flatbuffers::ForwardsUOffset<" ++ typname ++ "<" ++ lifetime ++
          ">>>>>")
  | ftVectorOfString =>
      Ok ("Option<flatbuffers::WIPOffset<flatbuffers::Vector<" ++ lifetime ++
          ", flatbuffers::ForwardsUOffset<&" ++ lifetime ++ " str>>>>")
  | ftVectorOfUnionValue =>
      (* [typname] is computed from [*type.enum_def] and not used *)
      _ <- deref (enum_def t) ;;
      Ok ("Option<flatbuffers::WIPOffset<flatbuffers::Vector<" ++ lifetime ++
          ", flatbuffers::ForwardsUOffset<" ++
          "flatbuffers::Table<" ++
          lifetime ++ ">>>>")
  end.

(** [TableBuilderArgsAddFuncType(field, lifetime)]: the type of the
    parameter of the builder's [add_] function for the field. *)
Definition TableBuilderArgsAddFuncType (cur : Namespace) (field : FieldDef)
           (lifetime : string) : Result string :=
  let t := type (value field) in
  ft <- GetFullType (type (value field)) ;;
  match ft with
  | ftVectorOfStruct =>
      sd <- deref (struct_def t) ;;
      let typname := WrapInNameSpace_struct cur sd in
      Ok ("flatbuffers::WIPOffset<flatbuffers::Vector<" ++ lifetime ++ ", " ++
          typname ++ ">>")
  | ftVectorOfTable =>
      sd <- deref (struct_def t) ;;
      let typname := WrapInNameSpace_struct cur sd in
      Ok ("flatbuffers::WIPOffset<flatbuffers::Vector<" ++ lifetime ++
          ", flatbuffers::ForwardsUOffset<" ++ typname ++ "<" ++ lifetime ++
          ">>>>")
  | ftVectorOfInteger | ftVectorOfBool | ftVectorOfFloat =>
      typname <- GetTypeBasic cur (VectorType t) ;;
      Ok ("flatbuffers::WIPOffset<flatbuffers::Vector<" ++ lifetime ++ ", " ++
          typname ++ ">>")
  | ftVectorOfString =>
      Ok ("flatbuffers::WIPOffset<flatbuffers::Vector<" ++ lifetime ++
          ", flatbuffers::ForwardsUOffset<&" ++ lifetime ++ " str>>>")
  | ftVectorOfEnumKey =>
      ed <- deref (enum_def t) ;;
      let typname := WrapInNameSpace_enum cur ed in
      Ok ("flatbuffers::WIPOffset<flatbuffers::Vector<" ++ lifetime ++ ", " ++
          typname ++ ">>")
  | ftVectorOfUnionValue =>
      Ok ("flatbuffers::WIPOffset<flatbuffers::Vector<" ++ lifetime ++
          ", flatbuffers::ForwardsUOffset<flatbuffers::Table<" ++ lifetime ++
          ">>>")
  | ftEnumKey =>
      ed <- deref (enum_def t) ;;
      Ok (WrapInNameSpace_enum cur ed)
  | ftStruct =>
      sd <- deref (struct_def t) ;;
      let typname := WrapInNameSpace_struct cur sd in
      Ok ("&" ++ typname ++ "")
  | ftTable =>
      sd <- deref (struct_def t) ;;
      let typname := WrapInNameSpace_struct cur sd in
      Ok ("flatbuffers::WIPOffset<" ++ typname ++ "<" ++ lifetime ++ ">>")
  | ftInteger | ftBool | ftFloat => GetTypeBasic cur t
  | ftString => Ok ("flatbuffers::WIPOffset<&" ++ lifetime ++ " str>")
  | ftUnionKey =>
      ed <- deref (enum_def t) ;;
      Ok (WrapInNameSpace_enum cur ed)
  | ftUnionValue =>
      Ok "flatbuffers::WIPOffset<flatbuffers::UnionWIPOffset>"
  end.

(** [TableBuilderArgsAddFuncBody(field)]: the call that the [add_] function
    makes, up to its arguments. *)
Definition TableBuilderArgsAddFuncBody (cur : Namespace) (field : FieldDef)
  : Result string :=
  let t := type (value field) in
  ft <- GetFullType (type (value field)) ;;
  match ft with
  | ftInteger | ftBool | ftFloat =>
      typname <- GetTypeBasic cur (type (value field)) ;;
      Ok ((if optional field then "self.fbb_.push_slot_always::<"
           else "self.fbb_.push_slot::<") ++
          typname ++ ">")
  | ftEnumKey | ftUnionKey =>
      underlying_typname <- GetTypeBasic cur t ;;
      Ok ((if optional field then "self.fbb_.push_slot_always::<"
           else "self.fbb_.push_slot::<") ++
          underlying_typname ++ ">")
  | ftStruct =>
      sd <- deref (struct_def t) ;;
      let typname := WrapInNameSpace_struct cur sd in
      Ok ("self.fbb_.push_slot_always::<&" ++ typname ++ ">")
  | ftTable =>
      sd <- deref (struct_def t) ;;
      let typname := WrapInNameSpace_struct cur sd in
      Ok ("self.fbb_.push_slot_always::<flatbuffers::WIPOffset<" ++
          typname ++ ">>")
  | ftUnionValue | ftString
  | ftVectorOfInteger | ftVectorOfFloat | ftVectorOfBool
  | ftVectorOfEnumKey | ftVectorOfStruct | ftVectorOfTable
  | ftVectorOfString | ftVectorOfUnionValue =>
      Ok "self.fbb_.push_slot_always::<flatbuffers::WIPOffset<_>>"
  end.

(** ** The table emitter: the field constants, the accessors of a union,
    the arguments, the builder and the formatter (lines 1219-1225,
    1284-1330, 1376-1450, 1470-1507) *)

(** The constants of the field ids. *)
Definition GenTable_field_ids (cur : Namespace) (struct_def : StructDef)
  : Result (list string) :=
  ids <- ForAllTableFields cur struct_def
           (fun _ v =>
              Ok [ "    pub const " ++ OFFSET_NAME v ++
                   ": flatbuffers::VOffsetT = " ++
                   OFFSET_VALUE v ++ ";" ])
           false ;;
  Ok (ids ++
      if (0 <? List.length (fields struct_def))%nat then [""] else [])%list.

(** The accessor of one member of the union of a union field. *)
Definition GenTable_union_accessor (field : FieldDef)
           (FIELD_NAME FIELD_TYPE_FIELD_NAME : string)
           (u : UnionVariantValues) : list string :=
  List.concat
    [ [ "  #[inline]";
        "  #[allow(non_snake_case)]";
        "  pub fn " ++ FIELD_NAME ++ "_as_" ++ U_ELEMENT_NAME u ++
        "(&self) -> " ++
        "Option<" ++ U_ELEMENT_TABLE_TYPE u ++ "<'a>> {";
        "    if self." ++ FIELD_TYPE_FIELD_NAME ++ "_type() == " ++
        U_ELEMENT_ENUM_TYPE u ++ " {" ];
      if required field then
        [ "      let u = self." ++ FIELD_NAME ++ "();";
          "      Some(" ++ U_ELEMENT_TABLE_TYPE u ++ "::init_from_table(u))" ]
      else
        [ "      self." ++ FIELD_NAME ++ "().map(" ++
          U_ELEMENT_TABLE_TYPE u ++ "::init_from_table)" ];
      [ "    } else {";
        "      None";
        "    }";
        "  }";
        "" ] ].

(** The callback of the union accessors, for one field. *)
Definition GenTable_union_accessors_field (cur : Namespace) (field : FieldDef)
           (v : TableFieldValues) : Result (list string) :=
  if negb (BaseType_eqb (base_type (type (value field))) BASE_TYPE_UNION)
  then Ok []
  else
    let FIELD_TYPE_FIELD_NAME := fd_name field in
    union_def <- deref (enum_def (type (value field))) ;;
    ForAllUnionVariantsBesidesNone cur union_def
      (fun _ u =>
         Ok (GenTable_union_accessor field (FIELD_NAME v)
                                     FIELD_TYPE_FIELD_NAME u)).

(** The accessors of the unions, and the end of the table's [impl]. *)
Definition GenTable_union_accessors (cur : Namespace) (struct_def : StructDef)
  : Result (list string) :=
  accessors <- ForAllTableFields cur struct_def
                 (GenTable_union_accessors_field cur) false ;;
  Ok (accessors ++ [ "}"; "" ])%list.

(** The [Args] struct. *)
Definition GenTable_args (cur : Namespace) (struct_def : StructDef)
  : Result (list string) :=
  let STRUCT_NAME := Name_struct struct_def in
  needs_lifetime <- TableBuilderArgsNeedsLifetime struct_def ;;
  let MAYBE_LT := if needs_lifetime then "<'a>" else "" in
  members <- ForAllTableFields cur struct_def
               (fun field v =>
                  PARAM_TYPE <- TableBuilderArgsDefnType cur field "'a" ;;
                  Ok [ "    pub " ++ FIELD_NAME v ++ ": " ++ PARAM_TYPE ++
                       "," ])
               false ;;
  Ok (List.concat
        [ [ "pub struct " ++ STRUCT_NAME ++ "Args" ++ MAYBE_LT ++ " {" ];
          members;
          [ "}" ] ]).

(** The [Default] of the [Args] struct.  [MAYBE_LT] is the value that the
    [Args] struct has bound. *)
Definition GenTable_args_default (cur : Namespace) (struct_def : StructDef)
           (MAYBE_LT : string) : Result (list string) :=
  let STRUCT_NAME := Name_struct struct_def in
  members <- ForAllTableFields cur struct_def
               (fun field v =>
                  Ok [ "            " ++ FIELD_NAME v ++ ": " ++
                       DEFAULT_VALUE v ++ ",\";
                       if required field then " // required field" else "" ])
               false ;;
  Ok (List.concat
        [ [ "impl<'a> Default for " ++ STRUCT_NAME ++ "Args" ++ MAYBE_LT ++
            " {";
            "    #[inline]";
            "    fn default() -> Self {";
            "        " ++ STRUCT_NAME ++ "Args {" ];
          members;
          [ "        }";
            "    }";
            "}" ] ]).

(** The [add_] function of the builder for one field. *)
Definition GenTable_builder_field (cur : Namespace) (struct_def : StructDef)
           (field : FieldDef) (v : TableFieldValues) : Result (list string) :=
  let is_scalar := IsScalar (base_type (type (value field))) in
  let offset := GetFieldOffsetName field in
  let FIELD_OFFSET := Name_struct struct_def ++ "::" ++ offset in
  FIELD_TYPE <- TableBuilderArgsAddFuncType cur field "'b " ;;
  FUNC_BODY <- TableBuilderArgsAddFuncBody cur field ;;
  Ok [ "  #[inline]";
       "  pub fn add_" ++ FIELD_NAME v ++ "(&mut self, " ++ FIELD_NAME v ++
       ": " ++ FIELD_TYPE ++ ") {";
       if is_scalar && negb (optional field) then
         "    " ++ FUNC_BODY ++ "(" ++ FIELD_OFFSET ++ ", " ++ FIELD_NAME v ++
         ", " ++ DEFAULT_VALUE v ++ ");"
       else
         "    " ++ FUNC_BODY ++ "(" ++ FIELD_OFFSET ++ ", " ++ FIELD_NAME v ++
         ");";
       "  }" ].

(** The builder struct, its [add_] functions and its [new]. *)
Definition GenTable_builder (cur : Namespace) (struct_def : StructDef)
  : Result (list string) :=
  let STRUCT_NAME := Name_struct struct_def in
  adds <- ForAllTableFields cur struct_def
            (GenTable_builder_field cur struct_def) false ;;
  Ok (List.concat
        [ [ "pub struct " ++ STRUCT_NAME ++ "Builder<'a: 'b, 'b> {";
            "  fbb_: &'b mut flatbuffers::FlatBufferBuilder<'a>,";
            "  start_: flatbuffers::WIPOffset<" ++
            "flatbuffers::TableUnfinishedWIPOffset>,";
            "}";
            "impl<'a: 'b, 'b> " ++ STRUCT_NAME ++ "Builder<'a, 'b> {" ];
          adds;
          [ "  #[inline]";
            "  pub fn new(_fbb: &'b mut flatbuffers::FlatBufferBuilder<'a>) -> " ++
            STRUCT_NAME ++ "Builder<'a, 'b> {";
            "    let start = _fbb.start_table();";
            "    " ++ STRUCT_NAME ++ "Builder {";
            "      fbb_: _fbb,";
            "      start_: start,";
            "    }";
            "  }" ] ]).

(** The arm of the formatter's [match] for one member of a union. *)
Definition GenTable_debug_arm (FIELD_NAME FIELD_TYPE_FIELD_NAME UNION_ERR : string)
           (u : UnionVariantValues) : list string :=
  [ "        " ++ U_ELEMENT_ENUM_TYPE u ++ " => {";
    "          if let Some(x) = self." ++ FIELD_TYPE_FIELD_NAME ++ "_as_" ++
    U_ELEMENT_NAME u ++ "() {";
    "            ds.field(" ++ dq ++ FIELD_NAME ++ dq ++ ", &x)";
    "          } else {";
    "            ds.field(" ++ dq ++ FIELD_NAME ++ dq ++ ", " ++ UNION_ERR ++
    ")";
    "          }";
    "        }," ].

(** The callback of the formatter, for one field. *)
Definition GenTable_debug_field (cur : Namespace) (field : FieldDef)
           (v : TableFieldValues) : Result (list string) :=
  ft <- GetFullType (type (value field)) ;;
  match ft with
  | ftUnionValue =>
      (* [KEY_TYPE] is bound and not used by the texts below *)
      _ <- GenTableAccessorFuncReturnType cur field "" ;;
      let FIELD_TYPE_FIELD_NAME := fd_name field in
      let UNION_ERR :=
        "&" ++ dq ++ "InvalidFlatbuffer: Union discriminant" ++
        " does not match value." ++ dq in
      union_def <- deref (enum_def (type (value field))) ;;
      arms <- ForAllUnionVariantsBesidesNone cur union_def
                (fun _ u =>
                   Ok (GenTable_debug_arm (FIELD_NAME v) FIELD_TYPE_FIELD_NAME
                                          UNION_ERR u)) ;;
      Ok (List.concat
            [ [ "      match self." ++ FIELD_NAME v ++ "_type() {" ];
              arms;
              [ "        _ => { ";
                "          let x: Option<()> = None;";
                "          ds.field(" ++ dq ++ FIELD_NAME v ++ dq ++ ", &x)";
                "        },";
                "      };" ] ])
  | _ =>
      Ok [ "      ds.field(" ++ dq ++ FIELD_NAME v ++ dq ++ ", &self." ++
           FIELD_NAME v ++ "());" ]
  end.

(** The formatter ([Debug]) of the table. *)
Definition GenTable_debug (cur : Namespace) (struct_def : StructDef)
  : Result (list string) :=
  let STRUCT_NAME := Name_struct struct_def in
  members <- ForAllTableFields cur struct_def (GenTable_debug_field cur)
                               false ;;
  Ok (List.concat
        [ [ "impl std::fmt::Debug for " ++ STRUCT_NAME ++ "<'_> {";
            "  fn fmt(&self, f: &mut std::fmt::Formatter<'_>" ++
            ") -> std::fmt::Result {";
            "    let mut ds = f.debug_struct(" ++ dq ++ STRUCT_NAME ++ dq ++
            ");" ];
          members;
          [ "      ds.finish()";
            "  }";
            "}" ] ]).

(** ** The representation of an enum (lines 454-476) *)

(** [GetEnumTypeForDecl(type)]: the scalar that stands for an enum in its
    declaration. *)
Definition GetEnumTypeForDecl (t : Type_) : Result string :=
  ft <- GetFullType t ;;
  if negb (match ft with
           | ftEnumKey | ftUnionKey => true
           | _ => false
           end)
  then Abort (AssertionFailed "precondition failed in GetEnumTypeForDecl")
  else if BaseType_eqb (base_type t) BASE_TYPE_BOOL then Ok "u8"
  else Ok (ctypename (base_type t)).

(* ===================================================================== *)
(** * Part II: properties                                                 *)
(* ===================================================================== *)

(** ** Strings *)

Lemma append_nil_r (s : string) : s ++ "" = s.
Proof. induction s; simpl; congruence. Qed.

Lemma append_assoc (a b c : string) : (a ++ b) ++ c = a ++ (b ++ c).
Proof. induction a; simpl; congruence. Qed.

Lemma length_append (a b : string) :
  String.length (a ++ b) = String.length a + String.length b.
Proof. induction a; simpl; congruence. Qed.

Lemma char_at_append_r (a b : string) (i : nat) :
  char_at (a ++ b) (String.length a + i) = char_at b i.
Proof.
  unfold char_at. induction a as [|c a IH]; simpl; [reflexivity|exact IH].
Qed.

Lemma char_at_middle (a : string) (c : ascii) (b : string) :
  char_at (a ++ String c b) (String.length a) = c.
Proof.
  rewrite <- (Nat.add_0_r (String.length a)), char_at_append_r. reflexivity.
Qed.

Lemma starts_with_append (p s : string) : starts_with p (p ++ s) = true.
Proof.
  induction p as [|c p IH]; simpl; [reflexivity|].
  now rewrite Ascii.eqb_refl, IH.
Qed.

(** ** MakeSnakeCase: the loop as a recursion on the remaining input *)

(** What one character [c] contributes when the character before it in the
    input is [prev]. *)
Definition snake_piece (prev c : ascii) : string :=
  if Ascii.eqb c "_" then "_"
  else if negb (islower c) then
    (if islower prev then "_" else "") ++ String (CharToLower c) ""
  else String c "".

Fixpoint snake_tail (prev : ascii) (rest : string) : string :=
  match rest with
  | EmptyString => ""
  | String c r => snake_piece prev c ++ snake_tail c r
  end.

Definition snake (s : string) : string :=
  match s with
  | EmptyString => ""
  | String c r => String (CharToLower c) (snake_tail c r)
  end.

Lemma MakeSnakeCase_body_pos (pre : string) (p c : ascii) (rest acc : string) :
  MakeSnakeCase_body (pre ++ String p (String c rest)) acc
                     (S (String.length pre))
  = acc ++ snake_piece p c.
Proof.
  unfold MakeSnakeCase_body, snake_piece, push_back.
  simpl Nat.eqb. cbv iota.
  replace (S (String.length pre) - 1) with (String.length pre) by lia.
  rewrite char_at_middle.
  replace (pre ++ String p (String c rest))
    with ((pre ++ String p "") ++ String c rest)
    by (rewrite append_assoc; reflexivity).
  replace (S (String.length pre)) with (String.length (pre ++ String p ""))
    by (rewrite length_append; simpl; lia).
  rewrite char_at_middle.
  destruct (Ascii.eqb c "_"); [reflexivity|].
  destruct (islower c); simpl; [reflexivity|].
  destruct (islower p); simpl; rewrite ?append_assoc; reflexivity.
Qed.

Lemma MakeSnakeCase_loop (rest pre : string) (p : ascii) (acc : string) :
  fold_left (MakeSnakeCase_body (pre ++ String p rest))
            (seq (S (String.length pre)) (String.length rest)) acc
  = acc ++ snake_tail p rest.
Proof.
  revert pre p acc.
  induction rest as [|c rest IH]; intros pre p acc; simpl.
  - now rewrite append_nil_r.
  - rewrite MakeSnakeCase_body_pos.
    replace (pre ++ String p (String c rest))
      with ((pre ++ String p "") ++ String c rest)
      by (rewrite append_assoc; reflexivity).
    replace (S (S (String.length pre)))
      with (S (String.length (pre ++ String p "")))
      by (rewrite length_append; simpl; lia).
    rewrite IH, append_assoc. reflexivity.
Qed.

Lemma MakeSnakeCase_snake (s : string) : MakeSnakeCase s = snake s.
Proof.
  destruct s as [|c r]; [reflexivity|].
  unfold MakeSnakeCase. simpl String.length. simpl seq. simpl fold_left.
  change (String c r) with ("" ++ String c r).
  change 1 with (S (String.length "")).
  rewrite MakeSnakeCase_loop. reflexivity.
Qed.

(** ** Character classes *)

Lemma ascii_cases (P : ascii -> Prop) :
  (forall n, (n < 256)%nat -> P (ascii_of_nat n)) -> forall c, P c.
Proof.
  intros H c. rewrite <- (ascii_nat_embedding c).
  apply H, nat_ascii_bounded.
Qed.

Ltac by_ascii c :=
  revert c;
  match goal with |- forall c : ascii, @?P c => apply (ascii_cases P) end;
  intros n Hn;
  do 256 (destruct n as [|n]; [vm_compute; try reflexivity; try congruence; auto|]);
  exfalso; lia.

Lemma CharToLower_not_upper (c : ascii) : isupper (CharToLower c) = false.
Proof. by_ascii c. Qed.

Lemma CharToLower_idem (c : ascii) : CharToLower (CharToLower c) = CharToLower c.
Proof. by_ascii c. Qed.

Lemma CharToLower_upper (c : ascii) :
  isupper c = true -> islower (CharToLower c) = true.
Proof. by_ascii c. Qed.

Lemma CharToLower_other (c : ascii) : isupper c = false -> CharToLower c = c.
Proof. unfold CharToLower. now intros ->. Qed.

Lemma CharToLower_fixed (c : ascii) :
  Ascii.eqb (CharToLower c) c = negb (isupper c).
Proof. by_ascii c. Qed.

Lemma islower_not_upper (c : ascii) : islower c = true -> isupper c = false.
Proof. by_ascii c. Qed.

Lemma underscore_class (c : ascii) :
  Ascii.eqb c "_" = true -> islower c = false /\ isupper c = false.
Proof. intros H. apply Ascii.eqb_eq in H. subst c. split; reflexivity. Qed.

(** ** MakeSnakeCase: case of the output, and when it is idempotent *)

Fixpoint string_forallb (p : ascii -> bool) (s : string) : bool :=
  match s with
  | EmptyString => true
  | String c r => p c && string_forallb p r
  end.

(** A character that is neither a letter nor the underscore (a digit, a
    punctuation sign, a byte above 127). *)
Definition caseless (c : ascii) : bool :=
  negb (Ascii.eqb c "_") && negb (islower c) && negb (isupper c).

(** No caseless character directly follows an uppercase letter. *)
Fixpoint no_symbol_after_upper_from (prev : ascii) (rest : string) : bool :=
  match rest with
  | EmptyString => true
  | String c r =>
      negb (isupper prev && caseless c) && no_symbol_after_upper_from c r
  end.

Definition no_symbol_after_upper (s : string) : bool :=
  match s with
  | EmptyString => true
  | String c r => no_symbol_after_upper_from c r
  end.

(** [snake_piece a b] leaves [b] as it is. *)
Definition kept (a b : ascii) : bool :=
  Ascii.eqb b "_" || islower b || (negb (islower a) && negb (isupper b)).

Fixpoint kept_from (prev : ascii) (rest : string) : bool :=
  match rest with
  | EmptyString => true
  | String c r => kept prev c && kept_from c r
  end.

Lemma snake_piece_kept (a b : ascii) :
  kept a b = true -> snake_piece a b = String b "".
Proof.
  unfold kept, snake_piece. intros H.
  destruct (Ascii.eqb b "_") eqn:Eu.
  - apply Ascii.eqb_eq in Eu. now subst b.
  - destruct (islower b); simpl in *; [reflexivity|].
    apply andb_true_iff in H as [Ha Hb].
    apply negb_true_iff in Ha, Hb. rewrite Ha. simpl.
    now rewrite (CharToLower_other _ Hb).
Qed.

Lemma snake_piece_changed (a b : ascii) :
  kept a b = false ->
  (exists x, snake_piece a b = String x "" /\ x <> b) \/
  (exists x, snake_piece a b = String "_" (String x "") /\ b <> "_"%char).
Proof.
  unfold kept, snake_piece. intros H.
  destruct (Ascii.eqb b "_") eqn:Eu; [discriminate|].
  destruct (islower b) eqn:Elb; [discriminate|]. simpl in *.
  destruct (islower a) eqn:Ela; simpl in *.
  - right. eexists. split; [reflexivity|].
    intros ->. discriminate.
  - left. eexists. split; [reflexivity|].
    intros E. pose proof (CharToLower_fixed b) as F.
    rewrite E, Ascii.eqb_refl, H in F. discriminate.
Qed.

Lemma snake_tail_fixed (rest : string) (prev : ascii) :
  snake_tail prev rest = rest <-> kept_from prev rest = true.
Proof.
  revert prev. induction rest as [|c r IH]; intros prev; simpl.
  - tauto.
  - rewrite andb_true_iff, <- IH. split.
    + intros E. destruct (kept prev c) eqn:K.
      * rewrite (snake_piece_kept _ _ K) in E. simpl in E.
        injection E as E. auto.
      * destruct (snake_piece_changed _ _ K) as [[x [Hx Hn]]|[x [Hx Hn]]];
          rewrite Hx in E; simpl in E; injection E as E1 E2; congruence.
    + intros [K E]. rewrite (snake_piece_kept _ _ K). simpl. now f_equal.
Qed.

Lemma snake_fixed (s : string) :
  snake s = s <->
  match s with
  | EmptyString => True
  | String c r => isupper c = false /\ kept_from c r = true
  end.
Proof.
  destruct s as [|c r]; simpl; [tauto|].
  rewrite <- snake_tail_fixed. split.
  - intros E. injection E as E1 E2. split; [|exact E2].
    pose proof (CharToLower_fixed c) as F.
    rewrite E1, Ascii.eqb_refl in F. now destruct (isupper c).
  - intros [U E]. now rewrite (CharToLower_other _ U), E.
Qed.

(** The last character emitted for an input character [c] is always
    [CharToLower c]; what matters for the next pass is the pair it forms
    with what follows. *)
Lemma kept_from_snake_piece (prev c : ascii) (t : string) :
  kept_from (CharToLower prev) (snake_piece prev c ++ t)
  = negb (isupper prev && caseless c) && kept_from (CharToLower c) t.
Proof.
  unfold snake_piece, caseless.
  destruct (Ascii.eqb c "_") eqn:Eu.
  - apply Ascii.eqb_eq in Eu. subst c. simpl.
    now rewrite andb_false_r.
  - destruct (islower c) eqn:Elc; simpl.
    + unfold kept. rewrite Eu, Elc. simpl. rewrite andb_false_r. simpl.
      now rewrite (CharToLower_other c (islower_not_upper _ Elc)).
    + destruct (islower prev) eqn:Elp; simpl; unfold kept.
      * rewrite (islower_not_upper _ Elp).
        simpl. rewrite CharToLower_not_upper. simpl.
        now rewrite orb_true_r.
      * rewrite CharToLower_not_upper, andb_true_r.
        destruct (isupper prev) eqn:Eup.
        -- rewrite (CharToLower_upper _ Eup). simpl. rewrite orb_false_r.
           destruct (isupper c) eqn:Euc; simpl.
           ++ now rewrite (CharToLower_upper _ Euc), orb_true_r.
           ++ now rewrite (CharToLower_other _ Euc), Eu, Elc.
        -- rewrite (CharToLower_other _ Eup), Elp. simpl.
           now rewrite orb_true_r.
Qed.

Lemma kept_from_snake_tail (rest : string) (prev : ascii) :
  kept_from (CharToLower prev) (snake_tail prev rest)
  = no_symbol_after_upper_from prev rest.
Proof.
  revert prev. induction rest as [|c r IH]; intros prev; simpl.
  - reflexivity.
  - now rewrite kept_from_snake_piece, IH.
Qed.

Lemma string_forallb_append (p : ascii -> bool) (a b : string) :
  string_forallb p (a ++ b) = string_forallb p a && string_forallb p b.
Proof.
  induction a as [|c a IH]; simpl; [reflexivity|].
  now rewrite IH, andb_assoc.
Qed.

Lemma snake_piece_no_upper (prev c : ascii) :
  string_forallb (fun x => negb (isupper x)) (snake_piece prev c) = true.
Proof.
  unfold snake_piece.
  destruct (Ascii.eqb c "_"); [reflexivity|].
  destruct (islower c) eqn:E; simpl.
  - now rewrite (islower_not_upper _ E).
  - destruct (islower prev); simpl; now rewrite CharToLower_not_upper.
Qed.

Lemma snake_tail_no_upper (rest : string) (prev : ascii) :
  string_forallb (fun x => negb (isupper x)) (snake_tail prev rest) = true.
Proof.
  revert prev. induction rest as [|c r IH]; intros prev; simpl.
  - reflexivity.
  - now rewrite string_forallb_append, snake_piece_no_upper, IH.
Qed.

(** C10 (as stated): MakeSnakeCase is not idempotent on ["A1"]: the first
    pass gives ["a1"], the second ["a_1"]. *)
Lemma MakeSnakeCase_not_idempotent :
  MakeSnakeCase "A1" = "a1" /\
  MakeSnakeCase (MakeSnakeCase "A1") = "a_1" /\
  MakeSnakeCase (MakeSnakeCase "A1") <> MakeSnakeCase "A1".
Proof. repeat split. vm_compute. discriminate. Qed.

(** C10 (amended): the output of MakeSnakeCase never holds an uppercase
    letter, and a second pass leaves it unchanged exactly when, in the
    input, no character other than a letter or an underscore directly
    follows an uppercase letter. *)
Theorem MakeSnakeCase_idempotent_iff (s : string) :
  string_forallb (fun c => negb (isupper c)) (MakeSnakeCase s) = true /\
  (MakeSnakeCase (MakeSnakeCase s) = MakeSnakeCase s <->
   no_symbol_after_upper s = true).
Proof.
  rewrite !MakeSnakeCase_snake. destruct s as [|c r].
  - simpl. repeat split; reflexivity.
  - split.
    + simpl. now rewrite CharToLower_not_upper, snake_tail_no_upper.
    + rewrite snake_fixed. simpl snake. cbv iota.
      rewrite CharToLower_not_upper, kept_from_snake_tail. simpl. tauto.
Qed.

Lemma MakeSnakeCase_idempotent_iff_witness :
  no_symbol_after_upper "fooBar2_Baz" = true /\
  MakeSnakeCase (MakeSnakeCase "fooBar2_Baz") = MakeSnakeCase "fooBar2_Baz".
Proof.
  split; [reflexivity|].
  apply (proj2 (MakeSnakeCase_idempotent_iff "fooBar2_Baz")). reflexivity.
Defined.

(** ** The type classifier *)

(** The tag of a type that is not a vector, read off its shape: the base
    type and the definitions it refers to.  The cases exclude one another,
    so no order of checks is involved. *)
Definition element_tag (b : BaseType) (sd : option StructRef)
           (ed : option EnumDef) : option FullType :=
  match b with
  | BASE_TYPE_STRING => Some ftString
  | BASE_TYPE_STRUCT =>
      match sd with
      | Some s => Some (if fixed s then ftStruct else ftTable)
      | None => None
      end
  | BASE_TYPE_UNION =>
      match ed with
      | Some e => if is_union e then Some ftUnionValue else None
      | None => None
      end
  | BASE_TYPE_BOOL =>
      match ed with
      | Some e => Some (if is_union e then ftUnionKey else ftEnumKey)
      | None => Some ftBool
      end
  | BASE_TYPE_UTYPE | BASE_TYPE_CHAR | BASE_TYPE_UCHAR | BASE_TYPE_SHORT
  | BASE_TYPE_USHORT | BASE_TYPE_INT | BASE_TYPE_UINT | BASE_TYPE_LONG
  | BASE_TYPE_ULONG =>
      match ed with
      | Some e => Some (if is_union e then ftUnionKey else ftEnumKey)
      | None => Some ftInteger
      end
  | BASE_TYPE_FLOAT | BASE_TYPE_DOUBLE =>
      match ed with
      | Some _ => None
      | None => Some ftFloat
      end
  | BASE_TYPE_NONE | BASE_TYPE_VECTOR | BASE_TYPE_ARRAY => None
  end.

(** The tag of a vector, from the tag of its element. *)
Definition vector_of (ft : FullType) : Result FullType :=
  match ft with
  | ftInteger => Ok ftVectorOfInteger
  | ftFloat => Ok ftVectorOfFloat
  | ftBool => Ok ftVectorOfBool
  | ftStruct => Ok ftVectorOfStruct
  | ftTable => Ok ftVectorOfTable
  | ftString => Ok ftVectorOfString
  | ftEnumKey => Ok ftVectorOfEnumKey
  | ftUnionKey | ftUnionValue =>
      Abort (AssertionFailed "vectors of unions are unsupported")
  | _ => Abort (AssertionFailed "vector of vectors are unsupported")
  end.

Definition Result_to_option {A : Type} (r : Result A) : option A :=
  match r with
  | Ok a => Some a
  | Abort _ => None
  end.

(** The tag expected of a representable schema type: a string, a fixed
    struct, a table, a union key or value, a plain enum key, a bool, an
    integer, a float, or a vector of a supported element (not a union, not
    a vector). *)
Definition expected_tag (t : Type_) : option FullType :=
  match base_type t with
  | BASE_TYPE_VECTOR =>
      match element_tag (element t) (struct_def t) (enum_def t) with
      | Some ft => Result_to_option (vector_of ft)
      | None => None
      end
  | b => element_tag b (struct_def t) (enum_def t)
  end.

Definition representable (t : Type_) : bool :=
  match expected_tag t with
  | Some _ => true
  | None => false
  end.

(** A vector whose element is a union key, a union value or a vector. *)
Definition vector_of_union (t : Type_) : bool :=
  IsVector t &&
  match element_tag (element t) (struct_def t) (enum_def t) with
  | Some ftUnionKey | Some ftUnionValue => true
  | _ => false
  end.

Definition vector_of_vector (t : Type_) : bool :=
  IsVector t && BaseType_eqb (element t) BASE_TYPE_VECTOR.

Lemma GetFullType_not_vector (t : Type_) (ft : FullType) :
  IsVector t = false ->
  element_tag (base_type t) (struct_def t) (enum_def t) = Some ft ->
  GetFullType t = Ok ft.
Proof.
  intros Hv H. rewrite GetFullType_equation, Hv.
  destruct t as [b e sd ed]. simpl in *.
  destruct b; simpl in *; try discriminate;
    destruct sd as [s|]; destruct ed as [d|]; simpl in *;
    try discriminate;
    try (destruct (is_union d); simpl in *; try discriminate);
    try (destruct (fixed s)); congruence.
Qed.

Lemma GetFullType_vector (t : Type_) :
  IsVector t = true ->
  GetFullType t = (ft <- GetFullType (VectorType t) ;; vector_of ft).
Proof.
  intros Hv. rewrite GetFullType_equation, Hv.
  unfold IsVector, IsString in *.
  destruct (base_type t); try discriminate. simpl.
  destruct (GetFullType (VectorType t)) as [[]|]; reflexivity.
Qed.

Lemma GetFullType_expected (t : Type_) (ft : FullType) :
  expected_tag t = Some ft -> GetFullType t = Ok ft.
Proof.
  unfold expected_tag. intros H.
  destruct (IsVector t) eqn:Hv.
  - rewrite (GetFullType_vector _ Hv).
    unfold IsVector in Hv.
    destruct (base_type t) eqn:Hb; try discriminate.
    destruct (element_tag (element t) (struct_def t) (enum_def t))
      as [fe|] eqn:He; [|discriminate].
    rewrite (GetFullType_not_vector (VectorType t) fe).
    + simpl. destruct (vector_of fe); simpl in H; congruence.
    + unfold IsVector, VectorType. simpl.
      revert He. destruct (element t); cbn; congruence.
    + exact He.
  - apply GetFullType_not_vector; [exact Hv|].
    unfold IsVector in Hv. revert H Hv.
    destruct (base_type t); cbn; congruence.
Qed.

(** C1: on every representable schema type the classifier returns a tag,
    the one its shape calls for, and one only; and it decides in the order
    string, struct or table (by the fixed flag), vector (from the tag of the
    element), union key, union value or plain enum, scalar kind. *)
Theorem GetFullType_total_deterministic_priority (t : Type_) :
  representable t = true ->
  (exists ft, GetFullType t = Ok ft /\ expected_tag t = Some ft /\
              (FullType_value ft <= 16)%nat /\
              forall r, GetFullType t = r -> r = Ok ft) /\
  (IsString t = true -> GetFullType t = Ok ftString) /\
  (IsString t = false -> base_type t = BASE_TYPE_STRUCT ->
   forall sd, struct_def t = Some sd ->
   GetFullType t = Ok (if fixed sd then ftStruct else ftTable)) /\
  (IsString t = false -> base_type t <> BASE_TYPE_STRUCT ->
   IsVector t = true ->
   GetFullType t = (ft <- GetFullType (VectorType t) ;; vector_of ft)) /\
  (IsString t = false -> base_type t <> BASE_TYPE_STRUCT ->
   IsVector t = false ->
   forall ed, enum_def t = Some ed ->
   GetFullType t =
   if is_union ed then
     if BaseType_eqb (base_type t) BASE_TYPE_UNION then Ok ftUnionValue
     else if IsInteger (base_type t) then Ok ftUnionKey
     else Abort (AssertionFailed "unknown union field type")
   else Ok ftEnumKey) /\
  (IsString t = false -> base_type t <> BASE_TYPE_STRUCT ->
   IsVector t = false -> enum_def t = None ->
   IsScalar (base_type t) = true ->
   GetFullType t =
   if IsBool (base_type t) then Ok ftBool
   else if IsInteger (base_type t) then Ok ftInteger
   else Ok ftFloat).
Proof.
  intros Hr. unfold representable in Hr.
  destruct (expected_tag t) as [ft|] eqn:He; [clear Hr|discriminate].
  pose proof (GetFullType_expected _ _ He) as Hg.
  split; [|repeat split].
  - exists ft. repeat split; auto.
    + destruct ft; simpl; lia.
    + congruence.
  - intros Hs. now rewrite GetFullType_equation, Hs.
  - intros Hs Hb sd Hsd. rewrite GetFullType_equation, Hs, Hb, Hsd. simpl.
    now destruct (fixed sd).
  - intros _ _ Hv. now apply GetFullType_vector.
  - intros Hs Hb Hv ed Hed. rewrite GetFullType_equation, Hs, Hv, Hed.
    revert Hb. destruct (base_type t); cbn; congruence.
  - intros Hs Hb Hv Hed Hsc. rewrite GetFullType_equation, Hs, Hv, Hed, Hsc.
    revert Hb Hsc. destruct (base_type t); cbn; congruence.
Qed.

Lemma GetFullType_total_deterministic_priority_witness :
  let t := Build_Type BASE_TYPE_VECTOR BASE_TYPE_STRING None None in
  representable t = true /\
  exists ft, GetFullType t = Ok ft /\ expected_tag t = Some ft /\
             (FullType_value ft <= 16)%nat /\
             forall r, GetFullType t = r -> r = Ok ft.
Proof.
  split; [reflexivity|].
  apply (GetFullType_total_deterministic_priority
           (Build_Type BASE_TYPE_VECTOR BASE_TYPE_STRING None None)).
  reflexivity.
Defined.

Lemma vector_of_union_aborts (t : Type_) :
  vector_of_union t = true ->
  GetFullType t = Abort (AssertionFailed "vectors of unions are unsupported").
Proof.
  unfold vector_of_union. intros H. apply andb_true_iff in H as [Hv H].
  rewrite (GetFullType_vector _ Hv).
  destruct (element_tag (element t) (struct_def t) (enum_def t))
    as [fe|] eqn:He; [|discriminate].
  rewrite (GetFullType_not_vector (VectorType t) fe).
  - destruct fe; try discriminate; reflexivity.
  - unfold IsVector, VectorType. cbn.
    revert He. destruct (element t); cbn; congruence.
  - exact He.
Qed.

Lemma vector_of_vector_aborts (t : Type_) :
  vector_of_vector t = true ->
  GetFullType t = Abort (AssertionFailed "vector of vectors are unsupported") \/
  GetFullType t = Abort (AssertionFailed "unknown union field type") \/
  GetFullType t = Abort (AssertionFailed "completely unknown type").
Proof.
  unfold vector_of_vector. intros H. apply andb_true_iff in H as [Hv He].
  rewrite (GetFullType_vector _ Hv).
  destruct t as [b e sd ed]. unfold VectorType. cbn in *.
  destruct e; try discriminate.
  rewrite GetFullType_vector by reflexivity.
  unfold VectorType. cbn.
  rewrite GetFullType_equation. cbn.
  destruct ed as [d|]; cbn; [destruct (is_union d)|]; cbn; auto.
Qed.

(** ** Relative namespace references *)

(** Concatenation of a list of strings. *)
Definition join (l : list string) : string := fold_right append "" l.

(** [n] tokens for "the enclosing scope". *)
Fixpoint supers (n : nat) : string :=
  match n with
  | O => ""
  | S k => "super::" ++ supers k
  end.

(** The components of a path, case-normalized, each followed by ["::"]. *)
Definition snake_path (l : list string) : string :=
  join (map (fun d => MakeSnakeCase d ++ "::") l).

Fixpoint common_prefix_length (a b : list string) : nat :=
  match a, b with
  | x :: a', y :: b' =>
      if String.eqb x y then S (common_prefix_length a' b') else 0
  | _, _ => 0
  end.

(** [n] is the length of the longest common prefix of [a] and [b]. *)
Definition longest_common_prefix (n : nat) (a b : list string) : Prop :=
  firstn n a = firstn n b /\ (n <= List.length a)%nat /\
  (n <= List.length b)%nat /\
  forall x y, nth_error a n = Some x -> nth_error b n = Some y -> x <> y.

Lemma common_prefix_length_longest (a b : list string) :
  longest_common_prefix (common_prefix_length a b) a b.
Proof.
  revert b. induction a as [|x a IH]; intros [|y b]; simpl;
    try (repeat split; simpl; try lia; intros; discriminate).
  destruct (String.eqb x y) eqn:E.
  - apply String.eqb_eq in E. subst y.
    destruct (IH b) as (H1 & H2 & H3 & H4).
    repeat split; simpl; try lia; [now f_equal|exact H4].
  - apply String.eqb_neq in E.
    repeat split; simpl; try lia. intros ? ? [= <-] [= <-]. exact E.
Qed.

Lemma skip_common_skipn (a b : list string) :
  skip_common a b = (skipn (common_prefix_length a b) a,
                     skipn (common_prefix_length a b) b).
Proof.
  revert b. induction a as [|x a IH]; intros [|y b]; simpl; try reflexivity.
  destruct (String.eqb x y); [apply IH|reflexivity].
Qed.

Lemma fold_left_append {A : Type} (f : A -> string) (l : list A) (acc : string) :
  fold_left (fun stream x => stream ++ f x) l acc = acc ++ join (map f l).
Proof.
  revert acc. induction l as [|x l IH]; intros acc; simpl.
  - now rewrite append_nil_r.
  - now rewrite IH, append_assoc.
Qed.

Lemma join_const_supers {A : Type} (l : list A) :
  join (map (fun _ => "super::") l) = supers (List.length l).
Proof. induction l as [|x l IH]; simpl; [reflexivity|now rewrite IH]. Qed.

Lemma GetRelativeNamespaceTraversal_eq (src dst : Namespace) :
  let n := common_prefix_length (components src) (components dst) in
  GetRelativeNamespaceTraversal src dst =
  supers (List.length (components src) - n) ++
  snake_path (skipn n (components dst)).
Proof.
  unfold GetRelativeNamespaceTraversal, snake_path.
  rewrite skip_common_skipn.
  rewrite !fold_left_append. simpl.
  now rewrite join_const_supers, length_skipn.
Qed.

Lemma GetAbsoluteNamespaceTraversal_eq (dst : Namespace) :
  GetAbsoluteNamespaceTraversal dst = "::" ++ snake_path (components dst).
Proof.
  unfold GetAbsoluteNamespaceTraversal, snake_path.
  now rewrite fold_left_append.
Qed.

Lemma snake_path_skipn_length (n : nat) (l : list string) :
  (String.length (snake_path (skipn n l)) <= String.length (snake_path l))%nat.
Proof.
  revert n. induction l as [|x l IH]; intros [|n]; simpl; try lia.
  unfold snake_path in *. simpl. rewrite length_append.
  specialize (IH n). lia.
Qed.

(** The components of a path are identifiers: not empty, and not starting
    with a colon. *)
Definition identifier_like (d : string) : bool :=
  match d with
  | EmptyString => false
  | String c _ => negb (Ascii.eqb c ":")
  end.

Lemma CharToLower_colon (c : ascii) :
  Ascii.eqb ":" (CharToLower c) = Ascii.eqb ":" c.
Proof. by_ascii c. Qed.

Lemma starts_with_cons (a : ascii) (p : string) (b : ascii) (s : string) :
  starts_with (String a p) (String b s) = Ascii.eqb a b && starts_with p s.
Proof. reflexivity. Qed.

Lemma snake_path_no_colon (l : list string) :
  forallb identifier_like l = true -> starts_with "::" (snake_path l) = false.
Proof.
  destruct l as [|d l]; [reflexivity|].
  cbn [forallb]. intros H. apply andb_true_iff in H as [H _].
  destruct d as [|c r]; [discriminate|].
  cbn [identifier_like] in H.
  apply negb_true_iff in H. rewrite Ascii.eqb_sym in H.
  unfold snake_path. cbn [map join fold_right].
  rewrite MakeSnakeCase_snake. cbn [snake append].
  now rewrite starts_with_cons, CharToLower_colon, H.
Qed.

Lemma forallb_skipn {A : Type} (p : A -> bool) (n : nat) (l : list A) :
  forallb p l = true -> forallb p (skipn n l) = true.
Proof.
  revert n. induction l as [|x l IH]; intros [|n] H; simpl in *; auto.
  apply andb_true_iff in H as [_ H]. auto.
Qed.

(** C7: the relative reference from [src] to [dst] is one ["super::"] for
    each component of [src] beyond the longest common prefix with [dst],
    then the remaining components of [dst], case-normalized, in order.  It
    is never the absolute path of [dst], and (the components being
    identifiers) it never starts as an absolute path does.  From A.B.C,
    A.B.D is one level up then d, and D.E three levels up then d, e. *)
Theorem GetRelativeNamespaceTraversal_spec (src dst : Namespace) :
  (exists n,
      longest_common_prefix n (components src) (components dst) /\
      GetRelativeNamespaceTraversal src dst =
      supers (List.length (components src) - n) ++
      snake_path (skipn n (components dst))) /\
  GetRelativeNamespaceTraversal src dst <> GetAbsoluteNamespaceTraversal dst /\
  (forallb identifier_like (components dst) = true ->
   starts_with "::" (GetRelativeNamespaceTraversal src dst) = false) /\
  GetRelativeNamespaceTraversal {| components := ["A"; "B"; "C"] |}
                                {| components := ["A"; "B"; "D"] |}
  = "super::d::" /\
  GetRelativeNamespaceTraversal {| components := ["A"; "B"; "C"] |}
                                {| components := ["D"; "E"] |}
  = "super::super::super::d::e::".
Proof.
  pose proof (GetRelativeNamespaceTraversal_eq src dst) as E.
  set (n := common_prefix_length (components src) (components dst)) in *.
  cbv zeta in E.
  split; [|split; [|split; [|split; reflexivity]]].
  - exists n. split; [apply common_prefix_length_longest|exact E].
  - rewrite E, GetAbsoluteNamespaceTraversal_eq.
    destruct (List.length (components src) - n)%nat as [|k].
    + simpl. intros H. apply (f_equal String.length) in H. simpl in H.
      pose proof (snake_path_skipn_length n (components dst)). lia.
    + simpl. discriminate.
  - intros H. rewrite E.
    destruct (List.length (components src) - n)%nat as [|k].
    + simpl. apply snake_path_no_colon, forallb_skipn, H.
    + reflexivity.
Qed.

Lemma GetRelativeNamespaceTraversal_spec_witness :
  forallb identifier_like ["My"; "GameData"] = true /\
  starts_with "::"
    (GetRelativeNamespaceTraversal {| components := ["My"] |}
                                   {| components := ["My"; "GameData"] |})
  = false.
Proof.
  split; [reflexivity|].
  apply (GetRelativeNamespaceTraversal_spec
           {| components := ["My"] |} {| components := ["My"; "GameData"] |}).
  reflexivity.
Defined.

(** ** Namespace scopes *)

Definition components_of (ns : option Namespace) : list string :=
  match ns with
  | Some n => components n
  | None => []
  end.

(** The line that closes the scope of component [c], and the lines that
    open it. *)
Definition close_line (c : string) : string := "}  // pub mod " ++ c.

Definition open_lines (o : Options) (c : string) : list string :=
  "#[allow(unused_imports, dead_code)]"
  :: ("pub mod " ++ MakeSnakeCase c ++ " {")
  :: GenNamespaceImports o 2.

Definition blank_unless (b : bool) : list string := if b then [] else [""].

Lemma strings_eqb_eq (a b : list string) : strings_eqb a b = true <-> a = b.
Proof.
  revert b. induction a as [|x a IH]; intros [|y b]; simpl;
    try (split; congruence).
  rewrite andb_true_iff, String.eqb_eq, IH. split.
  - intros [-> ->]. reflexivity.
  - intros [= -> ->]. auto.
Qed.

Lemma Namespace_eqb_eq (a b : Namespace) : Namespace_eqb a b = true <-> a = b.
Proof.
  unfold Namespace_eqb. rewrite strings_eqb_eq.
  destruct a, b; simpl. split; congruence.
Qed.

Lemma Namespace_ptr_eqb_eq (a b : option Namespace) :
  Namespace_ptr_eqb a b = true <-> a = b.
Proof.
  destruct a, b; simpl; try (split; congruence).
  rewrite Namespace_eqb_eq. split; congruence.
Qed.

Lemma common_prefix_length_nil_r (a : list string) :
  common_prefix_length a [] = 0%nat.
Proof. destruct a; reflexivity. Qed.

Lemma common_prefix_length_refl (a : list string) :
  common_prefix_length a a = List.length a.
Proof.
  induction a as [|x a IH]; simpl; [reflexivity|].
  now rewrite String.eqb_refl, IH.
Qed.

Lemma common_prefix_length_sym (a b : list string) :
  common_prefix_length a b = common_prefix_length b a.
Proof.
  revert b. induction a as [|x a IH]; intros [|y b]; simpl; try reflexivity.
  rewrite (String.eqb_sym y x). destruct (String.eqb x y); auto.
Qed.

Lemma skipn_nth_cons (l : list string) (k : nat) :
  (k < List.length l)%nat -> skipn k l = nth k l "" :: skipn (S k) l.
Proof.
  revert k. induction l as [|x l IH]; intros [|k] H; simpl in *; try lia.
  - reflexivity.
  - apply IH. lia.
Qed.

Lemma common_prefix_loop_eq (cur ns : option Namespace) (fuel k : nat) :
  (components_size cur - k <= fuel)%nat ->
  common_prefix_loop fuel cur ns k =
  (k + common_prefix_length (skipn k (components_of cur))
                            (skipn k (components_of ns)))%nat.
Proof.
  assert (Hc : components_size cur = List.length (components_of cur))
    by (destruct cur; reflexivity).
  assert (Hn : components_size ns = List.length (components_of ns))
    by (destruct ns; reflexivity).
  assert (Hcc : forall i, component cur i = nth i (components_of cur) "")
    by (destruct cur; intros [|i]; reflexivity).
  assert (Hnc : forall i, component ns i = nth i (components_of ns) "")
    by (destruct ns; intros [|i]; reflexivity).
  revert k. induction fuel as [|fuel IH]; intros k Hk; simpl.
  - rewrite skipn_all2 by lia. simpl. lia.
  - rewrite Hcc, Hnc, Hc, Hn.
    destruct (k <? List.length (components_of cur))%nat eqn:E1; simpl.
    + apply Nat.ltb_lt in E1.
      destruct (k <? List.length (components_of ns))%nat eqn:E2; simpl.
      * apply Nat.ltb_lt in E2.
        rewrite (skipn_nth_cons (components_of cur) k E1).
        rewrite (skipn_nth_cons (components_of ns) k E2).
        cbn [common_prefix_length].
        rewrite (String.eqb_sym (nth k (components_of cur) "")).
        destruct (String.eqb (nth k (components_of ns) "")
                             (nth k (components_of cur) "")).
        -- rewrite IH by lia. lia.
        -- lia.
      * apply Nat.ltb_ge in E2.
        rewrite (skipn_all2 (components_of ns)) by lia.
        rewrite common_prefix_length_nil_r. lia.
    + apply Nat.ltb_ge in E1.
      rewrite (skipn_all2 (components_of cur)) by lia. simpl. lia.
Qed.

Lemma map_nth_seq (l : list string) (k : nat) :
  map (fun j => nth j l "") (seq k (List.length l - k)) = skipn k l.
Proof.
  revert k. induction l as [|x l IH]; intros k; simpl.
  - now destruct k.
  - destruct k as [|k]; simpl.
    + f_equal. specialize (IH 0%nat). rewrite Nat.sub_0_r in IH.
      rewrite <- seq_shift, map_map. exact IH.
    + rewrite <- (IH k), <- seq_shift, map_map. reflexivity.
Qed.

Lemma SetNameSpace_closes (cur : option Namespace) (n : nat) :
  map (fun j => "}  // pub mod " ++ component cur (j - 1))
      (rev (seq (S n) (components_size cur - n)))
  = map close_line (rev (skipn n (components_of cur))).
Proof.
  rewrite <- (map_nth_seq (components_of cur) n), <- !map_rev, !map_map.
  replace (components_size cur) with (List.length (components_of cur))
    by (destruct cur; reflexivity).
  rewrite <- seq_shift, <- map_rev, map_map.
  apply map_ext. intros j. simpl. rewrite Nat.sub_0_r.
  destruct cur; [reflexivity|destruct j; reflexivity].
Qed.

Lemma SetNameSpace_opens (o : Options) (ns : option Namespace) (n : nat) :
  flat_map (fun j =>
              "#[allow(unused_imports, dead_code)]"
              :: ("pub mod " ++ MakeSnakeCase (component ns j) ++ " {")
              :: GenNamespaceImports o 2)
           (seq n (components_size ns - n))
  = flat_map (open_lines o) (skipn n (components_of ns)).
Proof.
  rewrite <- (map_nth_seq (components_of ns) n).
  replace (components_size ns) with (List.length (components_of ns))
    by (destruct ns; reflexivity).
  rewrite !flat_map_concat_map, map_map. f_equal.
  apply map_ext. intros j. unfold open_lines.
  destruct ns; [reflexivity|destruct j; reflexivity].
Qed.

(** What [SetNameSpace] appends when the open path is [old] and the target
    is [new]. *)
Definition scope_transition (o : Options) (old new : list string)
  : list string :=
  let n := common_prefix_length old new in
  List.concat
    [ map close_line (rev (skipn n old));
      blank_unless (List.length old =? n)%nat;
      flat_map (open_lines o) (skipn n new);
      blank_unless (List.length new =? n)%nat ].

Lemma scope_transition_same (o : Options) (l : list string) :
  scope_transition o l l = [].
Proof.
  unfold scope_transition. rewrite common_prefix_length_refl.
  rewrite skipn_all, Nat.eqb_refl. reflexivity.
Qed.

Lemma SetNameSpace_eq (o : Options) (ns : option Namespace) (g : Generator) :
  SetNameSpace o ns g =
  {| code_ := (code_ g ++
               scope_transition o (components_of (cur_name_space_ g))
                                (components_of ns))%list;
     cur_name_space_ := ns |}.
Proof.
  unfold SetNameSpace.
  destruct (Namespace_ptr_eqb (cur_name_space_ g) ns) eqn:E.
  - apply Namespace_ptr_eqb_eq in E. subst ns.
    rewrite scope_transition_same, app_nil_r. now destruct g.
  - f_equal. rewrite common_prefix_loop_eq by lia.
    rewrite !skipn_O, Nat.add_0_l.
    set (n := common_prefix_length _ _).
    rewrite SetNameSpace_closes, SetNameSpace_opens.
    unfold scope_transition. fold n.
    replace (components_size (cur_name_space_ g))
      with (List.length (components_of (cur_name_space_ g)))
      by (destruct (cur_name_space_ g); reflexivity).
    replace (components_size ns) with (List.length (components_of ns))
      by (destruct ns; reflexivity).
    simpl. rewrite !app_nil_r. reflexivity.
Qed.

(** *** Reading the scopes back from the output *)

Fixpoint drop (n : nat) (s : string) : string :=
  match n, s with
  | O, _ => s
  | S k, String _ r => drop k r
  | S _, EmptyString => ""
  end.

(** A line that opens a module, or the closing line of one, with the text
    that follows the fixed part. *)
Inductive scope_event : Type :=
| OpenScope (text : string)
| CloseScope (text : string).

Definition scope_event_of (line : string) : option scope_event :=
  if starts_with "pub mod " line then Some (OpenScope (drop 8 line))
  else if starts_with "}  // pub mod " line then Some (CloseScope (drop 14 line))
  else None.

(** The text after ["pub mod "] on the line that opens component [c]. *)
Definition open_text (c : string) : string := MakeSnakeCase c ++ " {".

(** Run the lines against the stack of open scopes (innermost first): an
    opening line pushes; a closing line must name the innermost open scope,
    and pops it. *)
Fixpoint run_scopes (stack : list string) (lines : list string)
  : option (list string) :=
  match lines with
  | [] => Some stack
  | l :: ls =>
      match scope_event_of l with
      | None => run_scopes stack ls
      | Some (OpenScope t) => run_scopes (t :: stack) ls
      | Some (CloseScope c) =>
          match stack with
          | top :: stack' =>
              if String.eqb top (open_text c) then run_scopes stack' ls
              else None
          | [] => None
          end
      end
  end.

(** The stack when the path [l] is open. *)
Definition open_stack (l : list string) : list string :=
  rev (map open_text l).

Definition quiet (lines : list string) : Prop :=
  Forall (fun l => scope_event_of l = None) lines.

Lemma run_scopes_app (a b : list string) (st : list string) :
  run_scopes st (a ++ b) =
  match run_scopes st a with
  | Some st' => run_scopes st' b
  | None => None
  end.
Proof.
  revert st. induction a as [|l a IH]; intros st; simpl; [reflexivity|].
  destruct (scope_event_of l) as [[t|c]|]; auto.
  destruct st as [|top st]; [reflexivity|].
  destruct (String.eqb top (open_text c)); auto.
Qed.

Lemma run_scopes_quiet (lines st : list string) :
  quiet lines -> run_scopes st lines = Some st.
Proof.
  induction 1 as [|l ls Hl _ IH]; simpl; [reflexivity|]. now rewrite Hl.
Qed.

Lemma quiet_app (a b : list string) : quiet a -> quiet b -> quiet (a ++ b).
Proof. intros. apply Forall_app. auto. Qed.

Lemma scope_event_of_other (c : ascii) (r : string) :
  Ascii.eqb "p" c = false -> Ascii.eqb "}" c = false ->
  scope_event_of (String c r) = None.
Proof.
  intros H1 H2. unfold scope_event_of.
  rewrite !starts_with_cons, H1, H2. reflexivity.
Qed.

Lemma quiet_GenNamespaceImports (o : Options) (n : nat) :
  quiet (GenNamespaceImports o n).
Proof.
  assert (S : forall s, scope_event_of (spaces n ++ String "u" s) = None).
  { intros s. destruct n; simpl; now apply scope_event_of_other. }
  assert (E : forall s, scope_event_of (spaces n ++ String "e" s) = None).
  { intros s. destruct n; simpl; now apply scope_event_of_other. }
  unfold GenNamespaceImports. cbn [List.concat]. rewrite app_nil_r.
  repeat apply quiet_app.
  - destruct (n =? 0)%nat; repeat constructor.
  - repeat constructor.
  - destruct (generate_all o); simpl; [constructor|].
    apply Forall_map, Forall_forall. intros b _.
    destruct (String.eqb (include_prefix o) ""); apply S.
  - repeat constructor; try apply S; apply E.
Qed.

Lemma run_scopes_closes (r st : list string) :
  run_scopes (map open_text r ++ st) (map close_line r) = Some st.
Proof.
  induction r as [|c r IH]; simpl; [reflexivity|].
  now rewrite String.eqb_refl.
Qed.

Lemma run_scopes_open_lines (o : Options) (c : string) (st : list string) :
  run_scopes st (open_lines o c) = Some (open_text c :: st).
Proof.
  unfold open_lines. cbn -[GenNamespaceImports MakeSnakeCase].
  apply run_scopes_quiet, quiet_GenNamespaceImports.
Qed.

Lemma run_scopes_opens (o : Options) (l st : list string) :
  run_scopes st (flat_map (open_lines o) l)
  = Some (rev (map open_text l) ++ st)%list.
Proof.
  revert st. induction l as [|c l IH]; intros st; [reflexivity|].
  cbn [flat_map map rev].
  rewrite run_scopes_app, run_scopes_open_lines, IH, <- app_assoc.
  reflexivity.
Qed.

Lemma quiet_blank_unless (b : bool) : quiet (blank_unless b).
Proof. destruct b; repeat constructor. Qed.

Lemma run_scopes_transition (o : Options) (old new : list string) :
  run_scopes (open_stack old) (scope_transition o old new)
  = Some (open_stack new).
Proof.
  unfold scope_transition, open_stack.
  destruct (common_prefix_length_longest old new) as (Hp & _).
  set (n := common_prefix_length old new) in *.
  cbn [List.concat]. rewrite app_nil_r.
  replace (rev (map open_text old))
    with (map open_text (rev (skipn n old))
          ++ rev (map open_text (firstn n old)))%list.
  2:{ rewrite map_rev, <- rev_app_distr, <- map_app, firstn_skipn.
      reflexivity. }
  rewrite run_scopes_app, run_scopes_closes.
  rewrite run_scopes_app, (run_scopes_quiet _ _ (quiet_blank_unless _)).
  rewrite run_scopes_app, run_scopes_opens.
  rewrite (run_scopes_quiet _ _ (quiet_blank_unless _)).
  rewrite Hp, <- rev_app_distr, <- map_app, firstn_skipn. reflexivity.
Qed.

(** The scopes read back from the output are the open path. *)
Definition scopes_follow (g : Generator) : Prop :=
  run_scopes [] (code_ g)
  = Some (open_stack (components_of (cur_name_space_ g))).

Lemma scopes_follow_SetNameSpace (o : Options) (ns : option Namespace)
      (g : Generator) :
  scopes_follow g -> scopes_follow (SetNameSpace o ns g).
Proof.
  unfold scopes_follow. intros H. rewrite SetNameSpace_eq. simpl.
  rewrite run_scopes_app, H. apply run_scopes_transition.
Qed.

Lemma scopes_follow_emit (lines : list string) (g : Generator) :
  quiet lines -> scopes_follow g -> scopes_follow (emit lines g).
Proof.
  unfold scopes_follow, emit. simpl. intros Hq H.
  now rewrite run_scopes_app, H, run_scopes_quiet.
Qed.

(** The emitters write no line that opens or closes a module. *)
Definition emitters_quiet (em : Emitters) : Prop :=
  (forall cur d lines, emit_enum em cur d = Ok lines -> quiet lines) /\
  (forall cur d lines, emit_struct em cur d = Ok lines -> quiet lines) /\
  (forall cur d lines, emit_table em cur d = Ok lines -> quiet lines) /\
  (forall cur d lines, emit_root em cur d = Ok lines -> quiet lines).

(** The emitters do not abort. *)
Definition emitters_total (em : Emitters) : Prop :=
  (forall cur d, exists lines, emit_enum em cur d = Ok lines) /\
  (forall cur d, exists lines, emit_struct em cur d = Ok lines) /\
  (forall cur d, exists lines, emit_table em cur d = Ok lines) /\
  (forall cur d, exists lines, emit_root em cur d = Ok lines).

Section Driver.
Variable o : Options.
Variable P : Generator -> Prop.
Hypothesis P_SetNameSpace : forall ns g, P g -> P (SetNameSpace o ns g).
Hypothesis P_emit : forall lines g, quiet lines -> P g -> P (emit lines g).

Lemma generate_def_preserves ns def_ns wanted body g g' :
  (forall cur lines, body cur = Ok lines -> quiet lines) ->
  P g -> generate_def o ns def_ns wanted body g = Ok g' -> P g'.
Proof.
  unfold generate_def. intros Hb Hg.
  destruct (negb (Namespace_eqb def_ns ns)); [congruence|].
  destruct wanted; [|congruence].
  destruct (body def_ns) as [lines|e] eqn:E; simpl; [|discriminate].
  intros [= <-]. apply P_emit; [eapply Hb, E|]. now apply P_SetNameSpace.
Qed.

Lemma foldM_preserves {A : Type} (f : A -> Generator -> Result Generator)
      (l : list A) :
  (forall a g g', P g -> f a g = Ok g' -> P g') ->
  forall g g', P g -> foldM f l g = Ok g' -> P g'.
Proof.
  intros Hf. induction l as [|a l IH]; intros g g' Hg; simpl.
  - congruence.
  - destruct (f a g) as [g1|e] eqn:E; simpl; [|discriminate].
    apply IH. eapply Hf; eauto.
Qed.

Lemma generate_def_total ns def_ns wanted body g :
  (forall cur, exists lines, body cur = Ok lines) ->
  exists g', generate_def o ns def_ns wanted body g = Ok g'.
Proof.
  unfold generate_def. intros Hb.
  destruct (negb (Namespace_eqb def_ns ns)); [eauto|].
  destruct wanted; [|eauto].
  destruct (Hb def_ns) as [lines ->]. simpl. eauto.
Qed.

Lemma foldM_total {A S : Type} (f : A -> S -> Result S) (l : list A) :
  (forall a s, exists s', f a s = Ok s') ->
  forall s, exists s', foldM f l s = Ok s'.
Proof.
  intros Hf. induction l as [|a l IH]; intros s; simpl; [eauto|].
  destruct (Hf a s) as [s1 ->]. simpl. apply IH.
Qed.
End Driver.

Lemma generate_namespace_preserves (p : Parser) (em : Emitters)
      (P : Generator -> Prop) :
  (forall ns g, P g -> P (SetNameSpace (opts p) ns g)) ->
  (forall lines g, quiet lines -> P g -> P (emit lines g)) ->
  emitters_quiet em ->
  forall ns g g', P g -> generate_namespace p em ns g = Ok g' -> P g'.
Proof.
  intros HS HE (Q1 & Q2 & Q3 & Q4) ns g g' Hg.
  unfold generate_namespace.
  destruct (foldM _ (enums_ p) g) as [g1|] eqn:E1; simpl; [|discriminate].
  destruct (foldM _ (structs_ p) g1) as [g2|] eqn:E2; simpl; [|discriminate].
  destruct (foldM _ (structs_ p) g2) as [g3|] eqn:E3; simpl; [|discriminate].
  assert (P1 : P g1).
  { eapply (foldM_preserves P) in E1; eauto. intros a h h' Hh.
    apply (generate_def_preserves (opts p) P HS HE); eauto. }
  assert (P2 : P g2).
  { eapply (foldM_preserves P) in E2; eauto. intros a h h' Hh.
    apply (generate_def_preserves (opts p) P HS HE); eauto. }
  assert (P3 : P g3).
  { eapply (foldM_preserves P) in E3; eauto. intros a h h' Hh.
    apply (generate_def_preserves (opts p) P HS HE); eauto. }
  destruct (root_struct_def_ p) as [sd|]; [|congruence].
  apply (generate_def_preserves (opts p) P HS HE); eauto.
Qed.

Lemma generate_namespace_total (p : Parser) (em : Emitters) :
  emitters_total em ->
  forall ns g, exists g', generate_namespace p em ns g = Ok g'.
Proof.
  intros (T1 & T2 & T3 & T4) ns g. unfold generate_namespace.
  destruct (foldM_total (fun enum_def =>
              generate_def (opts p) ns (ed_defined_namespace enum_def)
                           (negb (ed_generated enum_def))
                           (fun cur => emit_enum em cur enum_def))
            (enums_ p)) with (s := g) as [g1 ->].
  { intros a s. apply generate_def_total. intros cur. apply T1. }
  simpl.
  destruct (foldM_total (fun struct_def =>
              generate_def (opts p) ns (sd_defined_namespace struct_def)
                           (sd_fixed struct_def &&
                            negb (sd_generated struct_def))
                           (fun cur => emit_struct em cur struct_def))
            (structs_ p)) with (s := g1) as [g2 ->].
  { intros a s. apply generate_def_total. intros cur. apply T2. }
  simpl.
  destruct (foldM_total (fun struct_def =>
              generate_def (opts p) ns (sd_defined_namespace struct_def)
                           (negb (sd_fixed struct_def) &&
                            negb (sd_generated struct_def))
                           (fun cur => emit_table em cur struct_def))
            (structs_ p)) with (s := g2) as [g3 ->].
  { intros a s. apply generate_def_total. intros cur. apply T3. }
  simpl.
  destruct (root_struct_def_ p) as [sd|]; [|eauto].
  apply generate_def_total. intros cur. apply T4.
Qed.

Lemma generate_scopes (p : Parser) (em : Emitters) (g : Generator) :
  emitters_quiet em ->
  generate p em = Ok g ->
  cur_name_space_ g = None /\ run_scopes [] (code_ g) = Some [].
Proof.
  intros Hq. unfold generate.
  destruct (foldM _ (namespaces_ p) _) as [g1|] eqn:E; simpl; [|discriminate].
  intros [= <-].
  assert (H1 : scopes_follow g1).
  { eapply (foldM_preserves scopes_follow) in E; eauto.
    - intros ns h h' Hh.
      apply (generate_namespace_preserves p em scopes_follow); auto.
      + intros. now apply scopes_follow_SetNameSpace.
      + intros. now apply scopes_follow_emit.
    - apply scopes_follow_emit; [repeat constructor|].
      apply scopes_follow_emit; [apply quiet_GenNamespaceImports|].
      apply scopes_follow_emit; [|reflexivity].
      repeat constructor. }
  destruct (cur_name_space_ g1) as [n|] eqn:C.
  - split; [now rewrite SetNameSpace_eq|].
    apply (scopes_follow_SetNameSpace (opts p) None) in H1.
    unfold scopes_follow in H1. now rewrite SetNameSpace_eq in *.
  - split; [exact C|]. unfold scopes_follow in H1. now rewrite C in H1.
Qed.

Lemma generate_total (p : Parser) (em : Emitters) :
  emitters_total em -> exists g, generate p em = Ok g.
Proof.
  intros Ht. unfold generate.
  destruct (foldM_total (generate_namespace p em) (namespaces_ p)
                        (generate_namespace_total p em Ht))
    with (s := emit [""]
                 (emit (GenNamespaceImports (opts p) 0)
                    (emit ["// " ++ FlatBuffersGeneratedWarning ++ nl ++ nl]
                       {| code_ := []; cur_name_space_ := None |})))
    as [g1 ->].
  simpl. eauto.
Qed.

(** C8: every [SetNameSpace] appends, for the longest common prefix of
    length [n] of the open path and the target, one closing line for each
    level of the open path beyond [n] (innermost first), then the opening
    lines (with the local imports) of each level of the target beyond [n]
    (outermost first), and makes the target the open path.  At the end of
    [generate] the open path is the root again, and the module lines of the
    whole output nest: each closing line closes the innermost open module,
    and no module is left open. *)
Theorem SetNameSpace_scopes_nest (p : Parser) (em : Emitters) :
  (forall ns g,
      let old := components_of (cur_name_space_ g) in
      let new := components_of ns in
      let n := common_prefix_length old new in
      longest_common_prefix n old new /\
      SetNameSpace (opts p) ns g =
      {| code_ := List.concat
                    [ code_ g;
                      map close_line (rev (skipn n old));
                      blank_unless (List.length old =? n)%nat;
                      flat_map (open_lines (opts p)) (skipn n new);
                      blank_unless (List.length new =? n)%nat ];
         cur_name_space_ := ns |}) /\
  (emitters_quiet em ->
   forall g, generate p em = Ok g ->
             cur_name_space_ g = None /\ run_scopes [] (code_ g) = Some []) /\
  (emitters_total em -> exists g, generate p em = Ok g).
Proof.
  split; [|split].
  - intros ns g old new n. split.
    + apply common_prefix_length_longest.
    + rewrite SetNameSpace_eq. reflexivity.
  - intros Hq g Hg. now apply (generate_scopes p em).
  - apply generate_total.
Qed.

(** A schema with an enum in A.B, a table in A.C, and emitters that write
    one comment line each. *)
Definition example_parser : Parser :=
  {| namespaces_ := [ {| components := ["A"; "B"] |};
                      {| components := ["A"; "C"] |} ];
     enums_ := [ Build_EnumDef "Color" {| components := ["A"; "B"] |}
                               false false [] ];
     structs_ := [ {| sd_ref := {| sr_name := "Monster";
                                   sr_defined_namespace :=
                                     {| components := ["A"; "C"] |};
                                   fixed := false; bytesize := 0 |};
                      fields := []; sortbysize := true; minalign := 1;
                      sd_doc_comment := []; sd_generated := false |} ];
     root_struct_def_ := None;
     opts := {| generate_all := true; generate_name_strings := false;
                include_prefix := "";
                filename_suffix := "_generated";
                included_basenames := [] |} |}.

Definition example_emitters : Emitters :=
  {| emit_enum := fun _ _ => Ok ["// enum"];
     emit_struct := fun _ _ => Ok ["// struct"];
     emit_table := fun _ _ => Ok ["// table"];
     emit_root := fun _ _ => Ok ["// root"] |}.

Lemma SetNameSpace_scopes_nest_witness :
  emitters_quiet example_emitters /\ emitters_total example_emitters /\
  exists g, generate example_parser example_emitters = Ok g /\
            cur_name_space_ g = None /\ run_scopes [] (code_ g) = Some [].
Proof.
  assert (Q : emitters_quiet example_emitters).
  { repeat split; intros cur d lines [= <-]; repeat constructor. }
  assert (T : emitters_total example_emitters).
  { repeat split; intros cur d; eexists; reflexivity. }
  split; [exact Q|]. split; [exact T|].
  destruct (SetNameSpace_scopes_nest example_parser example_emitters)
    as (_ & Hs & Ht).
  destruct (Ht T) as [g Hg]. exists g. split; [exact Hg|].
  exact (Hs Q g Hg).
Defined.

(** ** Walking the fields of a table *)

Definition is_Ok {A : Type} (r : Result A) : bool :=
  match r with
  | Ok _ => true
  | Abort _ => false
  end.

(** The fields that are not deprecated. *)
Definition live_fields (l : list FieldDef) : list FieldDef :=
  filter (fun f => negb (deprecated f)) l.

(** The default value of every field that is not deprecated can be
    computed: its type classifies, and the default of an enum field is one
    of the declared values. *)
Definition defaults_ok (cur : Namespace) (struct_def : StructDef) : bool :=
  forallb (fun f => is_Ok (GetDefaultScalarValue cur f))
          (live_fields (fields struct_def)).

Definition field_values (field : FieldDef) (default_value : string)
  : TableFieldValues :=
  {| OFFSET_NAME := GetFieldOffsetName field;
     OFFSET_VALUE := NumToString (offset (value field));
     FIELD_NAME := Name_field field;
     DEFAULT_VALUE := default_value |}.

Lemma mapM_ok {A B : Type} (f : A -> Result B) (g : A -> B) (l : list A) :
  (forall a, In a l -> f a = Ok (g a)) -> mapM f l = Ok (map g l).
Proof.
  induction l as [|a l IH]; intros H; simpl; [reflexivity|].
  rewrite (H a (or_introl eq_refl)). simpl.
  rewrite IH by (intros; apply H; now right). reflexivity.
Qed.

Lemma mapM_abort {A B : Type} (f : A -> Result B) (l : list A) (a : A) :
  In a l -> is_Ok (f a) = false -> is_Ok (mapM f l) = false.
Proof.
  induction l as [|x l IH]; intros Hin Ha; simpl; [contradiction|].
  destruct (f x) as [b|e] eqn:E; simpl; [|reflexivity].
  destruct Hin as [->|Hin]; [rewrite E in Ha; discriminate|].
  specialize (IH Hin Ha). destruct (mapM f l); [discriminate|reflexivity].
Qed.

Lemma concat_map_live {B : Type} (h : FieldDef -> list B) (l : list FieldDef) :
  List.concat (map (fun f => if deprecated f then [] else h f) l)
  = flat_map h (live_fields l).
Proof.
  induction l as [|f l IH]; simpl; [reflexivity|].
  destruct (deprecated f); simpl; now rewrite IH.
Qed.

Lemma live_fields_rev (l : list FieldDef) :
  live_fields (rev l) = rev (live_fields l).
Proof.
  unfold live_fields. induction l as [|f l IH]; simpl; [reflexivity|].
  rewrite filter_app, IH. simpl.
  destruct (deprecated f); simpl; [now rewrite app_nil_r|reflexivity].
Qed.

(** When the defaults can be computed and the callback yields [h field] on
    every live field, the traversal yields the [h field] of the live
    fields, in declaration order or in reverse. *)
Lemma ForAllTableFields_ok (cur : Namespace) (struct_def : StructDef)
      (cb : FieldDef -> TableFieldValues -> Result (list string))
      (h : FieldDef -> list string) (reversed : bool) :
  defaults_ok cur struct_def = true ->
  (forall f dv, In f (fields struct_def) -> deprecated f = false ->
                GetDefaultScalarValue cur f = Ok dv ->
                cb f (field_values f dv) = Ok (h f)) ->
  ForAllTableFields cur struct_def cb reversed =
  Ok (flat_map h (let l := live_fields (fields struct_def) in
                  if reversed then rev l else l)).
Proof.
  intros Hd Hcb. unfold ForAllTableFields.
  set (l := if reversed then rev (fields struct_def) else fields struct_def).
  assert (Hl : forall f, In f l -> In f (fields struct_def)).
  { intros f. unfold l. destruct reversed; [rewrite <- in_rev|]; auto. }
  rewrite (mapM_ok _ (fun f => if deprecated f then [] else h f)).
  - simpl. rewrite concat_map_live. unfold l.
    destruct reversed; [rewrite live_fields_rev|]; reflexivity.
  - intros f Hf. destruct (deprecated f) eqn:D; [reflexivity|].
    unfold defaults_ok in Hd. rewrite forallb_forall in Hd.
    assert (Hin : In f (live_fields (fields struct_def))).
    { apply filter_In. split; [auto|now rewrite D]. }
    specialize (Hd f Hin).
    destruct (GetDefaultScalarValue cur f) as [dv|] eqn:E; [|discriminate].
    simpl. apply Hcb; auto.
Qed.

(** A live field whose default cannot be computed stops every traversal,
    whatever the callback. *)
Lemma ForAllTableFields_abort (cur : Namespace) (struct_def : StructDef)
      (cb : FieldDef -> TableFieldValues -> Result (list string))
      (reversed : bool) (f : FieldDef) :
  In f (fields struct_def) -> deprecated f = false ->
  is_Ok (GetDefaultScalarValue cur f) = false ->
  is_Ok (ForAllTableFields cur struct_def cb reversed) = false.
Proof.
  intros Hin Hd Ha. unfold ForAllTableFields.
  match goal with
  | |- is_Ok (bind (mapM ?go ?l) _) = false =>
      assert (H : is_Ok (mapM go l) = false)
  end.
  { apply (mapM_abort _ _ f).
    - destruct reversed; [rewrite <- in_rev|]; exact Hin.
    - rewrite Hd. destruct (GetDefaultScalarValue cur f); [discriminate|].
      reflexivity. }
  destruct (mapM _ _); [discriminate|reflexivity].
Qed.

Lemma GetDefaultScalarValue_classifies (cur : Namespace) (f : FieldDef) :
  is_Ok (GetDefaultScalarValue cur f) = true ->
  is_Ok (GetFullType (type (value f))) = true.
Proof.
  unfold GetDefaultScalarValue.
  destruct (GetFullType (type (value f))); [reflexivity|discriminate].
Qed.

(** ** The create function: the order of the add-operations *)

(** Whether the accessor of a field returns an option (the type of the
    field classifies). *)
Definition returns_option (field : FieldDef) : bool :=
  match TableFieldReturnsOption field with
  | Ok b => b
  | Abort _ => true
  end.

(** The add-operation of one field in the create function. *)
Definition create_add_line (field : FieldDef) : string :=
  if returns_option field then
    "      if let Some(x) = args." ++ Name_field field ++ " " ++
    "{ builder.add_" ++ Name_field field ++ "(x); }"
  else
    "      builder.add_" ++ Name_field field ++
    "(args." ++ Name_field field ++ ");".

Definition field_size (field : FieldDef) : nat :=
  SizeOf (base_type (type (value field))).

(** The order in which the create function adds the fields: by size class
    from 8 bytes down to 1 when the table is packed by size, each class in
    reverse declaration order; else all fields in reverse declaration
    order. *)
Definition add_order (struct_def : StructDef) : list FieldDef :=
  let l := rev (live_fields (fields struct_def)) in
  if sortbysize struct_def then
    flat_map (fun size => filter (fun f => (field_size f =? size)%nat) l)
             [8; 4; 2; 1]%nat
  else l.

Lemma TableFieldReturnsOption_ok (cur : Namespace) (f : FieldDef) :
  is_Ok (GetDefaultScalarValue cur f) = true ->
  TableFieldReturnsOption f = Ok (returns_option f).
Proof.
  intros H. apply GetDefaultScalarValue_classifies in H.
  unfold returns_option, TableFieldReturnsOption.
  destruct (optional f); [reflexivity|].
  destruct (GetFullType (type (value f))) as [[]|]; try discriminate;
    reflexivity.
Qed.

Lemma flat_map_if_filter {A B : Type} (p : A -> bool) (g : A -> B)
      (l : list A) :
  flat_map (fun a => if p a then [g a] else []) l = map g (filter p l).
Proof.
  induction l as [|a l IH]; simpl; [reflexivity|].
  destruct (p a); simpl; now rewrite IH.
Qed.

Lemma GenTable_create_pass (cur : Namespace) (struct_def : StructDef)
      (size : nat) :
  defaults_ok cur struct_def = true ->
  ForAllTableFields cur struct_def
    (GenTable_create_field struct_def size) true
  = Ok (map create_add_line
            (filter (fun f => negb (sortbysize struct_def) ||
                              (field_size f =? size)%nat)
                    (rev (live_fields (fields struct_def))))).
Proof.
  intros Hd.
  rewrite (ForAllTableFields_ok cur struct_def _
             (fun f => if negb (sortbysize struct_def) ||
                          (field_size f =? size)%nat
                       then [create_add_line f] else [])); auto.
  - now rewrite flat_map_if_filter.
  - intros f dv Hin Hdep Hdv. unfold GenTable_create_field, field_size.
    destruct (sortbysize struct_def); simpl;
      [destruct (size =? _)%nat eqn:E; rewrite (Nat.eqb_sym _ size), E;
       simpl; [|reflexivity]|];
      rewrite (TableFieldReturnsOption_ok cur f) by (now rewrite Hdv);
      simpl; unfold create_add_line; destruct (returns_option f);
      reflexivity.
Qed.

Lemma filter_true {A : Type} (l : list A) : filter (fun _ => true) l = l.
Proof. induction l; simpl; congruence. Qed.

Lemma GenTable_create_adds_order (cur : Namespace) (struct_def : StructDef) :
  defaults_ok cur struct_def = true ->
  GenTable_create_adds cur struct_def
  = Ok (map create_add_line (add_order struct_def)).
Proof.
  intros Hd. unfold GenTable_create_adds, add_order.
  rewrite (mapM_ok _ (fun size =>
             map create_add_line
                 (filter (fun f => negb (sortbysize struct_def) ||
                                   (field_size f =? size)%nat)
                         (rev (live_fields (fields struct_def))))))
    by (intros; now apply GenTable_create_pass).
  simpl bind. f_equal.
  destruct (sortbysize struct_def).
  - change (size_loop sizeof_largest_scalar_t) with [8; 4; 2; 1]%nat.
    simpl. rewrite !app_nil_r, !map_app. reflexivity.
  - change (size_loop 1) with [1]%nat. simpl.
    now rewrite filter_true, app_nil_r.
Qed.

Lemma SizeOf_classes (t : BaseType) :
  SizeOf t = 8%nat \/ SizeOf t = 4%nat \/ SizeOf t = 2%nat \/ SizeOf t = 1%nat.
Proof. destruct t; simpl; auto. Qed.

Lemma by_size_permutation (l : list FieldDef) :
  Permutation
    (flat_map (fun size => filter (fun f => (field_size f =? size)%nat) l)
              [8; 4; 2; 1]%nat)
    l.
Proof.
  simpl. rewrite app_nil_r.
  induction l as [|f l IH]; simpl; [constructor|].
  apply Permutation_sym in IH.
  destruct (SizeOf_classes (base_type (type (value f)))) as [E|[E|[E|E]]];
    change (SizeOf (base_type (type (value f)))) with (field_size f) in E;
    rewrite !E; simpl; apply Permutation_sym.
  - now apply perm_skip.
  - now apply Permutation_cons_app.
  - rewrite app_assoc. apply Permutation_cons_app.
    now rewrite <- app_assoc.
  - rewrite !app_assoc. apply Permutation_cons_app.
    now rewrite <- !app_assoc.
Qed.

Lemma add_order_permutation (struct_def : StructDef) :
  Permutation (add_order struct_def) (live_fields (fields struct_def)).
Proof.
  unfold add_order. destruct (sortbysize struct_def).
  - etransitivity; [apply by_size_permutation|].
    apply Permutation_sym, Permutation_rev.
  - apply Permutation_sym, Permutation_rev.
Qed.

(** A table with fields of 8, 1 and 4 bytes, declared in that order. *)
Definition scalar_field (name : string) (b : BaseType) : FieldDef :=
  {| fd_name := name;
     value := {| type := Build_Type b BASE_TYPE_NONE None None;
                 constant := "0"; offset := 4 |};
     deprecated := false; required := false; optional := false;
     key := false; padding := 0; fd_doc_comment := [] |}.

Definition table_8_1_4 (by_size : bool) : StructDef :=
  {| sd_ref := {| sr_name := "T";
                  sr_defined_namespace := {| components := [] |};
                  fixed := false; bytesize := 0 |};
     fields := [ scalar_field "wide" BASE_TYPE_LONG;
                 scalar_field "narrow" BASE_TYPE_UCHAR;
                 scalar_field "medium" BASE_TYPE_INT ];
     sortbysize := by_size; minalign := 1;
     sd_doc_comment := []; sd_generated := false |}.

(** C5: the create function adds the fields that are not deprecated, each
    once: when the table is packed by size, by size class from 8 bytes
    halving down to 1 byte and, within a class, in reverse declaration
    order; otherwise all in reverse declaration order.  Fields of 8, 1 and
    4 bytes declared in that order are added, packed by size, as the 8-byte
    field, the 4-byte field, the 1-byte field. *)
Theorem GenTable_create_pack_by_size (cur : Namespace) (struct_def : StructDef) :
  defaults_ok cur struct_def = true ->
  GenTable_create_adds cur struct_def
  = Ok (map create_add_line (add_order struct_def)) /\
  add_order struct_def =
  (let l := rev (live_fields (fields struct_def)) in
   if sortbysize struct_def then
     (filter (fun f => (field_size f =? 8)%nat) l ++
      filter (fun f => (field_size f =? 4)%nat) l ++
      filter (fun f => (field_size f =? 2)%nat) l ++
      filter (fun f => (field_size f =? 1)%nat) l)%list
   else l) /\
  Permutation (add_order struct_def) (live_fields (fields struct_def)) /\
  GenTable_create_adds cur (table_8_1_4 true)
  = Ok [ "      builder.add_wide(args.wide);";
         "      builder.add_medium(args.medium);";
         "      builder.add_narrow(args.narrow);" ] /\
  GenTable_create_adds cur (table_8_1_4 false)
  = Ok [ "      builder.add_medium(args.medium);";
         "      builder.add_narrow(args.narrow);";
         "      builder.add_wide(args.wide);" ].
Proof.
  intros Hd. split; [now apply GenTable_create_adds_order|].
  split; [|split; [apply add_order_permutation|]].
  - unfold add_order. destruct (sortbysize struct_def); [|reflexivity].
    simpl. now rewrite app_nil_r.
  - split; (rewrite GenTable_create_adds_order; [reflexivity|]);
      reflexivity.
Qed.

Lemma GenTable_create_pack_by_size_witness :
  let cur := {| components := [] |} in
  defaults_ok cur (table_8_1_4 true) = true /\
  GenTable_create_adds cur (table_8_1_4 true)
  = Ok (map create_add_line (add_order (table_8_1_4 true))).
Proof.
  split; [reflexivity|].
  apply (GenTable_create_pack_by_size {| components := [] |}
                                      (table_8_1_4 true)).
  reflexivity.
Defined.

(** ** The builder's finish(): presence checks *)

(** The fields for which [finish()] checks presence. *)
Definition required_fields (struct_def : StructDef) : list FieldDef :=
  filter (fun f => negb (deprecated f) && required f) (fields struct_def).

(** The arguments of the presence check of a field (the slot constant and
    the name), and the whole line. *)
Definition required_check_text (STRUCT_NAME : string) (f : FieldDef) : string :=
  STRUCT_NAME ++ "::" ++ GetFieldOffsetName f ++ "," ++
  dq ++ Name_field f ++ dq ++ ");".

Definition required_check_line (STRUCT_NAME : string) (f : FieldDef) : string :=
  "    self.fbb_.required(o, " ++ required_check_text STRUCT_NAME f.

(** Reading a presence check back from a line of the output. *)
Definition required_check_of (line : string) : option string :=
  if starts_with "    self.fbb_.required(o, " line
  then Some (drop 26 line) else None.

(** Modelled from the spec: the runtime of the generated [finish()].  The
    builder's [required] check "fails (reported, not silently accepted) if
    that field's add-operation was never invoked"; [added] tells, for the
    arguments of a check, whether the add-operation of that slot was
    invoked.  [finish()] reports a failure when one of its checks does. *)
Definition finish_reports_failure (lines : list string)
           (added : string -> bool) : bool :=
  existsb (fun line =>
             match required_check_of line with
             | Some check => negb (added check)
             | None => false
             end)
          lines.

(** The text of [finish()] around its presence checks. *)
Definition finish_lines (STRUCT_NAME : string) (checks : list string)
  : list string :=
  List.concat
    [ [ "  #[inline]";
        "  pub fn finish(self) -> " ++
        "flatbuffers::WIPOffset<" ++ STRUCT_NAME ++ "<'a>> {";
        "    let o = self.fbb_.end_table(self.start_);" ];
      checks;
      [ "    flatbuffers::WIPOffset::new(o.value())";
        "  }";
        "}";
        "" ] ].

Lemma existsb_required_checks (S : string) (added : string -> bool)
      (l : list FieldDef) :
  existsb (fun line =>
             match required_check_of line with
             | Some check => negb (added check)
             | None => false
             end)
          (map (required_check_line S) l)
  = existsb (fun f => negb (added (required_check_text S f))) l.
Proof.
  induction l as [|f l IH]; simpl; [reflexivity|]. now rewrite IH.
Qed.

Lemma filter_twice {A : Type} (p q : A -> bool) (l : list A) :
  filter p (filter q l) = filter (fun a => q a && p a) l.
Proof.
  induction l as [|a l IH]; simpl; [reflexivity|].
  destruct (q a); simpl; [destruct (p a)|]; now rewrite IH.
Qed.

Lemma GenTable_finish_eq (cur : Namespace) (struct_def : StructDef) :
  defaults_ok cur struct_def = true ->
  GenTable_finish cur struct_def =
  Ok (finish_lines (Name_struct struct_def)
        (map (required_check_line (Name_struct struct_def))
             (required_fields struct_def))).
Proof.
  intros Hd. unfold GenTable_finish.
  rewrite (ForAllTableFields_ok cur struct_def _
             (fun f => if required f
                       then [required_check_line (Name_struct struct_def) f]
                       else [])); auto.
  - simpl bind. rewrite flat_map_if_filter. unfold required_fields.
    unfold live_fields, finish_lines. rewrite filter_twice.
    reflexivity.
  - intros f dv _ _ _. unfold GenTable_finish_field.
    destruct (required f); reflexivity.
Qed.

(** C4: [finish()] holds one presence check for each field that is
    required and not deprecated, in declaration order, and none for any
    other field; so it reports a failure exactly when the add-operation of
    one of these fields was never invoked. *)
Theorem GenTable_finish_required_checks (cur : Namespace)
        (struct_def : StructDef) :
  defaults_ok cur struct_def = true ->
  exists lines,
    GenTable_finish cur struct_def = Ok lines /\
    lines =
    finish_lines (Name_struct struct_def)
      (map (required_check_line (Name_struct struct_def))
           (required_fields struct_def)) /\
    (forall f, In f (required_fields struct_def) <->
               In f (fields struct_def) /\
               deprecated f = false /\ required f = true) /\
    forall added,
      finish_reports_failure lines added = true <->
      exists f, In f (fields struct_def) /\
                deprecated f = false /\ required f = true /\
                added (required_check_text (Name_struct struct_def) f) = false.
Proof.
  intros Hd. eexists. split; [now apply GenTable_finish_eq|].
  split; [reflexivity|].
  assert (Hin : forall f, In f (required_fields struct_def) <->
                          In f (fields struct_def) /\
                          deprecated f = false /\ required f = true).
  { intros f. unfold required_fields.
    rewrite filter_In, andb_true_iff, negb_true_iff. tauto. }
  split; [exact Hin|].
  intros added. unfold finish_reports_failure, finish_lines.
  cbn [List.concat]. rewrite app_nil_r.
  rewrite existsb_app. cbn [existsb].
  change (required_check_of "  #[inline]") with (@None string).
  change (required_check_of
            ("  pub fn finish(self) -> " ++
             "flatbuffers::WIPOffset<" ++ Name_struct struct_def ++ "<'a>> {"))
    with (@None string).
  change (required_check_of "    let o = self.fbb_.end_table(self.start_);")
    with (@None string).
  cbn [orb]. rewrite existsb_app, existsb_required_checks.
  cbn. rewrite orb_false_r, existsb_exists.
  split.
  - intros (f & Hf & Ha). apply Hin in Hf. apply negb_true_iff in Ha.
    exists f. tauto.
  - intros (f & H1 & H2 & H3 & H4). exists f.
    split; [apply Hin; tauto|now rewrite H4].
Qed.

(** A table with a required string, an optional one, and a required but
    deprecated one. *)
Definition string_field (name : string) (req dep : bool) : FieldDef :=
  {| fd_name := name;
     value := {| type := Build_Type BASE_TYPE_STRING BASE_TYPE_NONE None None;
                 constant := "0"; offset := 4 |};
     deprecated := dep; required := req; optional := negb req;
     key := false; padding := 0; fd_doc_comment := [] |}.

Definition table_with_required : StructDef :=
  {| sd_ref := {| sr_name := "Monster";
                  sr_defined_namespace := {| components := [] |};
                  fixed := false; bytesize := 0 |};
     fields := [ string_field "name" true false;
                 string_field "nick" false false;
                 string_field "old" true true ];
     sortbysize := true; minalign := 1;
     sd_doc_comment := []; sd_generated := false |}.

Lemma GenTable_finish_required_checks_witness :
  let cur := {| components := [] |} in
  defaults_ok cur table_with_required = true /\
  exists lines,
    GenTable_finish cur table_with_required = Ok lines /\
    finish_reports_failure lines (fun _ => false) = true /\
    finish_reports_failure lines (fun _ => true) = false.
Proof.
  split; [reflexivity|].
  destruct (GenTable_finish_required_checks {| components := [] |}
                                            table_with_required eq_refl)
    as (lines & H1 & H2 & _).
  exists lines. split; [exact H1|]. subst lines. split; reflexivity.
Defined.

(** ** The structural verifier: union fields *)

(** The members of a union that carry a payload: all declared values but
    NONE. *)
Definition variants_besides_none (ed : EnumDef) : list EnumVal :=
  filter (fun ev => negb (BaseType_eqb (base_type (union_type ev))
                                       BASE_TYPE_NONE))
         (Vals ed).

(** Every member with a payload refers to a table definition. *)
Definition variants_ok (ed : EnumDef) : bool :=
  forallb (fun ev => match struct_def (union_type ev) with
                     | Some _ => true
                     | None => false
                     end)
          (variants_besides_none ed).

Definition variant_values (cur : Namespace) (ed : EnumDef) (ev : EnumVal)
  : UnionVariantValues :=
  {| U_ELEMENT_ENUM_TYPE :=
       WrapInNameSpace cur (ed_defined_namespace ed) (GetEnumValue ed ev);
     U_ELEMENT_TABLE_TYPE :=
       match struct_def (union_type ev) with
       | Some sd => WrapInNameSpace cur (sr_defined_namespace sd) (sr_name sd)
       | None => ""
       end;
     U_ELEMENT_NAME := MakeSnakeCase (Name_enumval ev) |}.

(** What the verifier holds for a union field [f] of union [ed]: the call
    of [visit_union], the [match] on the discriminant with one arm for each
    member with a payload, and the catch-all arm that accepts. *)
Definition union_field_lines (cur : Namespace) (f : FieldDef) (ed : EnumDef)
  : list string :=
  List.concat
    [ [ nl ++ "     .visit_union::<" ++ Name_enum ed ++ ", _>(" ++
        "&" ++ dq ++ Name_field f ++ "_type" ++ dq ++ ", Self::" ++
        GetFieldOffsetName f ++ "_TYPE, " ++
        "&" ++ dq ++ Name_field f ++ dq ++ ", Self::" ++
        GetFieldOffsetName f ++ ", " ++
        (if required f then "true" else "false") ++ ", " ++
        "|key, v, pos| {";
        "        match key {" ];
      map (fun ev => GenTable_verifier_arm (variant_values cur ed ev))
          (variants_besides_none ed);
      [ "          _ => Ok(()),";
        "        }";
        "     })?\" ] ].

(** The outcome of a verification step. *)
Inductive VerifyResult : Type :=
| Valid
| InvalidFlatbuffer.

Lemma GetFullType_union_value (t : Type_) :
  GetFullType t = Ok ftUnionValue ->
  exists ed, enum_def t = Some ed /\ is_union ed = true.
Proof.
  rewrite GetFullType_equation.
  destruct (IsString t); [discriminate|].
  destruct (BaseType_eqb (base_type t) BASE_TYPE_STRUCT).
  { destruct (struct_def t) as [sd|]; [destruct (fixed sd)|]; discriminate. }
  destruct (IsVector t).
  { destruct (GetFullType (VectorType t)) as [[]|]; discriminate. }
  destruct (enum_def t) as [ed|].
  - destruct (is_union ed) eqn:U; [eauto|discriminate].
  - destruct (IsScalar (base_type t)); [|discriminate].
    destruct (IsBool (base_type t)); [discriminate|].
    destruct (IsInteger (base_type t)); [discriminate|].
    destruct (IsFloat (base_type t)); discriminate.
Qed.

Lemma ForAllUnionVariantsBesidesNone_arms (cur : Namespace) (ed : EnumDef) :
  is_union ed = true -> variants_ok ed = true ->
  ForAllUnionVariantsBesidesNone cur ed
    (fun _ u => Ok [GenTable_verifier_arm u])
  = Ok (map (fun ev => GenTable_verifier_arm (variant_values cur ed ev))
            (variants_besides_none ed)).
Proof.
  intros Hu Hv. unfold ForAllUnionVariantsBesidesNone. rewrite Hu. simpl negb.
  cbv iota.
  rewrite (mapM_ok _ (fun ev =>
             if BaseType_eqb (base_type (union_type ev)) BASE_TYPE_NONE
             then []
             else [GenTable_verifier_arm (variant_values cur ed ev)])).
  - simpl bind. f_equal. unfold variants_besides_none.
    induction (Vals ed) as [|ev l IH]; simpl; [reflexivity|].
    destruct (BaseType_eqb (base_type (union_type ev)) BASE_TYPE_NONE);
      simpl; now rewrite IH.
  - intros ev Hin.
    destruct (BaseType_eqb (base_type (union_type ev)) BASE_TYPE_NONE) eqn:E;
      [reflexivity|].
    unfold variants_ok in Hv. rewrite forallb_forall in Hv.
    assert (Hm : In ev (variants_besides_none ed)).
    { apply filter_In. split; [exact Hin|now rewrite E]. }
    specialize (Hv ev Hm). unfold variant_values.
    destruct (struct_def (union_type ev)); [reflexivity|discriminate].
Qed.

Lemma GenTable_verifier_field_union (cur : Namespace) (f : FieldDef)
      (dv : string) (ed : EnumDef) :
  GetFullType (type (value f)) = Ok ftUnionValue ->
  enum_def (type (value f)) = Some ed ->
  variants_ok ed = true ->
  GenTable_verifier_field cur f (field_values f dv)
  = Ok (union_field_lines cur f ed).
Proof.
  intros Hft Hed Hv. unfold GenTable_verifier_field.
  rewrite Hft, Hed. simpl bind.
  destruct (GetFullType_union_value _ Hft) as (ed' & Hed' & Hu).
  assert (ed' = ed) by congruence. subst ed'.
  rewrite (ForAllUnionVariantsBesidesNone_arms cur ed Hu Hv).
  reflexivity.
Qed.

Lemma mapM_inv {A B : Type} (f : A -> Result B) (l : list A) (r : list B)
      (a : A) :
  mapM f l = Ok r -> In a l ->
  exists b r1 r2, f a = Ok b /\ r = (r1 ++ b :: r2)%list.
Proof.
  revert r. induction l as [|x l IH]; intros r H Hin; [contradiction|].
  simpl in H. destruct (f x) as [b|] eqn:E; [|discriminate].
  simpl in H. destruct (mapM f l) as [bs|] eqn:M; [|discriminate].
  injection H as <-. destruct Hin as [->|Hin].
  - exists b, [], bs. auto.
  - destruct (IH bs eq_refl Hin) as (b' & r1 & r2 & H1 & ->).
    exists b', (b :: r1), r2. auto.
Qed.

Lemma ForAllTableFields_inv (cur : Namespace) (struct_def : StructDef)
      (cb : FieldDef -> TableFieldValues -> Result (list string))
      (reversed : bool) (lines : list string) (f : FieldDef) :
  ForAllTableFields cur struct_def cb reversed = Ok lines ->
  In f (fields struct_def) -> deprecated f = false ->
  exists dv b c1 c2,
    GetDefaultScalarValue cur f = Ok dv /\
    cb f (field_values f dv) = Ok b /\
    lines = (c1 ++ b ++ c2)%list.
Proof.
  unfold ForAllTableFields. intros H Hin Hdep.
  destruct (mapM _ _) as [r|] eqn:M; [|discriminate].
  simpl in H. injection H as <-.
  assert (Hin' : In f (if reversed then rev (fields struct_def)
                       else fields struct_def))
    by (destruct reversed; [rewrite <- in_rev|]; exact Hin).
  destruct (mapM_inv _ _ _ f M Hin') as (b & r1 & r2 & Hb & ->).
  rewrite Hdep in Hb.
  destruct (GetDefaultScalarValue cur f) as [dv|]; [|discriminate].
  simpl in Hb. exists dv, b, (List.concat r1), (List.concat r2).
  repeat split; [exact Hb|].
  rewrite concat_app. reflexivity.
Qed.

(** The text of the verifier around the checks of the fields. *)
Definition verifier_head (STRUCT_NAME : string) : list string :=
  [ "impl flatbuffers::Verifiable for " ++ STRUCT_NAME ++ "<'_> {";
    "  #[inline]";
    "  fn run_verifier(";
    "    v: &mut flatbuffers::Verifier, pos: usize";
    "  ) -> Result<(), flatbuffers::InvalidFlatbuffer> {";
    "    use self::flatbuffers::Verifiable;";
    "    v.visit_table(pos)?\" ].

Definition verifier_tail : list string :=
  [ nl ++ "     .finish();";
    "    Ok(())";
    "  }";
    "}" ].

Lemma GenTable_verifier_eq (cur : Namespace) (struct_def : StructDef) :
  GenTable_verifier cur struct_def =
  (checks <- ForAllTableFields cur struct_def
               (GenTable_verifier_field cur) false ;;
   Ok (verifier_head (Name_struct struct_def) ++ checks ++ verifier_tail)%list).
Proof.
  unfold GenTable_verifier.
  destruct (ForAllTableFields cur struct_def _ false); [|reflexivity].
  cbn [bind List.concat]. rewrite app_nil_r. reflexivity.
Qed.

Lemma find_first_tag (l : list EnumVal) (ev : EnumVal) :
  NoDup (map ev_value l) -> In ev l ->
  find (fun x => Z.eqb (ev_value x) (ev_value ev)) l = Some ev.
Proof.
  induction l as [|x l IH]; intros Hn Hin; [contradiction|].
  simpl in *. inversion Hn as [|? ? Hx Hn']; subst.
  destruct Hin as [->|Hin]; [now rewrite Z.eqb_refl|].
  destruct (Z.eqb (ev_value x) (ev_value ev)) eqn:E; [|auto].
  apply Z.eqb_eq in E. exfalso. apply Hx. rewrite E. now apply in_map.
Qed.

Lemma mapM_succeeds {A B : Type} (f : A -> Result B) (l : list A) :
  (forall a, In a l -> exists b, f a = Ok b) -> exists r, mapM f l = Ok r.
Proof.
  induction l as [|a l IH]; intros H; simpl; [eauto|].
  destruct (H a (or_introl eq_refl)) as [b ->].
  destruct IH as [r ->]; [intros; apply H; now right|].
  simpl. eauto.
Qed.

(** The check of a field does not depend on the default value bound for
    it, so whether it can be emitted is a property of the field. *)
Lemma GenTable_verifier_field_default (cur : Namespace) (f : FieldDef)
      (v : TableFieldValues) (dv : string) :
  is_Ok (GenTable_verifier_field cur f v) = true ->
  exists b, GenTable_verifier_field cur f (field_values f dv) = Ok b.
Proof.
  unfold GenTable_verifier_field.
  destruct (GetFullType (type (value f))) as [ft|]; [|discriminate].
  cbn [bind].
  destruct ft;
    try (destruct (FollowType cur (type (value f)) "'_");
         [cbn [bind]; eauto|discriminate]);
    try (intros _; eexists; reflexivity).
  destruct (deref (enum_def (type (value f)))) as [ud|]; [|discriminate].
  cbn [bind].
  destruct (ForAllUnionVariantsBesidesNone cur ud _); [|discriminate].
  cbn [bind]. eauto.
Qed.

(** Every live field of the table has a default value and a check: what
    [GenTable]'s verifier segment needs to run to its end. *)
Definition verifier_fields_ok (cur : Namespace) (struct_def : StructDef)
  : bool :=
  defaults_ok cur struct_def &&
  forallb (fun f => is_Ok (GenTable_verifier_field cur f (field_values f "")))
          (live_fields (fields struct_def)).

Lemma GenTable_verifier_succeeds (cur : Namespace) (struct_def : StructDef) :
  verifier_fields_ok cur struct_def = true ->
  exists lines, GenTable_verifier cur struct_def = Ok lines.
Proof.
  unfold verifier_fields_ok, defaults_ok. intros H.
  apply andb_true_iff in H as [Hd Hc]. rewrite forallb_forall in Hd, Hc.
  rewrite GenTable_verifier_eq. unfold ForAllTableFields.
  destruct (mapM_succeeds
              (fun field =>
                 if deprecated field then Ok []
                 else
                   default_value <- GetDefaultScalarValue cur field ;;
                   GenTable_verifier_field cur field
                     {| OFFSET_NAME := GetFieldOffsetName field;
                        OFFSET_VALUE := NumToString (offset (value field));
                        FIELD_NAME := Name_field field;
                        DEFAULT_VALUE := default_value |})
              (fields struct_def)) as [r Hr].
  - intros f Hf. destruct (deprecated f) eqn:D; [eauto|].
    assert (Hl : In f (live_fields (fields struct_def))).
    { apply filter_In. split; [exact Hf|now rewrite D]. }
    specialize (Hd f Hl). specialize (Hc f Hl).
    destruct (GetDefaultScalarValue cur f) as [dv|]; [|discriminate].
    cbn [bind]. exact (GenTable_verifier_field_default cur f _ dv Hc).
  - cbv zeta. rewrite Hr. cbn [bind]. eauto.
Qed.

Lemma Ok_inj {A : Type} (a b : A) : Ok a = Ok b -> a = b.
Proof. congruence. Qed.

(** The arm of the [match] for a member of the union: the enum value that
    is the member's tag, and the table that its payload is verified
    as. *)
Definition union_arm_line (pattern table : string) : string :=
  "          " ++ pattern ++
  " => v.verify_union_variant::<flatbuffers::ForwardsUOffset<" ++ table ++
  ">>(" ++ dq ++ pattern ++ dq ++ ", pos),".

(** The enum value of a member, and the table of its payload, as the
    verifier names them from the namespace [cur]. *)
Definition member_pattern (cur : Namespace) (ed : EnumDef) (ev : EnumVal)
  : string :=
  WrapInNameSpace cur (ed_defined_namespace ed)
                  (Name_enum ed ++ "::" ++ Name_enumval ev).

Definition member_table (cur : Namespace) (ev : EnumVal) : string :=
  match struct_def (union_type ev) with
  | Some sd => WrapInNameSpace cur (sr_defined_namespace sd) (sr_name sd)
  | None => ""
  end.

(** The text of the check of a union field [f] of union [ed]: the call of
    [visit_union] with the closure that checks the payload, whose body is a
    [match] on the discriminant with one arm for each member with a payload,
    in the order of declaration, and a last arm that accepts. *)
Definition union_check_lines (cur : Namespace) (f : FieldDef) (ed : EnumDef)
  : list string :=
  [ nl ++ "     .visit_union::<" ++ Name_enum ed ++ ", _>(" ++
    "&" ++ dq ++ Name_field f ++ "_type" ++ dq ++ ", Self::" ++
    GetFieldOffsetName f ++ "_TYPE, " ++
    "&" ++ dq ++ Name_field f ++ dq ++ ", Self::" ++
    GetFieldOffsetName f ++ ", " ++
    (if required f then "true" else "false") ++ ", " ++
    "|key, v, pos| {";
    "        match key {" ] ++
  map (fun ev => union_arm_line (member_pattern cur ed ev)
                                (member_table cur ev))
      (variants_besides_none ed) ++
  [ "          _ => Ok(()),";
    "        }";
    "     })?\" ].

(** *** Reading the check back from the output *)

(** The text of [s] before the first [c]. *)
Fixpoint take_until (c : ascii) (s : string) : string :=
  match s with
  | EmptyString => ""
  | String a r => if Ascii.eqb a c then "" else String a (take_until c r)
  end.

Fixpoint no_char (c : ascii) (s : string) : bool :=
  match s with
  | EmptyString => true
  | String a r => negb (Ascii.eqb a c) && no_char c r
  end.

(** An arm of the emitted [match key]: the arm of a member, with its
    pattern and the table named in its call of [verify_union_variant], or
    the arm [_] that accepts. *)
Inductive MatchArm : Type :=
| MemberArm (pattern table : string)
| CatchAll.

Definition verify_call : string :=
  " => v.verify_union_variant::<flatbuffers::ForwardsUOffset<".

Definition match_arm_of (line : string) : option MatchArm :=
  if starts_with "          " line then
    let arm := drop 10 line in
    let pattern := take_until " " arm in
    let rest := drop (String.length pattern) arm in
    if starts_with verify_call rest then
      let table := take_until ">" (drop (String.length verify_call) rest) in
      if starts_with ">>("
           (drop (String.length verify_call + String.length table) rest)
      then Some (MemberArm pattern table) else None
    else if String.eqb arm "_ => Ok(())," then Some CatchAll
    else None
  else None.

(** Modelled from the spec: the meaning of the emitted [match key], read
    from its lines.  The arms are tried in order.  The arm of a member
    applies when the discriminant [key] is the value of the constant that
    its pattern names ([tag_of], which the generated enum defines), and its
    result is the check of the payload as the table named in the arm
    ([verify_union_variant], a function of the runtime library: a payload
    that fails it makes the verification fail); the arm [_] applies to every
    discriminant, and accepts.  A line that is no arm, or a pattern that
    names no constant, has no meaning. *)
Fixpoint run_match (arms : list string) (tag_of : string -> option Z)
         (verify_union_variant : string -> VerifyResult) (key : Z)
  : option VerifyResult :=
  match arms with
  | [] => None
  | line :: rest =>
      match match_arm_of line with
      | Some (MemberArm pattern table) =>
          match tag_of pattern with
          | Some tag =>
              if Z.eqb tag key then Some (verify_union_variant table)
              else run_match rest tag_of verify_union_variant key
          | None => None
          end
      | Some CatchAll => Some Valid
      | None => None
      end
  end.

(** The check of a union field, read from the lines that start at its call
    of [visit_union]: the result of the closure on a discriminant. *)
Definition run_union_check (lines : list string)
           (tag_of : string -> option Z)
           (verify_union_variant : string -> VerifyResult) (key : Z)
  : option VerifyResult :=
  match lines with
  | call :: opening :: arms =>
      if starts_with (nl ++ "     .visit_union::<") call &&
         String.eqb opening "        match key {"
      then run_match arms tag_of verify_union_variant key
      else None
  | _ => None
  end.

(** The names of the members can be read back from an arm: the enum value
    has no space in it and the table no [>]. *)
Definition members_readable (cur : Namespace) (ed : EnumDef) : bool :=
  forallb (fun ev => no_char " " (member_pattern cur ed ev) &&
                     no_char ">" (member_table cur ev))
          (variants_besides_none ed).

Lemma union_field_lines_text (cur : Namespace) (f : FieldDef) (ed : EnumDef) :
  union_field_lines cur f ed = union_check_lines cur f ed.
Proof.
  unfold union_field_lines, union_check_lines. cbn [List.concat].
  rewrite app_nil_r. reflexivity.
Qed.

Lemma take_until_append (c : ascii) (p r : string) :
  no_char c p = true -> take_until c (p ++ String c r) = p.
Proof.
  induction p as [|a p IH]; simpl.
  - now rewrite Ascii.eqb_refl.
  - intros H. apply andb_true_iff in H as [H1 H2].
    apply negb_true_iff in H1. rewrite H1. now rewrite IH.
Qed.

Lemma drop_append (p r : string) : drop (String.length p) (p ++ r) = r.
Proof. induction p as [|a p IH]; simpl; [now destruct r|exact IH]. Qed.

Lemma drop_add (n m : nat) (s : string) : drop (n + m) s = drop m (drop n s).
Proof.
  revert s. induction n as [|n IH]; intros s; [reflexivity|].
  destruct s as [|a s]; simpl; [now destruct m|apply IH].
Qed.

Lemma match_arm_of_member (pattern table : string) :
  no_char " " pattern = true -> no_char ">" table = true ->
  match_arm_of (union_arm_line pattern table)
  = Some (MemberArm pattern table).
Proof.
  intros Hp Ht. unfold match_arm_of, union_arm_line.
  rewrite starts_with_append. cbv zeta.
  change (drop 10 ("          " ++ ?x)) with x.
  change (pattern ++
          " => v.verify_union_variant::<flatbuffers::ForwardsUOffset<" ++
          table ++ ">>(" ++ dq ++ pattern ++ dq ++ ", pos),")
    with (pattern ++ String " " (drop 1 verify_call ++ table ++ String ">" (String ">" (String "(" (dq ++ pattern ++ dq ++ ", pos),"))))).
  rewrite (take_until_append _ _ _ Hp), drop_append.
  change (String " " (drop 1 verify_call ++ ?x)) with (verify_call ++ x).
  rewrite starts_with_append, drop_add, !drop_append.
  rewrite (take_until_append _ _ _ Ht), drop_append.
  reflexivity.
Qed.

Lemma run_match_members (cur : Namespace) (ed : EnumDef)
      (tag_of : string -> option Z) (verify : string -> VerifyResult)
      (key : Z) (l : list EnumVal) (tail : list string) :
  forallb (fun ev => no_char " " (member_pattern cur ed ev) &&
                     no_char ">" (member_table cur ev)) l = true ->
  (forall ev, In ev l ->
              tag_of (member_pattern cur ed ev) = Some (ev_value ev)) ->
  run_match (map (fun ev => union_arm_line (member_pattern cur ed ev)
                                           (member_table cur ev)) l ++ tail)%list
            tag_of verify key
  = match find (fun ev => Z.eqb (ev_value ev) key) l with
    | Some ev => Some (verify (member_table cur ev))
    | None => run_match tail tag_of verify key
    end.
Proof.
  induction l as [|ev l IH]; intros Hr Ht; [reflexivity|].
  cbn [map List.app run_match find].
  cbn [forallb] in Hr. apply andb_true_iff in Hr as [Hev Hr].
  apply andb_true_iff in Hev as [Hp Hb].
  rewrite (match_arm_of_member _ _ Hp Hb).
  rewrite (Ht ev (or_introl eq_refl)).
  destruct (Z.eqb (ev_value ev) key); [reflexivity|].
  apply IH; [exact Hr|]. intros ev' Hin. apply Ht. now right.
Qed.

Lemma skipn_length_app {A : Type} (l r : list A) :
  skipn (List.length l) (l ++ r)%list = r.
Proof. induction l as [|a l IH]; [reflexivity|exact IH]. Qed.

Lemma run_union_check_lines (cur : Namespace) (f : FieldDef) (ed : EnumDef)
      (after : list string) (tag_of : string -> option Z)
      (verify : string -> VerifyResult) (key : Z) :
  members_readable cur ed = true ->
  (forall ev, In ev (variants_besides_none ed) ->
              tag_of (member_pattern cur ed ev) = Some (ev_value ev)) ->
  run_union_check (union_check_lines cur f ed ++ after)%list tag_of verify key
  = match find (fun ev => Z.eqb (ev_value ev) key)
               (variants_besides_none ed) with
    | Some ev => Some (verify (member_table cur ev))
    | None => Some Valid
    end.
Proof.
  intros Hr Ht. unfold union_check_lines, run_union_check.
  cbn [List.app].
  match goal with
  | |- context [starts_with (?a ++ ?b) (?a ++ ?b ++ ?x)] =>
      replace (a ++ b ++ x) with ((a ++ b) ++ x)
        by (rewrite append_assoc; reflexivity)
  end.
  rewrite starts_with_append, String.eqb_refl. cbn [andb].
  rewrite <- app_assoc.
  rewrite (run_match_members cur ed tag_of verify key _ _ Hr Ht).
  destruct (find _ _); reflexivity.
Qed.

(** C3: the verifier of a table whose fields can all be checked is
    emitted, and in it the check of a union field is the call of
    [visit_union] with a [match] on the discriminant that holds one arm for
    each member of the union with a payload, verifying the payload as that
    member's table, and a last arm that accepts.  Read from these lines, the
    check of a discriminant that is the tag of a member is the check of the
    payload as that member's table (so a payload that fails it fails the
    verification), and a discriminant that is the tag of no member is
    valid. *)
Theorem GenTable_verifier_union_field (cur : Namespace)
        (struct_def : StructDef) (f : FieldDef) (ed : EnumDef) :
  verifier_fields_ok cur struct_def = true ->
  In f (fields struct_def) -> deprecated f = false ->
  GetFullType (type (value f)) = Ok ftUnionValue ->
  enum_def (type (value f)) = Some ed ->
  variants_ok ed = true ->
  exists lines before after,
    GenTable_verifier cur struct_def = Ok lines /\
    lines = (before ++ union_check_lines cur f ed ++ after)%list /\
    forall tag_of verify,
      members_readable cur ed = true ->
      NoDup (map ev_value (variants_besides_none ed)) ->
      (forall ev, In ev (variants_besides_none ed) ->
                  tag_of (member_pattern cur ed ev) = Some (ev_value ev)) ->
      (forall ev,
          In ev (variants_besides_none ed) ->
          run_union_check (skipn (List.length before) lines)
                          tag_of verify (ev_value ev)
          = Some (verify (member_table cur ev))) /\
      (forall key,
          (forall ev, In ev (variants_besides_none ed) ->
                      ev_value ev <> key) ->
          run_union_check (skipn (List.length before) lines)
                          tag_of verify key
          = Some Valid).
Proof.
  intros Hok Hin Hdep Hft Hed Hv.
  destruct (GenTable_verifier_succeeds cur struct_def Hok) as [lines Hl].
  exists lines. pose proof Hl as Hl'.
  rewrite GenTable_verifier_eq in Hl.
  destruct (ForAllTableFields cur struct_def _ false) as [checks|] eqn:F;
    [|discriminate].
  destruct (ForAllTableFields_inv _ _ _ _ _ f F Hin Hdep)
    as (dv & b & c1 & c2 & _ & Hb & ->).
  rewrite (GenTable_verifier_field_union cur f dv ed Hft Hed Hv) in Hb.
  rewrite union_field_lines_text in Hb.
  apply Ok_inj in Hb. subst b. cbn [bind] in Hl. apply Ok_inj in Hl.
  exists (verifier_head (Name_struct struct_def) ++ c1)%list,
         (c2 ++ verifier_tail)%list.
  split; [exact Hl'|].
  assert (E : lines = ((verifier_head (Name_struct struct_def) ++ c1) ++
                       union_check_lines cur f ed ++ c2 ++ verifier_tail)%list).
  { rewrite <- Hl, <- !app_assoc. reflexivity. }
  split; [exact E|].
  intros tag_of verify Hr Hn Ht. rewrite E, skipn_length_app. split.
  - intros ev Hev.
    rewrite (run_union_check_lines cur f ed _ tag_of verify _ Hr Ht).
    now rewrite (find_first_tag _ _ Hn Hev).
  - intros key Hk.
    rewrite (run_union_check_lines cur f ed _ tag_of verify _ Hr Ht).
    destruct (find _ _) as [ev|] eqn:Ef; [|reflexivity].
    apply find_some in Ef as [F1 F2]. apply Z.eqb_eq in F2.
    now elim (Hk ev F1).
Qed.

(** A table with a union field: the discriminant field, then the payload
    field, of a union of two tables. *)
Definition my_game : Namespace := {| components := ["MyGame"] |}.

Definition table_ref (name : string) : StructRef :=
  {| sr_name := name; sr_defined_namespace := my_game;
     fixed := false; bytesize := 0 |}.

Definition any_union : EnumDef :=
  Build_EnumDef "Any" my_game true false
    [ Build_EnumVal "NONE" 0
        (Build_Type BASE_TYPE_NONE BASE_TYPE_NONE None None);
      Build_EnumVal "Monster" 1
        (Build_Type BASE_TYPE_STRUCT BASE_TYPE_NONE
                    (Some (table_ref "Monster")) None);
      Build_EnumVal "Weapon" 2
        (Build_Type BASE_TYPE_STRUCT BASE_TYPE_NONE
                    (Some (table_ref "Weapon")) None) ].

Definition union_key_field : FieldDef :=
  {| fd_name := "equipped_type";
     value := {| type := Build_Type BASE_TYPE_UTYPE BASE_TYPE_NONE None
                                    (Some any_union);
                 constant := "0"; offset := 4 |};
     deprecated := false; required := false; optional := false;
     key := false; padding := 0; fd_doc_comment := [] |}.

Definition union_value_field : FieldDef :=
  {| fd_name := "equipped";
     value := {| type := Build_Type BASE_TYPE_UNION BASE_TYPE_NONE None
                                    (Some any_union);
                 constant := "0"; offset := 6 |};
     deprecated := false; required := false; optional := true;
     key := false; padding := 0; fd_doc_comment := [] |}.

Definition table_with_union : StructDef :=
  {| sd_ref := table_ref "Hero";
     fields := [ union_key_field; union_value_field ];
     sortbysize := true; minalign := 1;
     sd_doc_comment := []; sd_generated := false |}.

(** The tags of the members of [any_union], by the names that the verifier
    written in [my_game] gives them, and a payload check that fails a
    weapon. *)
Definition any_union_tag_of (pattern : string) : option Z :=
  if String.eqb pattern "Any::Monster" then Some 1%Z
  else if String.eqb pattern "Any::Weapon" then Some 2%Z
  else None.

Definition weapon_fails (table : string) : VerifyResult :=
  if String.eqb table "Weapon" then InvalidFlatbuffer else Valid.

Lemma GenTable_verifier_union_field_witness :
  verifier_fields_ok my_game table_with_union = true /\
  exists lines before after,
    GenTable_verifier my_game table_with_union = Ok lines /\
    lines = (before ++
             union_check_lines my_game union_value_field any_union ++
             after)%list /\
    run_union_check (skipn (List.length before) lines)
                    any_union_tag_of weapon_fails 1 = Some Valid /\
    run_union_check (skipn (List.length before) lines)
                    any_union_tag_of weapon_fails 2 = Some InvalidFlatbuffer /\
    run_union_check (skipn (List.length before) lines)
                    any_union_tag_of weapon_fails 7 = Some Valid.
Proof.
  split; [reflexivity|].
  destruct (GenTable_verifier_union_field
              my_game table_with_union union_value_field any_union
              eq_refl (or_intror (or_introl eq_refl)) eq_refl eq_refl
              eq_refl eq_refl)
    as (lines & before & after & Hl & E & H).
  exists lines, before, after. split; [exact Hl|]. split; [exact E|].
  assert (Hn : NoDup (map ev_value (variants_besides_none any_union))).
  { cbn. repeat constructor; cbn; intuition discriminate. }
  assert (Ht : forall ev, In ev (variants_besides_none any_union) ->
                          any_union_tag_of (member_pattern my_game any_union ev)
                          = Some (ev_value ev)).
  { cbn. intros ev [<-|[<-|[]]]; reflexivity. }
  destruct (H any_union_tag_of weapon_fails eq_refl Hn Ht) as [H1 H2].
  split; [|split].
  - apply (H1 (Build_EnumVal "Monster" 1
                 (Build_Type BASE_TYPE_STRUCT BASE_TYPE_NONE
                             (Some (table_ref "Monster")) None))).
    cbn. auto.
  - apply (H1 (Build_EnumVal "Weapon" 2
                 (Build_Type BASE_TYPE_STRUCT BASE_TYPE_NONE
                             (Some (table_ref "Weapon")) None))).
    cbn. auto.
  - apply H2. cbn. intros ev [<-|[<-|[]]]; cbn; discriminate.
Defined.

(** ** Accessors: when absence shows in the return type *)

(** The scalar categories; the other tags are the reference types. *)
Definition scalar_tag (ft : FullType) : bool :=
  match ft with
  | ftInteger | ftFloat | ftBool | ftEnumKey | ftUnionKey => true
  | _ => false
  end.

Lemma GetFullType_vector_inv (t : Type_) (ft : FullType) :
  IsVector t = true -> GetFullType t = Ok ft ->
  exists fe, GetFullType (VectorType t) = Ok fe /\ vector_of fe = Ok ft.
Proof.
  intros Hv. rewrite (GetFullType_vector _ Hv).
  destruct (GetFullType (VectorType t)) as [fe|]; [|discriminate].
  simpl. eauto.
Qed.

Lemma GetFullType_not_vector_tag (t : Type_) (ft : FullType) :
  IsVector t = false -> GetFullType t = Ok ft ->
  match ft with
  | ftStruct | ftTable => exists sd, struct_def t = Some sd
  | ftEnumKey | ftUnionKey | ftUnionValue => exists ed, enum_def t = Some ed
  | ftInteger | ftFloat | ftBool | ftString => True
  | _ => False
  end.
Proof.
  intros Hv. rewrite GetFullType_equation, Hv.
  destruct (IsString t); [intros [= <-]; exact I|].
  destruct (BaseType_eqb (base_type t) BASE_TYPE_STRUCT).
  { destruct (struct_def t) as [sd|]; [|discriminate].
    destruct (fixed sd); intros [= <-]; eauto. }
  destruct (enum_def t) as [ed|].
  - destruct (is_union ed).
    + destruct (BaseType_eqb (base_type t) BASE_TYPE_UNION);
        [intros [= <-]; eauto|].
      destruct (IsInteger (base_type t)); [intros [= <-]; eauto|discriminate].
    + intros [= <-]; eauto.
  - destruct (IsScalar (base_type t)); [|discriminate].
    destruct (IsBool (base_type t)); [intros [= <-]; exact I|].
    destruct (IsInteger (base_type t)); [intros [= <-]; exact I|].
    destruct (IsFloat (base_type t)); [intros [= <-]; exact I|discriminate].
Qed.

Lemma IsVector_VectorType_tag (t : Type_) (fe ft : FullType) :
  GetFullType (VectorType t) = Ok fe -> vector_of fe = Ok ft ->
  IsVector (VectorType t) = false.
Proof.
  intros He Hv. destruct (IsVector (VectorType t)) eqn:E; [|reflexivity].
  destruct (GetFullType_vector_inv _ _ E He) as (fe' & _ & H).
  destruct fe'; simpl in H; try discriminate;
    injection H as <-; discriminate.
Qed.

(** The classifier never answers "vector of union values". *)
Lemma GetFullType_never_vector_of_union (t : Type_) :
  GetFullType t <> Ok ftVectorOfUnionValue.
Proof.
  intros H. destruct (IsVector t) eqn:Hv.
  - destruct (GetFullType_vector_inv _ _ Hv H) as (fe & _ & E).
    destruct fe; discriminate.
  - apply (GetFullType_not_vector_tag _ _ Hv H).
Qed.

(** The Rust name of a scalar type: that of its enum where it has one,
    else the Rust scalar of its base type. *)
Definition scalar_type_name (cur : Namespace) (t : Type_) : string :=
  match enum_def t with
  | Some ed => WrapInNameSpace_enum cur ed
  | None => ctypename (base_type t)
  end.

(** The declared default of a scalar field, as Rust text: the constant of
    an integer or a float, [false] for the constant 0 of a bool and [true]
    for any other, the qualified name of the enum value that the constant
    is the value of. *)
Definition declared_default (cur : Namespace) (f : FieldDef) (ft : FullType)
  : option string :=
  match ft with
  | ftInteger | ftFloat => Some (constant (value f))
  | ftBool =>
      Some (if String.eqb (constant (value f)) "0" then "false" else "true")
  | ftEnumKey | ftUnionKey =>
      match enum_def (type (value f)) with
      | Some ed =>
          match FindByValue ed (constant (value f)) with
          | Some ev =>
              Some (WrapInNameSpace cur (ed_defined_namespace ed)
                                    (Name_enum ed ++ "::" ++ Name_enumval ev))
          | None => None
          end
      | None => None
      end
  | _ => None
  end.

(** The vectors that an accessor hands out as a slice: the vectors of
    structs, and the vectors of scalars of one byte. *)
Definition accessor_slices (ft : FullType) (t : Type_) : bool :=
  match ft with
  | ftVectorOfStruct => true
  | ftVectorOfBool | ftVectorOfFloat | ftVectorOfInteger =>
      IsOneByte (base_type (VectorType t))
  | _ => false
  end.

Definition vector_tag (ft : FullType) : bool :=
  match ft with
  | ftVectorOfInteger | ftVectorOfFloat | ftVectorOfBool
  | ftVectorOfEnumKey | ftVectorOfStruct | ftVectorOfTable
  | ftVectorOfString | ftVectorOfUnionValue => true
  | _ => false
  end.

(** The Rust name of the element of a vector, as the return type of the
    accessor writes it, and ([in_read]) as the type read from the table
    writes it: they differ for a table, which has its lifetime in the
    return type only. *)
Definition vector_element (cur : Namespace) (t : Type_) (lifetime : string)
           (ft : FullType) (in_read : bool) : option string :=
  match ft with
  | ftVectorOfInteger | ftVectorOfFloat | ftVectorOfBool =>
      Some (scalar_type_name cur (VectorType t))
  | ftVectorOfEnumKey =>
      match enum_def t with
      | Some ed => Some (WrapInNameSpace_enum cur ed)
      | None => None
      end
  | ftVectorOfStruct =>
      match struct_def t with
      | Some sd => Some (WrapInNameSpace_struct cur sd)
      | None => None
      end
  | ftVectorOfTable =>
      match struct_def t with
      | Some sd =>
          Some ("flatbuffers::ForwardsUOffset<" ++
                WrapInNameSpace_struct cur sd ++
                (if in_read then "" else "<" ++ lifetime ++ ">") ++ ">")
      | None => None
      end
  | ftVectorOfString =>
      Some ("flatbuffers::ForwardsUOffset<&" ++ lifetime ++ " str>")
  | _ => None
  end.

(** The Rust type of a vector in the return type of its accessor: a slice
    or a [flatbuffers::Vector] of the element. *)
Definition vector_type_name (ft : FullType) (t : Type_) (lifetime : string)
           (elem : string) : string :=
  if accessor_slices ft t then "&" ++ lifetime ++ " [" ++ elem ++ "]"
  else "flatbuffers::Vector<" ++ lifetime ++ ", " ++ elem ++ ">".

(** The Rust name of a reference type, with no absence wrapper. *)
Definition reference_type_name (cur : Namespace) (t : Type_)
           (lifetime : string) (ft : FullType) : option string :=
  match ft with
  | ftStruct =>
      match struct_def t with
      | Some sd => Some ("&" ++ lifetime ++ " " ++ WrapInNameSpace_struct cur sd)
      | None => None
      end
  | ftTable =>
      match struct_def t with
      | Some sd =>
          Some (WrapInNameSpace_struct cur sd ++ "<" ++ lifetime ++ ">")
      | None => None
      end
  | ftUnionValue => Some ("flatbuffers::Table<" ++ lifetime ++ ">")
  | ftString => Some ("&" ++ lifetime ++ " str")
  | ftInteger | ftFloat | ftBool | ftEnumKey | ftUnionKey => None
  | _ =>
      match vector_element cur t lifetime ft false with
      | Some elem => Some (vector_type_name ft t lifetime elem)
      | None => None
      end
  end.

Lemma GetTypeBasic_scalar_name (cur : Namespace) (t : Type_) (ft : FullType) :
  GetFullType t = Ok ft -> scalar_tag ft = true ->
  GetTypeBasic cur t = Ok (scalar_type_name cur t).
Proof.
  intros H Hs. unfold GetTypeBasic, scalar_type_name. rewrite H. cbn [bind].
  destruct ft; try discriminate; destruct (enum_def t); reflexivity.
Qed.

(** What the classifier tells of a type from its tag: a vector tag is that
    of a vector, whose element has the matching tag and is no vector. *)
Lemma GetFullType_tag_inv (t : Type_) (ft : FullType) :
  GetFullType t = Ok ft ->
  if vector_tag ft then
    IsVector t = true /\
    exists fe, GetFullType (VectorType t) = Ok fe /\ vector_of fe = Ok ft /\
               match fe with
               | ftStruct | ftTable => exists sd, struct_def t = Some sd
               | ftEnumKey => exists ed, enum_def t = Some ed
               | _ => True
               end
  else
    IsVector t = false /\
    match ft with
    | ftStruct | ftTable => exists sd, struct_def t = Some sd
    | ftEnumKey | ftUnionKey | ftUnionValue => exists ed, enum_def t = Some ed
    | _ => True
    end.
Proof.
  intros H. destruct (IsVector t) eqn:Hv.
  - destruct (GetFullType_vector_inv _ _ Hv H) as (fe & He & Hf).
    pose proof (IsVector_VectorType_tag _ _ _ He Hf) as Hn.
    pose proof (GetFullType_not_vector_tag _ _ Hn He) as Ht.
    destruct fe; simpl in Hf; try discriminate;
      pose proof (Ok_inj _ _ Hf) as <-; cbn [vector_tag];
      (split; [reflexivity|]); eexists; (split; [exact He|]);
      (split; [reflexivity|]); try exact I; exact Ht.
  - pose proof (GetFullType_not_vector_tag _ _ Hv H) as Ht.
    destruct ft; try contradiction; cbn [vector_tag];
      (split; [reflexivity|]); try exact I; exact Ht.
Qed.

(** The return type of the accessor of a scalar field. *)
Lemma GenTableAccessorFuncReturnType_scalar (cur : Namespace) (f : FieldDef)
      (lifetime : string) (ft : FullType) :
  GetFullType (type (value f)) = Ok ft -> scalar_tag ft = true ->
  GenTableAccessorFuncReturnType cur f lifetime
  = Ok (if optional f
        then "Option<" ++ scalar_type_name cur (type (value f)) ++ ">"
        else scalar_type_name cur (type (value f))).
Proof.
  intros H Hs. unfold GenTableAccessorFuncReturnType. cbv zeta.
  rewrite H. cbn [bind].
  pose proof (GetFullType_tag_inv _ _ H) as Ht.
  destruct ft; try discriminate Hs; cbn [vector_tag] in Ht;
    try (rewrite (GetTypeBasic_scalar_name cur _ _ H eq_refl); reflexivity);
    destruct Ht as (_ & ed & Hed); unfold scalar_type_name; rewrite Hed;
    reflexivity.
Qed.

(** The return type of the accessor of a reference field. *)
Lemma GenTableAccessorFuncReturnType_reference (cur : Namespace)
      (f : FieldDef) (lifetime : string) (ft : FullType) :
  GetFullType (type (value f)) = Ok ft -> scalar_tag ft = false ->
  exists typname,
    reference_type_name cur (type (value f)) lifetime ft = Some typname /\
    GenTableAccessorFuncReturnType cur f lifetime
    = Ok (if required f then typname else "Option<" ++ typname ++ ">").
Proof.
  intros H Hs. unfold GenTableAccessorFuncReturnType. cbv zeta.
  rewrite H. cbn [bind].
  pose proof (GetFullType_tag_inv _ _ H) as Ht.
  destruct ft; try discriminate Hs; cbn [vector_tag] in Ht;
    unfold reference_type_name, vector_element, vector_type_name,
      accessor_slices, WrapInOptionIfNotRequired;
    try (destruct Ht as (_ & sd & ->); cbn [deref bind];
         eexists; split; reflexivity);
    try (eexists; split; reflexivity);
    destruct Ht as (_ & fe & He & Hf & Ht);
    destruct fe; try discriminate Hf;
    try (rewrite (GetTypeBasic_scalar_name cur _ _ He eq_refl); cbn [bind];
         destruct (IsOneByte _); eexists; split; reflexivity);
    try (destruct Ht as (d & ->); cbn [deref bind];
         eexists; split; [reflexivity|]; do 2 f_equal;
         rewrite ?append_assoc; reflexivity);
    try (eexists; split; [reflexivity|]; do 2 f_equal;
         rewrite ?append_assoc; reflexivity).
Qed.

Lemma FollowType_scalar_name (cur : Namespace) (t : Type_) (ft : FullType)
      (lifetime : string) :
  GetFullType t = Ok ft -> scalar_tag ft = true ->
  FollowType cur t lifetime = Ok (scalar_type_name cur t).
Proof.
  intros H Hs. unfold FollowType. cbv zeta. rewrite H. cbn [bind].
  pose proof (GetFullType_tag_inv _ _ H) as Ht.
  destruct ft; try discriminate Hs; cbn [vector_tag] in Ht;
    try (apply (GetTypeBasic_scalar_name cur _ _ H eq_refl));
    destruct Ht as (_ & ed & Hed); unfold scalar_type_name; rewrite Hed;
    reflexivity.
Qed.

Lemma GetDefaultScalarValue_declared (cur : Namespace) (f : FieldDef)
      (ft : FullType) :
  GetFullType (type (value f)) = Ok ft -> scalar_tag ft = true ->
  optional f = false ->
  match declared_default cur f ft with
  | Some d => GetDefaultScalarValue cur f = Ok d
  | None => is_Ok (GetDefaultScalarValue cur f) = false
  end.
Proof.
  intros H Hs Ho. unfold GetDefaultScalarValue, declared_default.
  rewrite H, Ho. cbn [bind].
  pose proof (GetFullType_tag_inv _ _ H) as Ht.
  destruct ft; try discriminate Hs; cbn [vector_tag] in Ht;
    try reflexivity;
    destruct Ht as (_ & ed & ->); cbn [deref bind];
    destruct (FindByValue ed (constant (value f))); reflexivity.
Qed.

(** C6: the accessor of a scalar field (integer, float, bool, enum key,
    union key) returns the bare name of the scalar type when the field is
    not optional, and the option of it when it is; a scalar field is never
    flagged required ("default-y fields (scalars so far) are neither
    optional nor required"), and the read of one that is not optional has
    its declared default folded in and is unwrapped.  The accessor of a
    reference field (struct, table, string, vector, union value) returns
    the option of the name of the reference type whenever the field is not
    required, optional or not, and the bare name when it is required. *)
Theorem GenTableAccessor_exposes_absence (cur : Namespace) (f : FieldDef)
        (lifetime : string) (ft : FullType) :
  GetFullType (type (value f)) = Ok ft ->
  (scalar_tag ft = true ->
   GenTableAccessorFuncReturnType cur f lifetime
   = Ok (if optional f
         then "Option<" ++ scalar_type_name cur (type (value f)) ++ ">"
         else scalar_type_name cur (type (value f))) /\
   TableFieldReturnsOption f = Ok (optional f) /\
   (optional f = false -> required f = false ->
    match declared_default cur f ft with
    | Some d =>
        GenTableAccessorFuncBody cur f lifetime
        = Ok ("self._tab.get::<" ++ scalar_type_name cur (type (value f)) ++
              ">({{STRUCT_NAME}}::" ++ GetFieldOffsetName f ++
              ", Some(" ++ d ++ ")).unwrap()")
    | None => is_Ok (GenTableAccessorFuncBody cur f lifetime) = false
    end)) /\
  (scalar_tag ft = false ->
   exists typname,
     reference_type_name cur (type (value f)) lifetime ft = Some typname /\
     GenTableAccessorFuncReturnType cur f lifetime
     = Ok (if required f then typname else "Option<" ++ typname ++ ">") /\
     TableFieldReturnsOption f = Ok true).
Proof.
  intros H. split.
  - intros Hs.
    split; [exact (GenTableAccessorFuncReturnType_scalar cur f lifetime ft H Hs)|].
    split.
    + unfold TableFieldReturnsOption. rewrite H.
      destruct (optional f); [reflexivity|].
      destruct ft; try discriminate; reflexivity.
    + intros Ho Hr.
      pose proof (GetDefaultScalarValue_declared cur f ft H Hs Ho) as Hd.
      unfold GenTableAccessorFuncBody. cbv zeta.
      rewrite (FollowType_scalar_name cur _ _ lifetime H Hs), Ho, Hr, H.
      cbn [bind orb negb].
      destruct (declared_default cur f ft) as [d|].
      * rewrite Hd. cbn [bind].
        destruct ft; try discriminate Hs; do 2 f_equal;
          rewrite ?append_assoc; reflexivity.
      * destruct (GetDefaultScalarValue cur f); [discriminate|reflexivity].
  - intros Hs.
    destruct (GenTableAccessorFuncReturnType_reference cur f lifetime ft H Hs)
      as (typname & Hn & Hrt).
    exists typname. split; [exact Hn|]. split; [exact Hrt|].
    unfold TableFieldReturnsOption. rewrite H.
    destruct (optional f); [reflexivity|].
    destruct ft; try discriminate; reflexivity.
Qed.

Lemma GenTableAccessor_exposes_absence_witness :
  let cur := {| components := [] |} in
  let f := scalar_field "mana" BASE_TYPE_SHORT in
  GetFullType (type (value f)) = Ok ftInteger /\
  GenTableAccessorFuncReturnType cur f "'a" = Ok "i16" /\
  TableFieldReturnsOption f = Ok false /\
  (optional f = false -> required f = false ->
   GenTableAccessorFuncBody cur f "'a"
   = Ok "self._tab.get::<i16>({{STRUCT_NAME}}::VT_MANA, Some(0)).unwrap()").
Proof.
  split; [reflexivity|].
  apply (GenTableAccessor_exposes_absence
           {| components := [] |} (scalar_field "mana" BASE_TYPE_SHORT)
           "'a" ftInteger);
    reflexivity.
Defined.

(** ** Unsupported vectors, in a build with assertions and in one without *)

Lemma GetDefaultScalarValue_abort (cur : Namespace) (f : FieldDef) :
  is_Ok (GetFullType (type (value f))) = false ->
  is_Ok (GetDefaultScalarValue cur f) = false.
Proof.
  unfold GetDefaultScalarValue.
  destruct (GetFullType (type (value f))); [discriminate|reflexivity].
Qed.

Lemma is_Ok_bind_l {A B : Type} (r : Result A) (k : A -> Result B) :
  is_Ok r = false -> is_Ok (bind r k) = false.
Proof. destruct r; [discriminate|reflexivity]. Qed.

Lemma is_Ok_bind_r {A B : Type} (r : Result A) (k : A -> Result B) :
  (forall a, is_Ok (k a) = false) -> is_Ok (bind r k) = false.
Proof. destruct r; simpl; auto. Qed.

Lemma GenTable_create_adds_abort (cur : Namespace) (struct_def : StructDef)
      (f : FieldDef) :
  In f (fields struct_def) -> deprecated f = false ->
  is_Ok (GetFullType (type (value f))) = false ->
  is_Ok (GenTable_create_adds cur struct_def) = false.
Proof.
  intros Hin Hd Ha. unfold GenTable_create_adds.
  apply is_Ok_bind_l.
  assert (Hs : exists s l, size_loop (if sortbysize struct_def
                                      then sizeof_largest_scalar_t else 1)
                           = s :: l).
  { destruct (sortbysize struct_def).
    - exists 8%nat, [4; 2; 1]%nat. reflexivity.
    - exists 1%nat, []. reflexivity. }
  destruct Hs as (s & l & ->).
  apply (mapM_abort _ _ s); [now left|].
  apply (ForAllTableFields_abort _ _ _ _ f Hin Hd).
  now apply GetDefaultScalarValue_abort.
Qed.

(** The build with assertions is [GetFullType]. *)
Lemma GetFullType_build_assertions (t : Type_) :
  GetFullType_build true t = GetFullType t.
Proof.
  functional induction (GetFullType t);
    rewrite GetFullType_build_equation;
    repeat match goal with
           | H : ?x = _ |- context [?x] => rewrite H
           | H : GetFullType_build true _ = _ |- _ => rewrite H
           end;
    try reflexivity.
  destruct _x; try contradiction; reflexivity.
Qed.

(** Where [GetFullType] returns a tag, either build returns it: the builds
    differ only where an assertion fails. *)
Lemma GetFullType_build_Ok (assertions : bool) (t : Type_) (ft : FullType) :
  GetFullType t = Ok ft -> GetFullType_build assertions t = Ok ft.
Proof.
  destruct assertions; [now rewrite GetFullType_build_assertions|].
  revert ft.
  functional induction (GetFullType t);
    rewrite GetFullType_build_equation;
    repeat match goal with
           | H : ?x = _ |- context [?x] => rewrite H
           end;
    intros ft' H; try discriminate H;
    try exact H;
    try (match goal with
         | E : GetFullType _ = Ok _ |- _ => rewrite (IHr _ E)
         end; exact H).
Qed.

Lemma vector_of_union_default_tag (t : Type_) :
  vector_of_union t = true -> GetFullType_build false t = Ok ftBool.
Proof.
  unfold vector_of_union. intros H. apply andb_true_iff in H as [Hv H].
  destruct (element_tag (element t) (struct_def t) (enum_def t))
    as [fe|] eqn:He; [|discriminate].
  assert (Hi : GetFullType (VectorType t) = Ok fe).
  { apply GetFullType_not_vector.
    - unfold IsVector, VectorType. cbn.
      revert He. destruct (element t); cbn; congruence.
    - exact He. }
  apply (GetFullType_build_Ok false) in Hi.
  rewrite GetFullType_build_equation, Hv, Hi.
  unfold IsVector, IsString in *.
  destruct (base_type t); try discriminate. cbn.
  destruct fe; try discriminate; reflexivity.
Qed.

Lemma vector_of_vector_default_tag (t : Type_) :
  vector_of_vector t = true -> GetFullType_build false t = Ok ftBool.
Proof.
  unfold vector_of_vector. intros H. apply andb_true_iff in H as [Hv He].
  destruct t as [b e sd ed]. unfold IsVector in Hv. cbn in *.
  destruct b; try discriminate. destruct e; try discriminate.
  rewrite GetFullType_build_equation. cbn.
  rewrite GetFullType_build_equation. cbn.
  rewrite GetFullType_build_equation. cbn.
  destruct ed as [d|]; cbn; [destruct (is_union d)|]; reflexivity.
Qed.

(** A vector of union values, and a vector of vectors. *)
Definition vector_of_any : Type_ :=
  Build_Type BASE_TYPE_VECTOR BASE_TYPE_UNION None (Some any_union).

Definition vector_of_vectors : Type_ :=
  Build_Type BASE_TYPE_VECTOR BASE_TYPE_VECTOR None None.

(** Against C2 as stated: built without assertions, the classifier returns
    the default tag [ftBool] on a vector of union values, and on a vector of
    vectors. *)
Lemma GetFullType_build_returns_default_tag :
  vector_of_union vector_of_any = true /\
  GetFullType_build false vector_of_any = Ok ftBool /\
  vector_of_vector vector_of_vectors = true /\
  GetFullType_build false vector_of_vectors = Ok ftBool.
Proof.
  split; [reflexivity|]. split.
  - apply vector_of_union_default_tag. reflexivity.
  - split; [reflexivity|]. apply vector_of_vector_default_tag. reflexivity.
Qed.

(** C2 (amended): on a vector of union keys or values, or a vector of
    vectors, the classifier built with assertions stops on a failed
    assertion (there is no other error value) and returns no tag, and the
    emission of a table stops with it when such a type is the type of one of
    its fields that are not deprecated; the classifier built without
    assertions returns the default tag [ftBool] on every such type. *)
Theorem vector_of_union_or_vector_by_build (t : Type_) :
  (vector_of_union t = true ->
   GetFullType_build true t
   = Abort (AssertionFailed "vectors of unions are unsupported") /\
   GetFullType_build false t = Ok ftBool) /\
  (vector_of_vector t = true ->
   (GetFullType_build true t
    = Abort (AssertionFailed "vector of vectors are unsupported") \/
    GetFullType_build true t
    = Abort (AssertionFailed "unknown union field type") \/
    GetFullType_build true t
    = Abort (AssertionFailed "completely unknown type")) /\
   GetFullType_build false t = Ok ftBool) /\
  (vector_of_union t || vector_of_vector t = true ->
   GetFullType t = GetFullType_build true t /\
   is_Ok (GetFullType t) = false /\
   (forall ft, GetFullType t <> Ok ft) /\
   forall cur struct_def f,
     In f (fields struct_def) -> deprecated f = false ->
     type (value f) = t ->
     is_Ok (GenTableAccessorFuncReturnType cur f "'a") = false /\
     is_Ok (GenTableAccessorFuncBody cur f "'a") = false /\
     is_Ok (GenTable_create cur struct_def) = false /\
     is_Ok (GenTable_verifier cur struct_def) = false /\
     is_Ok (GenTable_finish cur struct_def) = false).
Proof.
  split.
  { intros H. split; [|now apply vector_of_union_default_tag].
    rewrite GetFullType_build_assertions. now apply vector_of_union_aborts. }
  split.
  { intros H. split; [|now apply vector_of_vector_default_tag].
    rewrite !GetFullType_build_assertions.
    now apply vector_of_vector_aborts. }
  intros H.
  assert (Ha : is_Ok (GetFullType t) = false).
  { apply orb_true_iff in H as [H|H].
    - now rewrite (vector_of_union_aborts _ H).
    - destruct (vector_of_vector_aborts _ H) as [E|[E|E]]; now rewrite E. }
  split; [now rewrite GetFullType_build_assertions|].
  split; [exact Ha|]. split.
  { intros ft E. rewrite E in Ha. discriminate. }
  intros cur struct_def f Hin Hd <-.
  pose proof (GetDefaultScalarValue_abort cur f Ha) as Hdv.
  repeat split.
  - unfold GenTableAccessorFuncReturnType. now apply is_Ok_bind_l.
  - unfold GenTableAccessorFuncBody, FollowType.
    apply is_Ok_bind_l. now apply is_Ok_bind_l.
  - unfold GenTable_create. apply is_Ok_bind_r. intros b.
    apply is_Ok_bind_l. now apply (GenTable_create_adds_abort _ _ f).
  - unfold GenTable_verifier. apply is_Ok_bind_l.
    now apply (ForAllTableFields_abort _ _ _ _ f).
  - unfold GenTable_finish. apply is_Ok_bind_l.
    now apply (ForAllTableFields_abort _ _ _ _ f).
Qed.

Lemma vector_of_union_or_vector_by_build_witness :
  vector_of_union vector_of_any = true /\
  (GetFullType_build true vector_of_any
   = Abort (AssertionFailed "vectors of unions are unsupported") /\
   GetFullType_build false vector_of_any = Ok ftBool) /\
  vector_of_vector vector_of_vectors = true /\
  is_Ok (GetFullType vector_of_vectors) = false.
Proof.
  split; [reflexivity|]. split.
  - apply (vector_of_union_or_vector_by_build vector_of_any). reflexivity.
  - split; [reflexivity|].
    apply (vector_of_union_or_vector_by_build vector_of_vectors). reflexivity.
Defined.

(** ** The struct emitter: padding *)

(** Is [p] found somewhere in [s]? *)
Fixpoint contains (p s : string) : bool :=
  starts_with p s ||
  match s with
  | EmptyString => false
  | String _ r => contains p r
  end.



















(** A struct of one byte, three bytes of padding, and a 4-byte integer. *)
Definition padded_field (name : string) (b : BaseType) (pad : nat) : FieldDef :=
  {| fd_name := name;
     value := {| type := Build_Type b BASE_TYPE_NONE None None;
                 constant := "0"; offset := 0 |};
     deprecated := false; required := false; optional := false;
     key := false; padding := pad; fd_doc_comment := [] |}.








(** *** The run of the generated constructor *)



























(* ===================================================================== *)
(** * Part III: further properties of the generator                        *)
(* ===================================================================== *)

(** ** Case conversion *)

Fixpoint string_map (f : ascii -> ascii) (s : string) : string :=
  match s with
  | EmptyString => ""
  | String c r => String (f c) (string_map f r)
  end.

(** The string without its underscores. *)
Fixpoint without_underscores (s : string) : string :=
  match s with
  | EmptyString => ""
  | String c r =>
      if Ascii.eqb c "_" then without_underscores r
      else String c (without_underscores r)
  end.

Lemma without_underscores_append (a b : string) :
  without_underscores (a ++ b) = without_underscores a ++ without_underscores b.
Proof.
  induction a as [|c a IH]; simpl; [reflexivity|].
  destruct (Ascii.eqb c "_"); simpl; now rewrite IH.
Qed.

Lemma CharToLower_underscore (c : ascii) :
  Ascii.eqb (CharToLower c) "_" = Ascii.eqb c "_".
Proof. by_ascii c. Qed.

Lemma CharToLower_lower (c : ascii) : islower c = true -> CharToLower c = c.
Proof. intros H. apply CharToLower_other, islower_not_upper, H. Qed.

Lemma snake_piece_letters (prev c : ascii) :
  without_underscores (snake_piece prev c) =
  if Ascii.eqb c "_" then "" else String (CharToLower c) "".
Proof.
  unfold snake_piece. destruct (Ascii.eqb c "_") eqn:E; [reflexivity|].
  destruct (islower c) eqn:L; simpl.
  - rewrite E. now rewrite (CharToLower_lower _ L).
  - destruct (islower prev); simpl; now rewrite CharToLower_underscore, E.
Qed.

Lemma snake_tail_letters (rest : string) (prev : ascii) :
  without_underscores (snake_tail prev rest) =
  string_map CharToLower (without_underscores rest).
Proof.
  revert prev. induction rest as [|c r IH]; intros prev; simpl; [reflexivity|].
  rewrite without_underscores_append, snake_piece_letters, IH.
  destruct (Ascii.eqb c "_"); reflexivity.
Qed.

Lemma snake_piece_length (prev c : ascii) :
  (1 <= String.length (snake_piece prev c) <= 2)%nat.
Proof.
  unfold snake_piece. destruct (Ascii.eqb c "_"); simpl; [lia|].
  destruct (islower c); simpl; [lia|]. destruct (islower prev); simpl; lia.
Qed.

Lemma snake_tail_length (rest : string) (prev : ascii) :
  (String.length rest <= String.length (snake_tail prev rest)
   <= 2 * String.length rest)%nat.
Proof.
  revert prev. induction rest as [|c r IH]; intros prev; simpl; [lia|].
  rewrite length_append. pose proof (snake_piece_length prev c).
  specialize (IH c). lia.
Qed.

(** X1: [MakeSnakeCase] changes a name in two ways only: it lower-cases
    letters and it inserts underscores.  Without the underscores, the
    output is the lower-cased input without its underscores; no character
    is dropped, and the output is at most twice as long as the input, less
    one. *)
Theorem MakeSnakeCase_only_inserts_underscores (s : string) :
  without_underscores (MakeSnakeCase s)
  = string_map CharToLower (without_underscores s) /\
  (String.length s <= String.length (MakeSnakeCase s)
   <= 2 * String.length s - 1)%nat.
Proof.
  rewrite MakeSnakeCase_snake. destruct s as [|c r]; simpl; [split; [reflexivity|lia]|].
  rewrite CharToLower_underscore, snake_tail_letters.
  split; [now destruct (Ascii.eqb c "_")|].
  pose proof (snake_tail_length r c). lia.
Qed.

(** The names that [MakeSnakeCase] leaves as they are: no uppercase letter,
    and every character after the first is an underscore, a lowercase
    letter, or a character without case that does not follow a lowercase
    letter. *)
Definition snake_case_stable (s : string) : bool :=
  match s with
  | EmptyString => true
  | String c r => negb (isupper c) && kept_from c r
  end.

(** X2: [MakeSnakeCase] returns its input unchanged exactly on the names
    that hold no uppercase letter and in which no character other than a
    letter or an underscore directly follows a lowercase letter (in
    [a1] an underscore is inserted before the digit). *)
Theorem MakeSnakeCase_fixed_iff (s : string) :
  MakeSnakeCase s = s <-> snake_case_stable s = true.
Proof.
  rewrite MakeSnakeCase_snake, snake_fixed. destruct s as [|c r]; simpl.
  - tauto.
  - rewrite andb_true_iff, negb_true_iff. tauto.
Qed.

Lemma MakeUpper_loop (rest pre acc : string) :
  fold_left (fun s i => push_back s (CharToUpper (char_at (pre ++ rest) i)))
            (seq (String.length pre) (String.length rest)) acc
  = acc ++ string_map CharToUpper rest.
Proof.
  revert pre acc. induction rest as [|c r IH]; intros pre acc; simpl.
  - now rewrite append_nil_r.
  - rewrite char_at_middle.
    replace (pre ++ String c r) with ((pre ++ String c "") ++ r)
      by (rewrite append_assoc; reflexivity).
    replace (S (String.length pre)) with (String.length (pre ++ String c ""))
      by (rewrite length_append; simpl; lia).
    rewrite IH. unfold push_back. rewrite append_assoc. reflexivity.
Qed.

Lemma MakeUpper_map (s : string) : MakeUpper s = string_map CharToUpper s.
Proof. unfold MakeUpper. exact (MakeUpper_loop s "" ""). Qed.

Lemma string_map_append (f : ascii -> ascii) (a b : string) :
  string_map f (a ++ b) = string_map f a ++ string_map f b.
Proof. induction a as [|c a IH]; simpl; [reflexivity|now rewrite IH]. Qed.

Lemma CharToUpper_idem (c : ascii) : CharToUpper (CharToUpper c) = CharToUpper c.
Proof. by_ascii c. Qed.

Lemma CharToUpper_not_lower (c : ascii) : islower (CharToUpper c) = false.
Proof. by_ascii c. Qed.

(** X3: [MakeUpper] converts character by character: it distributes over
    concatenation, keeps the length, leaves no lowercase letter, and
    applying it twice is applying it once (unlike [MakeSnakeCase]). *)
Theorem MakeUpper_characterwise (a b : string) :
  MakeUpper (a ++ b) = MakeUpper a ++ MakeUpper b /\
  String.length (MakeUpper a) = String.length a /\
  string_forallb (fun c => negb (islower c)) (MakeUpper a) = true /\
  MakeUpper (MakeUpper a) = MakeUpper a.
Proof.
  rewrite !MakeUpper_map. split; [apply string_map_append|].
  split; [|split].
  - induction a as [|c a IH]; simpl; congruence.
  - induction a as [|c a IH]; simpl; [reflexivity|].
    now rewrite CharToUpper_not_lower, IH.
  - induction a as [|c a IH]; simpl; [reflexivity|].
    now rewrite CharToUpper_idem, IH.
Qed.

(** ** Reserved words *)

Definition is_keyword (name : string) : bool :=
  existsb (String.eqb name) keywords_.

Lemma is_keyword_In (name : string) :
  is_keyword name = true <-> In name keywords_.
Proof.
  unfold is_keyword. rewrite existsb_exists. split.
  - intros (k & Hk & E). apply String.eqb_eq in E. now subst.
  - intros H. exists name. split; [exact H|apply String.eqb_refl].
Qed.

Lemma append_inj_l (a b s : string) : a ++ s = b ++ s -> a = b.
Proof.
  revert b. induction a as [|x a IH]; intros [|y b] H; simpl in H.
  - reflexivity.
  - exfalso. apply (f_equal String.length) in H. simpl in H.
    rewrite length_append in H. lia.
  - exfalso. apply (f_equal String.length) in H. simpl in H.
    rewrite length_append in H. lia.
  - injection H as -> H. f_equal. now apply IH.
Qed.

(** No keyword is another keyword followed by an underscore. *)
Lemma keyword_underscore (k : string) :
  is_keyword k = true -> is_keyword (k ++ "_") = false.
Proof.
  intros H. apply is_keyword_In in H.
  assert (A : forallb (fun k => negb (is_keyword (k ++ "_"))) keywords_ = true)
    by (vm_compute; reflexivity).
  rewrite forallb_forall in A. specialize (A k H).
  now apply negb_true_iff in A.
Qed.

(** X4: the name that [EscapeKeyword] returns is never one of the reserved
    words: a name that is not reserved is returned as it is, and a reserved
    word followed by an underscore is not reserved. *)
Theorem EscapeKeyword_never_reserved (name : string) :
  is_keyword (EscapeKeyword name) = false /\
  (EscapeKeyword name = name <-> is_keyword name = false).
Proof.
  unfold EscapeKeyword. fold (is_keyword name).
  destruct (is_keyword name) eqn:K.
  - split; [now apply keyword_underscore|].
    split; [|discriminate]. intros E. exfalso.
    apply (f_equal String.length) in E. rewrite length_append in E.
    simpl in E. lia.
  - split; [exact K|tauto].
Qed.

(** X5: [EscapeKeyword] maps two different names to the same name exactly
    when one of them is a reserved word and the other is that word followed
    by an underscore (a field [type] and a field [type_] are both named
    [type_]). *)
Theorem EscapeKeyword_collisions (a b : string) :
  EscapeKeyword a = EscapeKeyword b <->
  a = b \/
  (is_keyword a = true /\ b = a ++ "_") \/
  (is_keyword b = true /\ a = b ++ "_").
Proof.
  unfold EscapeKeyword. fold (is_keyword a) (is_keyword b).
  destruct (is_keyword a) eqn:Ka, (is_keyword b) eqn:Kb; split.
  - intros E. left. exact (append_inj_l _ _ _ E).
  - intros [->|[[_ ->]|[_ ->]]]; [reflexivity| |].
    + now rewrite (keyword_underscore _ Ka) in Kb.
    + now rewrite (keyword_underscore _ Kb) in Ka.
  - intros E. right. left. auto.
  - intros [->|[[_ ->]|[H _]]]; [congruence|reflexivity|discriminate].
  - intros E. right. right. auto.
  - intros [->|[[H _]|[_ ->]]]; [congruence|discriminate|reflexivity].
  - intros E. left. exact E.
  - intros [->|[[H _]|[H _]]]; [reflexivity|discriminate|discriminate].
Qed.

(** ** Qualified names *)

Lemma supers_length (k : nat) : String.length (supers k) = (7 * k)%nat.
Proof. induction k as [|k IH]; simpl; [reflexivity|]. simpl in IH. lia. Qed.

Lemma snake_path_nil_iff (l : list string) : snake_path l = "" <-> l = [].
Proof.
  split; [|now intros ->]. destruct l as [|d l]; [reflexivity|].
  unfold snake_path. simpl. intros E.
  apply (f_equal String.length) in E. rewrite !length_append in E.
  simpl in E. lia.
Qed.

Lemma longest_common_prefix_all (a b : list string) :
  common_prefix_length a b = List.length a ->
  skipn (common_prefix_length a b) b = [] -> a = b.
Proof.
  revert b. induction a as [|x a IH]; intros [|y b]; simpl; try congruence.
  destruct (String.eqb x y) eqn:E; [|discriminate].
  apply String.eqb_eq in E. subst y. intros H1 H2. f_equal.
  apply IH; [lia|exact H2].
Qed.

Lemma GetRelativeNamespaceTraversal_empty_iff (src dst : Namespace) :
  GetRelativeNamespaceTraversal src dst = "" <->
  components src = components dst.
Proof.
  rewrite GetRelativeNamespaceTraversal_eq. cbv zeta.
  pose proof (common_prefix_length_longest (components src) (components dst))
    as (_ & L1 & _ & _).
  split.
  - intros E.
    assert (E' := f_equal String.length E).
    rewrite length_append, supers_length in E'. simpl in E'.
    assert (Hs : snake_path
                   (skipn (common_prefix_length (components src)
                                                (components dst))
                          (components dst)) = "").
    { destruct (snake_path _); [reflexivity|simpl in E'; lia]. }
    apply snake_path_nil_iff in Hs.
    apply longest_common_prefix_all; [lia|exact Hs].
  - intros ->. rewrite common_prefix_length_refl, Nat.sub_diag.
    now rewrite skipn_all.
Qed.

(** X6: [WrapInNameSpace] leaves a name bare exactly when the definition
    lives in the namespace that is open; in every other namespace the name
    gets a prefix that is not empty.  The absolute traversal of a namespace
    is the relative traversal from the root, after two colons. *)
Theorem WrapInNameSpace_bare_iff (cur ns : Namespace) (name : string) :
  (WrapInNameSpace cur ns name = name <-> components cur = components ns) /\
  (components cur <> components ns ->
   exists prefix, prefix <> "" /\
                  WrapInNameSpace cur ns name = prefix ++ name) /\
  GetAbsoluteNamespaceTraversal ns
  = "::" ++ GetRelativeNamespaceTraversal {| components := [] |} ns.
Proof.
  unfold WrapInNameSpace.
  destruct (Namespace_eqb cur ns) eqn:E.
  - apply Namespace_eqb_eq in E. subst ns.
    split; [tauto|]. split; [congruence|].
    now rewrite GetAbsoluteNamespaceTraversal_eq,
                GetRelativeNamespaceTraversal_eq.
  - assert (N : components cur <> components ns).
    { intros H. unfold Namespace_eqb in E.
      rewrite H in E. rewrite (proj2 (strings_eqb_eq _ _) eq_refl) in E.
      discriminate. }
    split; [|split].
    + split; [|contradiction]. intros H. exfalso. apply N.
      apply GetRelativeNamespaceTraversal_empty_iff.
      apply (append_inj_l _ "" name). exact H.
    + intros _. exists (GetRelativeNamespaceTraversal cur ns).
      split; [|reflexivity].
      now rewrite GetRelativeNamespaceTraversal_empty_iff.
    + now rewrite GetAbsoluteNamespaceTraversal_eq,
                  GetRelativeNamespaceTraversal_eq.
Qed.

(** *** Following a qualified name *)

(** The segments of a path and the name that ends it: the path is cut at
    each pair of colons. *)
Fixpoint split_path (seg s : string) : list string * string :=
  match s with
  | EmptyString => ([], seg)
  | String c r =>
      match r with
      | String c2 r2 =>
          if Ascii.eqb c ":" && Ascii.eqb c2 ":" then
            let (segs, leaf) := split_path "" r2 in (seg :: segs, leaf)
          else split_path (seg ++ String c "") r
      | EmptyString => ([], seg ++ String c "")
      end
  end.

(** The module that the segments lead to from the module [here] (outermost
    component first): [super] is the enclosing module, any other segment a
    module of that name inside. *)
Fixpoint follow_path (here : list string) (segs : list string)
  : option (list string) :=
  match segs with
  | [] => Some here
  | seg :: segs' =>
      if String.eqb seg "super" then
        match here with
        | [] => None
        | _ :: _ => follow_path (removelast here) segs'
        end
      else follow_path (here ++ [seg]) segs'
  end.

(** The module that [SetNameSpace] opens for a namespace. *)
Definition module_path (ns : Namespace) : list string :=
  map MakeSnakeCase (components ns).

Definition no_colon (s : string) : bool :=
  string_forallb (fun c => negb (Ascii.eqb c ":")) s.

Lemma split_path_leaf (name seg : string) :
  no_colon name = true -> split_path seg name = ([], seg ++ name).
Proof.
  revert seg. induction name as [|c r IH]; intros seg H; simpl.
  - now rewrite append_nil_r.
  - unfold no_colon in H. simpl in H. apply andb_true_iff in H as [Hc Hr].
    apply negb_true_iff in Hc. destruct r as [|c2 r2].
    + reflexivity.
    + rewrite Hc. cbn [andb]. rewrite IH by exact Hr.
      now rewrite append_assoc.
Qed.

Lemma split_path_segment (d rest seg : string) :
  no_colon d = true ->
  split_path seg (d ++ "::" ++ rest)
  = (let (segs, leaf) := split_path "" rest in ((seg ++ d) :: segs, leaf)).
Proof.
  revert seg. induction d as [|c r IH]; intros seg H.
  - simpl. now rewrite append_nil_r.
  - unfold no_colon in H. simpl in H. apply andb_true_iff in H as [Hc Hr].
    apply negb_true_iff in Hc.
    change (String c r ++ "::" ++ rest) with (String c (r ++ "::" ++ rest)).
    cbn [split_path]. specialize (IH (seg ++ String c "") Hr).
    destruct (r ++ "::" ++ rest) as [|c2 r2] eqn:E.
    + exfalso. apply (f_equal String.length) in E.
      rewrite length_append in E. simpl in E. lia.
    + rewrite Hc. cbn [andb]. rewrite IH.
      destruct (split_path "" rest). now rewrite append_assoc.
Qed.

Lemma split_path_snake_path (l : list string) (name : string) :
  forallb no_colon (map MakeSnakeCase l) = true -> no_colon name = true ->
  split_path "" (snake_path l ++ name) = (map MakeSnakeCase l, name).
Proof.
  intros Hl Hn. induction l as [|d l IH]; simpl.
  - now rewrite split_path_leaf.
  - simpl in Hl. apply andb_true_iff in Hl as [Hd Hl].
    unfold snake_path in *. simpl. rewrite !append_assoc.
    rewrite (split_path_segment (MakeSnakeCase d)) by exact Hd.
    now rewrite IH.
Qed.

Lemma split_path_supers (k : nat) (s : string) :
  split_path "" (supers k ++ s)
  = (let (segs, leaf) := split_path "" s in (repeat "super" k ++ segs, leaf))%list.
Proof.
  induction k as [|k IH].
  - simpl. now destruct (split_path "" s).
  - change (supers (S k) ++ s) with ("super" ++ "::" ++ (supers k ++ s)).
    rewrite (split_path_segment "super") by reflexivity.
    rewrite IH. now destruct (split_path "" s).
Qed.

Lemma follow_path_supers (k : nat) (here segs : list string) :
  (k <= List.length here)%nat ->
  follow_path here (repeat "super" k ++ segs)
  = follow_path (firstn (List.length here - k) here) segs.
Proof.
  revert here. induction k as [|k IH]; intros here H; simpl.
  - now rewrite Nat.sub_0_r, firstn_all.
  - destruct here as [|x here]; [simpl in H; lia|].
    rewrite IH.
    + f_equal. rewrite removelast_firstn_len.
      rewrite firstn_firstn. f_equal.
      rewrite length_firstn. simpl List.length in *. lia.
    + rewrite removelast_firstn_len, length_firstn. simpl List.length in *.
      lia.
Qed.

Lemma follow_path_down (segs here : list string) :
  forallb (fun s => negb (String.eqb s "super")) segs = true ->
  follow_path here segs = Some (here ++ segs)%list.
Proof.
  revert here. induction segs as [|s segs IH]; intros here H; simpl.
  - now rewrite app_nil_r.
  - simpl in H. apply andb_true_iff in H as [Hs H].
    apply negb_true_iff in Hs. rewrite Hs, IH by exact H.
    now rewrite <- app_assoc.
Qed.

(** X7: a name qualified by [WrapInNameSpace] leads where it should.  Read
    from the module of the open namespace [cur], the path in front of the
    name leads to the module of the namespace [ns] of the definition, and
    the name itself is left at the end, provided that the name and the
    module names of [ns] hold no colon and no module of [ns] is called
    [super]. *)
Theorem WrapInNameSpace_leads_to_definition (cur ns : Namespace)
        (name : string) :
  no_colon name = true ->
  forallb no_colon (module_path ns) = true ->
  forallb (fun s => negb (String.eqb s "super")) (module_path ns) = true ->
  exists segs,
    split_path "" (WrapInNameSpace cur ns name) = (segs, name) /\
    follow_path (module_path cur) segs = Some (module_path ns).
Proof.
  intros Hn Hc Hs. unfold WrapInNameSpace.
  destruct (Namespace_eqb cur ns) eqn:E.
  - apply Namespace_eqb_eq in E. subst ns. exists [].
    split; [now rewrite split_path_leaf|reflexivity].
  - rewrite GetRelativeNamespaceTraversal_eq. cbv zeta.
    set (n := common_prefix_length (components cur) (components ns)).
    destruct (common_prefix_length_longest (components cur) (components ns))
      as (F & L1 & L2 & _). fold n in F, L1, L2.
    exists (repeat "super" (List.length (components cur) - n) ++
            map MakeSnakeCase (skipn n (components ns)))%list.
    unfold module_path in *.
    assert (Hc' : forallb no_colon
                    (map MakeSnakeCase (skipn n (components ns))) = true).
    { rewrite <- skipn_map. now apply forallb_skipn. }
    assert (Hs' : forallb (fun s => negb (String.eqb s "super"))
                    (map MakeSnakeCase (skipn n (components ns))) = true).
    { rewrite <- skipn_map. now apply forallb_skipn. }
    split.
    + rewrite append_assoc, split_path_supers.
      now rewrite split_path_snake_path.
    + rewrite follow_path_supers by (rewrite length_map; lia).
      rewrite follow_path_down by exact Hs'.
      f_equal. rewrite length_map.
      replace (List.length (components cur) -
               (List.length (components cur) - n))%nat with n by lia.
      rewrite firstn_map, F, <- firstn_map, <- skipn_map.
      apply firstn_skipn.
Qed.

Lemma WrapInNameSpace_leads_to_definition_witness :
  exists segs,
    split_path "" (WrapInNameSpace {| components := ["MyGame"; "Sample"] |}
                                   {| components := ["MyGame"; "OtherNs"] |}
                                   "Unit") = (segs, "Unit") /\
    follow_path ["my_game"; "sample"] segs = Some ["my_game"; "other_ns"].
Proof.
  apply (WrapInNameSpace_leads_to_definition
           {| components := ["MyGame"; "Sample"] |}
           {| components := ["MyGame"; "OtherNs"] |} "Unit");
    reflexivity.
Defined.

(** ** The arguments of the table builder *)

Ltac string_eq := repeat (cbn [append]; rewrite ?append_assoc); reflexivity.

(** X8: the member that the [Args] struct holds for a field and the
    parameter of the builder's [add_] function for it go together.  When the
    field has no absence wrapper ([TableFieldReturnsOption] is false) the
    two types are the same; when it has one, the member is an [Option] of
    the parameter type, except for a struct, which the member holds as an
    [Option] of a reference with the lifetime and the parameter takes as a
    plain reference. *)
Theorem TableBuilderArgs_member_and_parameter (cur : Namespace)
        (f : FieldDef) (lifetime defn : string) :
  TableBuilderArgsDefnType cur f lifetime = Ok defn ->
  exists ft add b,
    GetFullType (type (value f)) = Ok ft /\
    TableBuilderArgsAddFuncType cur f lifetime = Ok add /\
    TableFieldReturnsOption f = Ok b /\
    (b = false -> defn = add) /\
    (b = true -> ft <> ftStruct -> defn = "Option<" ++ add ++ ">") /\
    (ft = ftStruct ->
     b = true /\
     exists typname, add = "&" ++ typname /\
                     defn = "Option<&" ++ lifetime ++ " " ++ typname ++ ">").
Proof.
  unfold TableBuilderArgsDefnType, TableBuilderArgsAddFuncType,
         TableFieldReturnsOption.
  destruct (GetFullType (type (value f))) as [ft|] eqn:F; [|discriminate].
  cbn [bind]. cbv zeta. intros H. exists ft.
  destruct ft;
    repeat match type of H with
    | context [deref ?p] =>
        destruct p; cbn [deref bind] in H |- *; [|discriminate]
    | context [GetTypeBasic ?c ?t] =>
        destruct (GetTypeBasic c t); cbn [bind] in H |- *; [|discriminate]
    end;
    destruct (optional f); injection H as <-;
    do 2 eexists;
    (split; [reflexivity|]); (split; [reflexivity|]); (split; [reflexivity|]);
    (split; [intros; try discriminate; try reflexivity|]);
    (split; [intros; try discriminate; try congruence; try string_eq|]);
    intros; try discriminate;
    (split; [reflexivity|]); eexists; split; try reflexivity; string_eq.
Qed.

Lemma TableBuilderArgs_member_and_parameter_witness :
  exists ft add b,
    GetFullType (type (value union_value_field)) = Ok ft /\
    TableBuilderArgsAddFuncType my_game union_value_field "'a" = Ok add /\
    TableFieldReturnsOption union_value_field = Ok b /\
    b = true /\
    "Option<flatbuffers::WIPOffset<flatbuffers::UnionWIPOffset>>"
    = "Option<" ++ add ++ ">".
Proof.
  destruct (TableBuilderArgs_member_and_parameter
              my_game union_value_field "'a"
              "Option<flatbuffers::WIPOffset<flatbuffers::UnionWIPOffset>>"
              eq_refl)
    as (ft & add & b & Hft & Hadd & Hb & _ & Ho & _).
  exists ft, add, b. split; [exact Hft|]. split; [exact Hadd|].
  split; [exact Hb|].
  assert (Hb' : b = true) by (vm_compute in Hb; congruence).
  split; [exact Hb'|]. apply Ho; [exact Hb'|].
  vm_compute in Hft. congruence.
Defined.

(** X9: a field with an absence wrapper starts as [None].  When
    [TableFieldReturnsOption] holds of a field (it is optional, or not a
    scalar), the member of the [Args] struct is an [Option] and the value
    that [GetDefaultScalarValue] gives for the [Default] of the [Args]
    struct is [None], whatever default the schema declares. *)
Theorem TableBuilderArgs_default_none (cur : Namespace) (f : FieldDef)
        (lifetime defn : string) :
  TableFieldReturnsOption f = Ok true ->
  TableBuilderArgsDefnType cur f lifetime = Ok defn ->
  GetDefaultScalarValue cur f = Ok "None" /\
  starts_with "Option<" defn = true.
Proof.
  unfold TableBuilderArgsDefnType, TableFieldReturnsOption,
         GetDefaultScalarValue.
  destruct (GetFullType (type (value f))) as [ft|] eqn:F;
    [|destruct (optional f); discriminate].
  cbn [bind]. cbv zeta. intros Hb H.
  destruct ft;
    repeat match type of H with
    | context [deref ?p] =>
        destruct p; cbn [deref bind] in H |- *; [|discriminate]
    | context [GetTypeBasic ?c ?t] =>
        destruct (GetTypeBasic c t); cbn [bind] in H |- *; [|discriminate]
    end;
    destruct (optional f); try discriminate; injection H as <-;
    split; reflexivity.
Qed.

Lemma TableBuilderArgs_default_none_witness :
  GetDefaultScalarValue my_game union_value_field = Ok "None" /\
  starts_with "Option<"
    "Option<flatbuffers::WIPOffset<flatbuffers::UnionWIPOffset>>" = true.
Proof.
  apply (TableBuilderArgs_default_none my_game union_value_field "'a");
    reflexivity.
Defined.

Lemma expected_scalar_tag (t : Type_) (ft : FullType) :
  expected_tag t = Some ft ->
  scalar_tag ft = IsScalar (base_type t).
Proof.
  unfold expected_tag, element_tag.
  destruct (base_type t) eqn:B; try discriminate;
    try (destruct (enum_def t) as [e|]; [try destruct (is_union e)|];
         intros [= <-]; reflexivity);
    try (destruct (struct_def t) as [s|]; [destruct (fixed s)|];
         intros [= <-]; reflexivity);
    try (intros [= <-]; reflexivity).
  destruct (element t); try discriminate;
    destruct (struct_def t) as [s|]; try destruct (fixed s);
    destruct (enum_def t) as [e|]; try destruct (is_union e);
    cbn; intros H; try discriminate H; injection H as <-; reflexivity.
Qed.

(** X10: the builder's [add_] function passes a default exactly when the
    call takes one.  For a field of a representable type, a scalar field
    that is not optional is written by [push_slot], called with the offset
    constant, the value and the default; every other field is written by
    [push_slot_always], called with the offset constant and the value
    only. *)
Theorem GenTable_builder_field_arity (cur : Namespace) (struct_def : StructDef)
        (f : FieldDef) (v : TableFieldValues) (lines : list string) :
  representable (type (value f)) = true ->
  GenTable_builder_field cur struct_def f v = Ok lines ->
  exists ty body,
    TableBuilderArgsAddFuncType cur f "'b " = Ok ty /\
    TableBuilderArgsAddFuncBody cur f = Ok body /\
    lines =
    [ "  #[inline]";
      "  pub fn add_" ++ FIELD_NAME v ++ "(&mut self, " ++ FIELD_NAME v ++
      ": " ++ ty ++ ") {";
      if IsScalar (base_type (type (value f))) && negb (optional f) then
        "    " ++ body ++ "(" ++
        Name_struct struct_def ++ "::" ++ GetFieldOffsetName f ++ ", " ++
        FIELD_NAME v ++ ", " ++ DEFAULT_VALUE v ++ ");"
      else
        "    " ++ body ++ "(" ++
        Name_struct struct_def ++ "::" ++ GetFieldOffsetName f ++ ", " ++
        FIELD_NAME v ++ ");";
      "  }" ] /\
    starts_with
      (if IsScalar (base_type (type (value f))) && negb (optional f)
       then "self.fbb_.push_slot::<" else "self.fbb_.push_slot_always::<")
      body = true.
Proof.
  unfold representable. intros Hr.
  destruct (expected_tag (type (value f))) as [ft|] eqn:E; [|discriminate].
  pose proof (expected_scalar_tag _ _ E) as Hs.
  apply GetFullType_expected in E.
  unfold GenTable_builder_field. cbv zeta.
  destruct (TableBuilderArgsAddFuncType cur f "'b ") as [ty|];
    [|discriminate].
  cbn [bind].
  destruct (TableBuilderArgsAddFuncBody cur f) as [body|] eqn:B;
    [|discriminate].
  cbn [bind]. intros [= <-]. exists ty, body.
  split; [reflexivity|]. split; [reflexivity|].
  split; [destruct (IsScalar _ && negb _); string_eq|].
  rewrite <- Hs. revert B. unfold TableBuilderArgsAddFuncBody.
  rewrite E. cbn [bind]. cbv zeta. intros H.
  destruct ft;
    repeat match type of H with
    | context [deref ?p] =>
        destruct p; cbn [deref bind] in H |- *; [|discriminate]
    | context [GetTypeBasic ?c ?t] =>
        destruct (GetTypeBasic c t); cbn [bind] in H |- *; [|discriminate]
    end;
    cbn [scalar_tag andb];
    destruct (optional f); cbn [negb];
    injection H as <-; reflexivity.
Qed.

Definition example_values (f : FieldDef) (default_value : string)
  : TableFieldValues :=
  {| OFFSET_NAME := GetFieldOffsetName f;
     OFFSET_VALUE := NumToString (offset (value f));
     FIELD_NAME := Name_field f;
     DEFAULT_VALUE := default_value |}.

Lemma GenTable_builder_field_arity_witness :
  exists ty body,
    TableBuilderArgsAddFuncType my_game union_key_field "'b " = Ok ty /\
    TableBuilderArgsAddFuncBody my_game union_key_field = Ok body /\
    nth 2 [ "  #[inline]";
            "  pub fn add_equipped_type(&mut self, equipped_type: Any) {";
            "    self.fbb_.push_slot::<Any>(Hero::VT_EQUIPPED_TYPE, " ++
            "equipped_type, Any::NONE);";
            "  }" ] ""
    = "    " ++ body ++ "(Hero::VT_EQUIPPED_TYPE, equipped_type, Any::NONE);".
Proof.
  destruct (GenTable_builder_field_arity
              my_game table_with_union union_key_field
              (example_values union_key_field "Any::NONE")
              [ "  #[inline]";
                "  pub fn add_equipped_type(&mut self, equipped_type: Any) {";
                "    self.fbb_.push_slot::<Any>(Hero::VT_EQUIPPED_TYPE, " ++
                "equipped_type, Any::NONE);";
                "  }" ]
              eq_refl eq_refl)
    as (ty & body & Hty & Hbody & Hl & _).
  exists ty, body. split; [exact Hty|]. split; [exact Hbody|].
  rewrite Hl at 1. reflexivity.
Defined.

Lemma contains_start (p b : string) : contains p (p ++ b) = true.
Proof.
  destruct (p ++ b) eqn:E; simpl; rewrite <- E;
    now rewrite starts_with_append.
Qed.

Lemma contains_String (p : string) (c : ascii) (s : string) :
  contains p s = true -> contains p (String c s) = true.
Proof. intros H. simpl. rewrite H. apply orb_true_r. Qed.

Lemma contains_append_r (p a s : string) :
  contains p s = true -> contains p (a ++ s) = true.
Proof.
  intros H. induction a as [|c a IH]; [exact H|].
  now apply contains_String.
Qed.

Ltac find_contained :=
  repeat match goal with
  | |- contains ?p (?p ++ _) = true => apply contains_start
  | |- contains _ (String _ _) = true => apply contains_String
  | |- contains _ (_ ++ _) = true => apply contains_append_r
  end.

Lemma TableBuilderArgsNeedsLifetime_loop_false (l : list FieldDef) :
  TableBuilderArgsNeedsLifetime_loop l = Ok false ->
  forall f, In f l -> deprecated f = false ->
            TableBuilderTypeNeedsLifetime (type (value f)) = Ok false.
Proof.
  induction l as [|x l IH]; intros H f Hin Hd; [contradiction|].
  simpl in H. destruct Hin as [->|Hin].
  - rewrite Hd in H.
    destruct (TableBuilderTypeNeedsLifetime (type (value f))) as [[]|];
      simpl in H; congruence.
  - apply IH; auto. destruct (deprecated x); [exact H|].
    destruct (TableBuilderTypeNeedsLifetime (type (value x))) as [[]|];
      simpl in H; congruence.
Qed.

Lemma TableBuilderArgsNeedsLifetime_loop_true (l : list FieldDef) :
  TableBuilderArgsNeedsLifetime_loop l = Ok true ->
  exists f, In f l /\ deprecated f = false /\
            TableBuilderTypeNeedsLifetime (type (value f)) = Ok true.
Proof.
  induction l as [|x l IH]; intros H; [discriminate|].
  simpl in H. destruct (deprecated x) eqn:D.
  - destruct (IH H) as (f & Hin & Hd & Hf). exists f. simpl. auto.
  - destruct (TableBuilderTypeNeedsLifetime (type (value x))) as [[]|] eqn:E;
      simpl in H; [|destruct (IH H) as (f & Hin & Hd & Hf)|discriminate].
    + exists x. simpl. auto.
    + exists f. simpl. auto.
Qed.

Lemma TableBuilderArgsDefnType_no_lifetime (cur : Namespace) (f : FieldDef)
      (lifetime : string) :
  TableBuilderTypeNeedsLifetime (type (value f)) = Ok false ->
  TableBuilderArgsDefnType cur f lifetime = TableBuilderArgsDefnType cur f "'a".
Proof.
  unfold TableBuilderTypeNeedsLifetime, TableBuilderArgsDefnType.
  destruct (GetFullType (type (value f))) as [ft|]; [|discriminate].
  cbn [bind]. destruct ft; intros H; try discriminate; reflexivity.
Qed.

Lemma TableBuilderArgsDefnType_lifetime (cur : Namespace) (f : FieldDef)
      (lifetime defn : string) :
  TableBuilderTypeNeedsLifetime (type (value f)) = Ok true ->
  TableBuilderArgsDefnType cur f lifetime = Ok defn ->
  contains lifetime defn = true.
Proof.
  unfold TableBuilderTypeNeedsLifetime, TableBuilderArgsDefnType.
  destruct (GetFullType (type (value f))) as [ft|]; [|discriminate].
  cbn [bind]. cbv zeta. intros Hn H.
  destruct ft; try discriminate Hn;
    repeat match type of H with
    | context [deref ?p] =>
        destruct p; cbn [deref bind] in H |- *; [|discriminate]
    | context [GetTypeBasic ?c ?t] =>
        destruct (GetTypeBasic c t); cbn [bind] in H |- *; [|discriminate]
    end;
    injection H as <-; find_contained.
Qed.

(** X11: the [Args] struct declares its lifetime parameter exactly when a
    member needs it.  When [TableBuilderArgsNeedsLifetime] is false, the
    struct is declared without a parameter and the type of no member
    depends on the lifetime it is computed with; when it is true, the
    struct is declared with the parameter ['a] and the type of some member
    mentions ['a]. *)
Theorem GenTable_args_lifetime (cur : Namespace) (struct_def : StructDef)
        (lines : list string) :
  GenTable_args cur struct_def = Ok lines ->
  exists needs members,
    TableBuilderArgsNeedsLifetime struct_def = Ok needs /\
    lines =
    ("pub struct " ++ Name_struct struct_def ++ "Args" ++
     (if needs then "<'a>" else "") ++ " {")
    :: List.app members ["}"] /\
    (needs = false ->
     forall f lifetime,
       In f (fields struct_def) -> deprecated f = false ->
       TableBuilderArgsDefnType cur f lifetime
       = TableBuilderArgsDefnType cur f "'a") /\
    (needs = true ->
     exists f defn,
       In f (fields struct_def) /\ deprecated f = false /\
       TableBuilderArgsDefnType cur f "'a" = Ok defn /\
       contains "'a" defn = true /\
       In ("    pub " ++ Name_field f ++ ": " ++ defn ++ ",") members).
Proof.
  unfold GenTable_args. cbv zeta.
  destruct (TableBuilderArgsNeedsLifetime struct_def) as [needs|] eqn:N;
    [|discriminate].
  cbn [bind].
  destruct (ForAllTableFields cur struct_def _ false) as [members|] eqn:M;
    [|discriminate].
  cbn [bind]. intros [= <-]. exists needs, members.
  split; [reflexivity|]. split; [reflexivity|].
  unfold TableBuilderArgsNeedsLifetime in N.
  destruct (sd_fixed struct_def); [discriminate|].
  split.
  - intros -> f lifetime Hin Hd.
    apply TableBuilderArgsDefnType_no_lifetime.
    now apply (TableBuilderArgsNeedsLifetime_loop_false _ N).
  - intros ->.
    destruct (TableBuilderArgsNeedsLifetime_loop_true _ N)
      as (f & Hin & Hd & Hf).
    destruct (ForAllTableFields_inv _ _ _ _ _ f M Hin Hd)
      as (dv & b & c1 & c2 & _ & Hb & ->).
    cbn [field_values FIELD_NAME] in Hb.
    destruct (TableBuilderArgsDefnType cur f "'a") as [defn|] eqn:D;
      [|discriminate].
    cbn [bind] in Hb. injection Hb as <-.
    exists f, defn. repeat split; auto.
    + exact (TableBuilderArgsDefnType_lifetime cur f "'a" defn Hf D).
    + apply in_or_app. right. left. reflexivity.
Qed.

(** A table with a string field. *)
Definition table_with_name : StructDef :=
  {| sd_ref := table_ref "Hero";
     fields :=
       [ {| fd_name := "name";
            value := {| type := Build_Type BASE_TYPE_STRING BASE_TYPE_NONE
                                           None None;
                        constant := "0"; offset := 4 |};
            deprecated := false; required := false; optional := true;
            key := false; padding := 0; fd_doc_comment := [] |} ];
     sortbysize := true; minalign := 1;
     sd_doc_comment := []; sd_generated := false |}.

Lemma GenTable_args_lifetime_witness :
  exists needs members,
    TableBuilderArgsNeedsLifetime table_with_name = Ok needs /\
    [ "pub struct HeroArgs<'a> {";
      "    pub name: Option<flatbuffers::WIPOffset<&'a str>>,";
      "}" ]
    = ("pub struct " ++ Name_struct table_with_name ++ "Args" ++
       (if needs then "<'a>" else "") ++ " {")
      :: List.app members ["}"].
Proof.
  destruct (GenTable_args_lifetime
              my_game table_with_name
              [ "pub struct HeroArgs<'a> {";
                "    pub name: Option<flatbuffers::WIPOffset<&'a str>>,";
                "}" ]
              eq_refl)
    as (needs & members & Hn & Hl & _).
  exists needs, members. split; [exact Hn|exact Hl].
Defined.

(** ** Names that are reserved words *)

Lemma append_inj_r (p a b : string) : p ++ a = p ++ b -> a = b.
Proof. induction p as [|c p IH]; simpl; [auto|]. intros [= H]. auto. Qed.

Lemma WrapInNameSpace_inj (cur ns : Namespace) (a b : string) :
  WrapInNameSpace cur ns a = WrapInNameSpace cur ns b -> a = b.
Proof.
  unfold WrapInNameSpace. destruct (Namespace_eqb cur ns); [auto|].
  apply append_inj_r.
Qed.

Lemma EscapeKeyword_id_iff (name : string) :
  EscapeKeyword name = name <-> is_keyword name = false.
Proof.
  unfold EscapeKeyword. fold (is_keyword name).
  destruct (is_keyword name); split; try reflexivity; try discriminate.
  intros E. exfalso. apply (f_equal String.length) in E.
  rewrite length_append in E. simpl in E. lia.
Qed.

(** X12: [GetTypeGet], which names the field types in [GenStruct], refers
    to a struct by its raw name; the struct is declared, and referred to by
    [FollowType], under its escaped name.  The two references are the same
    exactly when the name of the struct is not a reserved word. *)
Theorem GetTypeGet_names_struct_unescaped (cur : Namespace) (t : Type_)
        (sd : StructRef) (lifetime : string) :
  GetFullType t = Ok ftStruct -> struct_def t = Some sd ->
  GetTypeGet cur t
  = Ok (WrapInNameSpace cur (sr_defined_namespace sd) (sr_name sd)) /\
  FollowType cur t lifetime
  = Ok (WrapInNameSpace cur (sr_defined_namespace sd)
                        (EscapeKeyword (sr_name sd))) /\
  (GetTypeGet cur t = FollowType cur t lifetime <->
   is_keyword (sr_name sd) = false).
Proof.
  intros F S. unfold GetTypeGet, FollowType. rewrite F, S. cbn [bind deref].
  unfold WrapInNameSpace_struct.
  split; [reflexivity|]. split; [reflexivity|].
  rewrite <- EscapeKeyword_id_iff. split.
  - intros [= H]. symmetry. exact (WrapInNameSpace_inj _ _ _ _ H).
  - intros ->. reflexivity.
Qed.

(** A struct named by a reserved word. *)
Definition struct_named_type : StructRef :=
  {| sr_name := "type"; sr_defined_namespace := my_game;
     fixed := true; bytesize := 4 |}.

Lemma GetTypeGet_names_struct_unescaped_witness :
  GetTypeGet my_game (Build_Type BASE_TYPE_STRUCT BASE_TYPE_NONE
                                 (Some struct_named_type) None)
  = Ok "type" /\
  FollowType my_game (Build_Type BASE_TYPE_STRUCT BASE_TYPE_NONE
                                 (Some struct_named_type) None) "'a"
  = Ok "type_".
Proof.
  destruct (GetTypeGet_names_struct_unescaped
              my_game
              (Build_Type BASE_TYPE_STRUCT BASE_TYPE_NONE
                          (Some struct_named_type) None)
              struct_named_type "'a" eq_refl eq_refl)
    as (H1 & H2 & _).
  split; [exact H1|exact H2].
Defined.

Lemma substring_skip (a s : string) :
  String.substring (String.length a) (String.length s) (a ++ s) = s.
Proof.
  induction a as [|c a IH]; simpl; [|exact IH].
  induction s as [|c s IH]; simpl; [reflexivity|now rewrite IH].
Qed.

Definition ends_with_type (k : string) : bool :=
  String.eqb (String.substring (String.length k - 5) 5 k) "_type".

(** No reserved word ends in [_type]. *)
Lemma type_suffix_not_keyword (name : string) :
  is_keyword (name ++ "_type") = false.
Proof.
  destruct (is_keyword (name ++ "_type")) eqn:K; [|reflexivity].
  apply is_keyword_In in K.
  assert (A : forallb (fun k => negb (ends_with_type k)) keywords_ = true)
    by (vm_compute; reflexivity).
  rewrite forallb_forall in A. specialize (A _ K).
  apply negb_true_iff in A. unfold ends_with_type in A.
  rewrite length_append in A.
  replace (String.length name + String.length "_type" - 5)%nat
    with (String.length name) in A by (simpl; lia).
  change 5%nat with (String.length "_type") in A.
  rewrite substring_skip in A. discriminate.
Qed.

Lemma MakeUpper_append (a b : string) :
  MakeUpper (a ++ b) = MakeUpper a ++ MakeUpper b.
Proof. rewrite !MakeUpper_map. apply string_map_append. Qed.

(** The constant that the table defines for the id of a field. *)
Definition field_id_line (g : FieldDef) : string :=
  "    pub const " ++ GetFieldOffsetName g ++ ": flatbuffers::VOffsetT = " ++
  NumToString (offset (value g)) ++ ";".

(** X13: the verifier of a table names the offset constant of the
    discriminant of a union field [f] as the constant of [f] followed by
    [_TYPE]; the table defines that constant from the name of the
    discriminant field, the name of [f] followed by [_type].  The two agree
    exactly when the name of [f] is not a reserved word (for a union field
    [type] the verifier names [VT_TYPE__TYPE] and the table defines
    [VT_TYPE_TYPE]). *)
Theorem verifier_discriminant_constant (cur : Namespace)
        (struct_def : StructDef) (f k : FieldDef) (ed : EnumDef) :
  verifier_fields_ok cur struct_def = true ->
  In f (fields struct_def) -> deprecated f = false ->
  In k (fields struct_def) -> deprecated k = false ->
  fd_name k = fd_name f ++ "_type" ->
  GetFullType (type (value f)) = Ok ftUnionValue ->
  enum_def (type (value f)) = Some ed ->
  variants_ok ed = true ->
  exists ids checks,
    GenTable_field_ids cur struct_def = Ok ids /\
    GenTable_verifier cur struct_def = Ok checks /\
    In (field_id_line k) ids /\
    In (nl ++ "     .visit_union::<" ++ Name_enum ed ++ ", _>(" ++
        "&" ++ dq ++ Name_field f ++ "_type" ++ dq ++ ", Self::" ++
        GetFieldOffsetName f ++ "_TYPE, " ++
        "&" ++ dq ++ Name_field f ++ dq ++ ", Self::" ++
        GetFieldOffsetName f ++ ", " ++
        (if required f then "true" else "false") ++ ", " ++
        "|key, v, pos| {") checks /\
    GetFieldOffsetName k = "VT_" ++ MakeUpper (fd_name f) ++ "_TYPE" /\
    (GetFieldOffsetName f ++ "_TYPE" = GetFieldOffsetName k <->
     is_keyword (fd_name f) = false).
Proof.
  intros Hok Hf Df Hk Dk Hn Hft Hed Hv.
  assert (Hd : defaults_ok cur struct_def = true).
  { unfold verifier_fields_ok in Hok. now apply andb_true_iff in Hok. }
  destruct (GenTable_verifier_succeeds cur struct_def Hok) as [checks Hc].
  exists (List.app
            (flat_map (fun g => [field_id_line g])
                      (live_fields (fields struct_def)))
            (if (0 <? List.length (fields struct_def))%nat
             then [""] else [])),
         checks.
  split; [|split; [exact Hc|split; [|split; [|split]]]].
  - unfold GenTable_field_ids.
    rewrite (ForAllTableFields_ok cur struct_def _
               (fun g => [field_id_line g]) false Hd) by reflexivity.
    reflexivity.
  - apply in_or_app. left. apply in_flat_map. exists k. split.
    + apply filter_In. split; [exact Hk|now rewrite Dk].
    + left. reflexivity.
  - rewrite GenTable_verifier_eq in Hc.
    destruct (ForAllTableFields cur struct_def _ false) as [cs|] eqn:F;
      [|discriminate].
    destruct (ForAllTableFields_inv _ _ _ _ _ f F Hf Df)
      as (dv & b & c1 & c2 & _ & Hb & ->).
    rewrite (GenTable_verifier_field_union cur f dv ed Hft Hed Hv) in Hb.
    injection Hb as <-. cbn [bind] in Hc.
    assert (Hc' : checks =
                  List.app (verifier_head (Name_struct struct_def))
                    (List.app (List.app c1
                                 (List.app (union_field_lines cur f ed) c2))
                              verifier_tail)) by congruence.
    rewrite Hc'. clear Hc Hc'.
    apply in_or_app. right. apply in_or_app. left.
    apply in_or_app. right. apply in_or_app. left.
    unfold union_field_lines. cbn [List.concat app]. left. reflexivity.
  - unfold GetFieldOffsetName, Name_field. rewrite Hn.
    rewrite (proj2 (EscapeKeyword_id_iff _) (type_suffix_not_keyword _)).
    rewrite MakeUpper_append. reflexivity.
  - unfold GetFieldOffsetName at 2. unfold Name_field. rewrite Hn.
    rewrite (proj2 (EscapeKeyword_id_iff _) (type_suffix_not_keyword _)).
    rewrite MakeUpper_append.
    change (MakeUpper "_type") with "_TYPE".
    unfold GetFieldOffsetName, Name_field.
    rewrite <- EscapeKeyword_id_iff. split.
    + intros E. cbn [append] in E. injection E as E.
      apply append_inj_l in E.
      unfold EscapeKeyword in *. fold (is_keyword (fd_name f)) in *.
      destruct (is_keyword (fd_name f)); [|reflexivity].
      exfalso. rewrite MakeUpper_append in E.
      apply (f_equal String.length) in E. rewrite length_append in E.
      simpl in E. lia.
    + intros ->. reflexivity.
Qed.

Lemma verifier_discriminant_constant_witness :
  exists ids checks,
    GenTable_field_ids my_game table_with_union = Ok ids /\
    GenTable_verifier my_game table_with_union = Ok checks /\
    In "    pub const VT_EQUIPPED_TYPE: flatbuffers::VOffsetT = 4;" ids /\
    GetFieldOffsetName union_value_field ++ "_TYPE"
    = GetFieldOffsetName union_key_field.
Proof.
  destruct (verifier_discriminant_constant
              my_game table_with_union union_value_field union_key_field
              any_union eq_refl
              (or_intror (or_introl eq_refl)) eq_refl
              (or_introl eq_refl) eq_refl eq_refl eq_refl eq_refl eq_refl)
    as (ids & checks & Hi & Hc & Hin & _ & _ & Hiff).
  exists ids, checks. split; [exact Hi|]. split; [exact Hc|].
  split; [exact Hin|]. apply Hiff. reflexivity.
Defined.

Lemma GetFullType_union_value_base (t : Type_) :
  GetFullType t = Ok ftUnionValue -> base_type t = BASE_TYPE_UNION.
Proof.
  rewrite GetFullType_equation.
  destruct (IsString t); [discriminate|].
  destruct (BaseType_eqb (base_type t) BASE_TYPE_STRUCT).
  { destruct (struct_def t) as [sd|]; [destruct (fixed sd)|]; discriminate. }
  destruct (IsVector t).
  { destruct (GetFullType (VectorType t)) as [[]|]; discriminate. }
  destruct (enum_def t) as [ed|].
  - destruct (is_union ed).
    + destruct (base_type t); cbn; try discriminate; try reflexivity.
    + discriminate.
  - destruct (IsScalar (base_type t)); [|discriminate].
    destruct (IsBool (base_type t)); [discriminate|].
    destruct (IsInteger (base_type t)); [discriminate|].
    destruct (IsFloat (base_type t)); discriminate.
Qed.

Lemma ForAllUnionVariantsBesidesNone_ok (cur : Namespace) (ed : EnumDef)
      (h : UnionVariantValues -> list string) :
  is_union ed = true -> variants_ok ed = true ->
  ForAllUnionVariantsBesidesNone cur ed (fun _ u => Ok (h u))
  = Ok (flat_map (fun ev => h (variant_values cur ed ev))
                 (variants_besides_none ed)).
Proof.
  intros Hu Hv. unfold ForAllUnionVariantsBesidesNone. rewrite Hu. simpl negb.
  cbv iota.
  rewrite (mapM_ok _ (fun ev =>
             if BaseType_eqb (base_type (union_type ev)) BASE_TYPE_NONE
             then []
             else h (variant_values cur ed ev))).
  - simpl bind. f_equal. unfold variants_besides_none.
    induction (Vals ed) as [|ev l IH]; simpl; [reflexivity|].
    destruct (BaseType_eqb (base_type (union_type ev)) BASE_TYPE_NONE);
      simpl; now rewrite IH.
  - intros ev Hin.
    destruct (BaseType_eqb (base_type (union_type ev)) BASE_TYPE_NONE) eqn:E;
      [reflexivity|].
    unfold variants_ok in Hv. rewrite forallb_forall in Hv.
    assert (Hm : In ev (variants_besides_none ed)).
    { apply filter_In. split; [exact Hin|now rewrite E]. }
    specialize (Hv ev Hm). unfold variant_values.
    destruct (struct_def (union_type ev)); [reflexivity|discriminate].
Qed.

Lemma append_suffix_iff (a b s : string) : a ++ s = b ++ s <-> a = b.
Proof. split; [apply append_inj_l|now intros ->]. Qed.

(** X14: the formatter of a table and the accessors of a union field [f]
    do not name the same functions when the name of [f] is a reserved word.
    The accessor of a member of the union is defined under the escaped name
    of [f] and called by the formatter under the raw name; the accessor of
    the discriminant is called by the union accessors under the raw name and
    by the formatter under the escaped name.  Each pair agrees exactly when
    the name of [f] is not a reserved word. *)
Theorem GenTable_debug_accessor_names (cur : Namespace) (f : FieldDef)
        (ed : EnumDef) (ev : EnumVal) (dv : string) :
  GetFullType (type (value f)) = Ok ftUnionValue ->
  enum_def (type (value f)) = Some ed ->
  variants_ok ed = true ->
  In ev (variants_besides_none ed) ->
  let u := variant_values cur ed ev in
  exists accessors debug,
    GenTable_union_accessors_field cur f (field_values f dv) = Ok accessors /\
    GenTable_debug_field cur f (field_values f dv) = Ok debug /\
    In ("  pub fn " ++ Name_field f ++ "_as_" ++ U_ELEMENT_NAME u ++
        "(&self) -> " ++
        "Option<" ++ U_ELEMENT_TABLE_TYPE u ++ "<'a>> {") accessors /\
    In ("    if self." ++ fd_name f ++ "_type() == " ++
        U_ELEMENT_ENUM_TYPE u ++ " {") accessors /\
    In ("          if let Some(x) = self." ++ fd_name f ++ "_as_" ++
        U_ELEMENT_NAME u ++ "() {") debug /\
    In ("      match self." ++ Name_field f ++ "_type() {") debug /\
    (Name_field f ++ "_as_" ++ U_ELEMENT_NAME u
     = fd_name f ++ "_as_" ++ U_ELEMENT_NAME u <->
     is_keyword (fd_name f) = false) /\
    (Name_field f ++ "_type" = fd_name f ++ "_type" <->
     is_keyword (fd_name f) = false).
Proof.
  intros Hft Hed Hv Hev u.
  destruct (GetFullType_union_value _ Hft) as (ed' & Hed' & Hu).
  assert (ed' = ed) by congruence. subst ed'.
  pose proof (GetFullType_union_value_base _ Hft) as Hb.
  exists (flat_map (fun ev => GenTable_union_accessor
                                f (Name_field f) (fd_name f)
                                (variant_values cur ed ev))
                   (variants_besides_none ed)).
  eexists.
  split; [|split; [|split; [|split; [|split; [|split; [|split]]]]]].
  - unfold GenTable_union_accessors_field. rewrite Hb, Hed.
    cbn [BaseType_eqb negb deref bind]. cbv zeta.
    cbn [field_values FIELD_NAME].
    change (BaseType_eqb BASE_TYPE_UNION BASE_TYPE_UNION) with true.
    cbn [negb].
    exact (ForAllUnionVariantsBesidesNone_ok cur ed _ Hu Hv).
  - unfold GenTable_debug_field. rewrite Hft. cbn [bind].
    unfold GenTableAccessorFuncReturnType. rewrite Hft. cbn [bind].
    rewrite Hed. cbn [deref bind]. cbv zeta.
    rewrite (ForAllUnionVariantsBesidesNone_ok cur ed _ Hu Hv).
    cbn [bind field_values FIELD_NAME]. reflexivity.
  - apply in_flat_map. exists ev. split; [exact Hev|].
    unfold GenTable_union_accessor. cbn [List.concat app].
    right. right. left. reflexivity.
  - apply in_flat_map. exists ev. split; [exact Hev|].
    unfold GenTable_union_accessor. cbn [List.concat app].
    right. right. right. left. reflexivity.
  - cbn [List.concat]. apply in_cons. apply in_or_app. left.
    apply in_flat_map. exists ev. split; [exact Hev|].
    unfold GenTable_debug_arm. right. left. reflexivity.
  - cbn [List.concat app]. left. reflexivity.
  - unfold Name_field. rewrite append_suffix_iff. apply EscapeKeyword_id_iff.
  - unfold Name_field. rewrite append_suffix_iff. apply EscapeKeyword_id_iff.
Qed.

Lemma GenTable_debug_accessor_names_witness :
  exists accessors debug,
    GenTable_union_accessors_field my_game union_value_field
      (field_values union_value_field "None") = Ok accessors /\
    GenTable_debug_field my_game union_value_field
      (field_values union_value_field "None") = Ok debug /\
    In "  pub fn equipped_as_weapon(&self) -> Option<Weapon<'a>> {"
       accessors /\
    In "          if let Some(x) = self.equipped_as_weapon() {" debug.
Proof.
  destruct (GenTable_debug_accessor_names
              my_game union_value_field any_union
              (Build_EnumVal "Weapon" 2
                 (Build_Type BASE_TYPE_STRUCT BASE_TYPE_NONE
                             (Some (table_ref "Weapon")) None))
              "None" eq_refl eq_refl eq_refl
              (or_intror (or_introl eq_refl)))
    as (accessors & debug & Ha & Hd & H1 & _ & H2 & _).
  exists accessors, debug. split; [exact Ha|]. split; [exact Hd|].
  split; [exact H1|exact H2].
Defined.

(** ** Padding *)

(** The widths, in bits, that [GenPadding] passes to its callback for a
    padding of [p] bytes: one for each of the four low bits of [p]. *)
Definition padding_widths (p : nat) : list nat :=
  map (fun i => 2 ^ i * 8)%nat (filter (Nat.testbit p) [0; 1; 2; 3]%nat).

Lemma PaddingDefinition_counter (l : list nat) (code : string) (id : nat) :
  snd (fold_left (fun st bits => PaddingDefinition bits st) l (code, id))
  = (id + List.length l)%nat.
Proof.
  revert code id. induction l as [|b l IH]; intros code id; simpl.
  - lia.
  - rewrite IH. lia.
Qed.

Lemma PaddingInitializer_counter (l : list nat) (code : string) (id : nat) :
  snd (fold_left (fun st bits => PaddingInitializer bits st) l (code, id))
  = (id + List.length l)%nat.
Proof.
  revert code id. induction l as [|b l IH]; intros code id; simpl.
  - lia.
  - rewrite IH. lia.
Qed.

(** X15: [GenPadding] splits a padding of less than sixteen bytes into at
    most four members of 8, 16, 32 and 64 bits whose widths add up to the
    padding (no padding runs no callback); [PaddingDefinition] and
    [PaddingInitializer] number these members alike, one after the other
    from the counter.  A padding of sixteen bytes or more stops the
    generator. *)
Theorem GenPadding_widths (field : FieldDef) (code : string) (id : nat)
        (f : nat -> string * nat -> string * nat) :
  (padding field < 16 ->
   GenPadding field (code, id) f
   = Ok (fold_left (fun st bits => f bits st)
                   (padding_widths (padding field)) (code, id)) /\
   list_sum (padding_widths (padding field)) = 8 * padding field /\
   List.length (padding_widths (padding field)) <= 4 /\
   snd (fold_left (fun st bits => PaddingDefinition bits st)
                  (padding_widths (padding field)) (code, id))
   = snd (fold_left (fun st bits => PaddingInitializer bits st)
                    (padding_widths (padding field)) (code, id)))%nat /\
  (16 <= padding field ->
   exists e, GenPadding field (code, id) f = Abort e)%nat.
Proof.
  split.
  - intros H. rewrite PaddingDefinition_counter, PaddingInitializer_counter.
    unfold GenPadding, padding_widths.
    remember (padding field) as p eqn:E. clear E.
    do 16 (destruct p as [|p];
           [repeat split; try reflexivity; cbn; lia|]).
    exfalso. lia.
  - intros H. unfold GenPadding.
    destruct (padding field =? 0)%nat eqn:Z;
      [apply Nat.eqb_eq in Z; lia|].
    destruct (padding field <? 16)%nat eqn:L;
      [apply Nat.ltb_lt in L; lia|].
    eexists. reflexivity.
Qed.

Lemma GenPadding_widths_witness :
  GenPadding (padded_field "a" BASE_TYPE_UCHAR 3) ("", 0%nat) PaddingDefinition
  = Ok ("  padding0__: u8,  padding1__: u16,", 2%nat) /\
  list_sum (padding_widths 3) = 24%nat.
Proof.
  destruct (GenPadding_widths (padded_field "a" BASE_TYPE_UCHAR 3) "" 0
                              PaddingDefinition)
    as [H _].
  assert (L : (padding (padded_field "a" BASE_TYPE_UCHAR 3) < 16)%nat)
    by (vm_compute; lia).
  destruct (H L) as (H1 & H2 & _). split; [rewrite H1; reflexivity|exact H2].
Defined.

(** ** The order of emission *)

(** What [generate] emits: an enum, a fixed struct, a table, or the
    functions of the root table. *)
Inductive Emission : Type :=
| EmitEnum (enum_def : EnumDef)
| EmitStruct (struct_def : StructDef)
| EmitTable (struct_def : StructDef)
| EmitRoot (struct_def : StructDef).

Definition emission_namespace (e : Emission) : Namespace :=
  match e with
  | EmitEnum enum_def => ed_defined_namespace enum_def
  | EmitStruct struct_def | EmitTable struct_def | EmitRoot struct_def =>
      sd_defined_namespace struct_def
  end.

Definition emission_body (em : Emitters) (e : Emission)
  : Result (list string) :=
  match e with
  | EmitEnum enum_def => emit_enum em (emission_namespace e) enum_def
  | EmitStruct struct_def => emit_struct em (emission_namespace e) struct_def
  | EmitTable struct_def => emit_table em (emission_namespace e) struct_def
  | EmitRoot struct_def => emit_root em (emission_namespace e) struct_def
  end.

(** One emission: the namespace of the definition is made the open one,
    then the definition is written. *)
Definition run_emission (o : Options) (em : Emitters) (e : Emission)
           (g : Generator) : Result Generator :=
  lines <- emission_body em e ;;
  Ok (emit lines (SetNameSpace o (Some (emission_namespace e)) g)).

(** The emissions for one namespace, in order. *)
Definition emissions_of (p : Parser) (ns : Namespace) : list Emission :=
  List.concat
    [ map EmitEnum
          (filter (fun d => Namespace_eqb (ed_defined_namespace d) ns &&
                            negb (ed_generated d))
                  (enums_ p));
      map EmitStruct
          (filter (fun d => Namespace_eqb (sd_defined_namespace d) ns &&
                            (sd_fixed d && negb (sd_generated d)))
                  (structs_ p));
      map EmitTable
          (filter (fun d => Namespace_eqb (sd_defined_namespace d) ns &&
                            (negb (sd_fixed d) && negb (sd_generated d)))
                  (structs_ p));
      match root_struct_def_ p with
      | Some d =>
          if Namespace_eqb (sd_defined_namespace d) ns then [EmitRoot d]
          else []
      | None => []
      end ].

Definition emissions (p : Parser) : list Emission :=
  flat_map (emissions_of p) (namespaces_ p).

Lemma bind_assoc {A B C : Type} (m : Result A) (k : A -> Result B)
      (h : B -> Result C) :
  bind (bind m k) h = bind m (fun a => bind (k a) h).
Proof. destruct m; reflexivity. Qed.

Lemma bind_Ok_r {A : Type} (m : Result A) : bind m (fun a => Ok a) = m.
Proof. destruct m; reflexivity. Qed.

Lemma foldM_app {A S : Type} (f : A -> S -> Result S) (a b : list A) (s : S) :
  foldM f (a ++ b) s = bind (foldM f a s) (foldM f b).
Proof.
  revert s. induction a as [|x a IH]; intros s; simpl; [reflexivity|].
  destruct (f x s) as [s'|]; simpl; [apply IH|reflexivity].
Qed.

Lemma foldM_flat_map {A B S : Type} (f : B -> S -> Result S)
      (h : A -> list B) (l : list A) (s : S) :
  foldM f (flat_map h l) s = foldM (fun a => foldM f (h a)) l s.
Proof.
  revert s. induction l as [|x l IH]; intros s; simpl; [reflexivity|].
  rewrite foldM_app. destruct (foldM f (h x) s); simpl; [apply IH|reflexivity].
Qed.

Lemma foldM_generate_def {A : Type} (o : Options) (em : Emitters)
      (ns : Namespace) (nsof : A -> Namespace) (wanted : A -> bool)
      (body : A -> Namespace -> Result (list string)) (mk : A -> Emission)
      (l : list A) (g : Generator) :
  (forall a, emission_namespace (mk a) = nsof a) ->
  (forall a, emission_body em (mk a) = body a (nsof a)) ->
  foldM (fun a => generate_def o ns (nsof a) (wanted a) (body a)) l g
  = foldM (run_emission o em)
          (map mk (filter (fun a => Namespace_eqb (nsof a) ns && wanted a) l))
          g.
Proof.
  intros Hn Hb. revert g. induction l as [|a l IH]; intros g; simpl;
    [reflexivity|].
  unfold generate_def at 1.
  destruct (Namespace_eqb (nsof a) ns); simpl; [|apply IH].
  destruct (wanted a); simpl; [|apply IH].
  unfold run_emission at 1. rewrite Hb, Hn.
  destruct (body a (nsof a)); simpl; [apply IH|reflexivity].
Qed.

Lemma generate_namespace_emissions (p : Parser) (em : Emitters)
      (ns : Namespace) (g : Generator) :
  generate_namespace p em ns g
  = foldM (run_emission (opts p) em) (emissions_of p ns) g.
Proof.
  unfold generate_namespace, emissions_of. cbn [List.concat].
  rewrite foldM_app.
  rewrite (foldM_generate_def (opts p) em ns ed_defined_namespace
             (fun d => negb (ed_generated d))
             (fun d cur => emit_enum em cur d) EmitEnum)
    by reflexivity.
  destruct (foldM (run_emission (opts p) em) (map EmitEnum _) g) as [g1|];
    [|reflexivity].
  cbn [bind]. rewrite foldM_app.
  rewrite (foldM_generate_def (opts p) em ns sd_defined_namespace
             (fun d => sd_fixed d && negb (sd_generated d))
             (fun d cur => emit_struct em cur d) EmitStruct)
    by reflexivity.
  destruct (foldM (run_emission (opts p) em) (map EmitStruct _) g1) as [g2|];
    [|reflexivity].
  cbn [bind]. rewrite foldM_app.
  rewrite (foldM_generate_def (opts p) em ns sd_defined_namespace
             (fun d => negb (sd_fixed d) && negb (sd_generated d))
             (fun d cur => emit_table em cur d) EmitTable)
    by reflexivity.
  destruct (foldM (run_emission (opts p) em) (map EmitTable _) g2) as [g3|];
    [|reflexivity].
  cbn [bind]. rewrite app_nil_r.
  destruct (root_struct_def_ p) as [d|]; [|reflexivity].
  unfold generate_def.
  destruct (Namespace_eqb (sd_defined_namespace d) ns); simpl; [|reflexivity].
  unfold run_emission. simpl.
  destruct (emit_root em (sd_defined_namespace d) d); reflexivity.
Qed.

Lemma foldM_ext {A S : Type} (f f' : A -> S -> Result S) (l : list A) (s : S) :
  (forall a s, f a s = f' a s) -> foldM f l s = foldM f' l s.
Proof.
  intros H. revert s. induction l as [|a l IH]; intros s; simpl;
    [reflexivity|].
  rewrite H. destruct (f' a s); simpl; [apply IH|reflexivity].
Qed.

(** X16: [generate] writes the definitions in one pass over the list
    [emissions]: namespace by namespace in the order of the parser, and in
    each namespace the enums, then the fixed structs, then the tables, then
    the functions of the root table, each after its namespace has been made
    the open one; the first emitter that stops, stops the generator.  An
    enum is emitted when it is not marked as generated and the parser lists
    its namespace; the functions of the root table are emitted whether the
    root is marked as generated or not. *)
Theorem generate_follows_emissions (p : Parser) (em : Emitters) :
  generate p em =
  (g <- foldM (run_emission (opts p) em) (emissions p)
              (emit [""]
                 (emit (GenNamespaceImports (opts p) 0)
                    (emit ["// " ++ FlatBuffersGeneratedWarning ++ nl ++ nl]
                       {| code_ := []; cur_name_space_ := None |}))) ;;
   Ok (match cur_name_space_ g with
       | Some _ => SetNameSpace (opts p) None g
       | None => g
       end)) /\
  (forall d, In (EmitEnum d) (emissions p) <->
             In d (enums_ p) /\ ed_generated d = false /\
             In (ed_defined_namespace d) (namespaces_ p)) /\
  (forall d, In (EmitRoot d) (emissions p) <->
             root_struct_def_ p = Some d /\
             In (sd_defined_namespace d) (namespaces_ p)).
Proof.
  split; [|split].
  - unfold generate, emissions. cbv zeta. rewrite foldM_flat_map.
    rewrite (foldM_ext _ _ _ _ (generate_namespace_emissions p em)).
    reflexivity.
  - intros d. unfold emissions. rewrite in_flat_map. split.
    + intros (ns & Hns & H). unfold emissions_of in H. cbn [List.concat] in H.
      rewrite !in_app_iff in H. destruct H as [H|[H|[H|[H|[]]]]].
      * apply in_map_iff in H as (d' & [= ->] & H).
        apply filter_In in H as [H1 H2].
        apply andb_true_iff in H2 as [H2 H3].
        apply Namespace_eqb_eq in H2. apply negb_true_iff in H3.
        subst ns. auto.
      * apply in_map_iff in H as (d' & E & _). discriminate.
      * apply in_map_iff in H as (d' & E & _). discriminate.
      * destruct (root_struct_def_ p) as [r|]; [|contradiction].
        destruct (Namespace_eqb _ _); [|contradiction].
        destruct H as [E|[]]. discriminate.
    + intros (H1 & H2 & H3). exists (ed_defined_namespace d).
      split; [exact H3|]. unfold emissions_of. cbn [List.concat].
      apply in_or_app. left. apply in_map. apply filter_In.
      split; [exact H1|]. rewrite H2.
      now rewrite (proj2 (Namespace_eqb_eq _ _) eq_refl).
  - intros d. unfold emissions. rewrite in_flat_map. split.
    + intros (ns & Hns & H). unfold emissions_of in H. cbn [List.concat] in H.
      rewrite !in_app_iff in H. destruct H as [H|[H|[H|[H|[]]]]].
      * apply in_map_iff in H as (d' & E & _). discriminate.
      * apply in_map_iff in H as (d' & E & _). discriminate.
      * apply in_map_iff in H as (d' & E & _). discriminate.
      * destruct (root_struct_def_ p) as [r|]; [|contradiction].
        destruct (Namespace_eqb _ _) eqn:E; [|contradiction].
        destruct H as [[= ->]|[]]. apply Namespace_eqb_eq in E. subst ns.
        auto.
    + intros (H1 & H2). exists (sd_defined_namespace d).
      split; [exact H2|]. unfold emissions_of. cbn [List.concat].
      rewrite H1. rewrite (proj2 (Namespace_eqb_eq _ _) eq_refl).
      rewrite !in_app_iff. right. right. right. left. left. reflexivity.
Qed.

(** ** Deprecated fields *)

(** The table with other fields. *)
Definition with_fields (struct_def : StructDef) (l : list FieldDef)
  : StructDef :=
  {| sd_ref := sd_ref struct_def;
     fields := l;
     sortbysize := sortbysize struct_def;
     minalign := minalign struct_def;
     sd_doc_comment := sd_doc_comment struct_def;
     sd_generated := sd_generated struct_def |}.

Lemma mapM_concat_live (go : FieldDef -> Result (list string))
      (l : list FieldDef) :
  (forall f, deprecated f = true -> go f = Ok []) ->
  (lines <- mapM go l ;; Ok (List.concat lines))
  = (lines <- mapM go (live_fields l) ;; Ok (List.concat lines)).
Proof.
  intros H. induction l as [|f l IH]; [reflexivity|].
  cbn [mapM live_fields filter]. fold (live_fields l).
  destruct (deprecated f) eqn:D; cbn [negb].
  - rewrite (H f D). cbn [bind]. rewrite <- IH.
    destruct (mapM go l); reflexivity.
  - cbn [mapM]. destruct (go f) as [b|]; [|reflexivity]. cbn [bind].
    destruct (mapM go l) as [bs|]; cbn [bind] in *.
    + destruct (mapM go (live_fields l)) as [bs'|]; cbn [bind] in *;
        [|discriminate].
      injection IH as IH. cbn [List.concat]. now rewrite IH.
    + destruct (mapM go (live_fields l)); cbn [bind] in *;
        [discriminate|exact IH].
Qed.

Lemma live_fields_idem (l : list FieldDef) :
  live_fields (live_fields l) = live_fields l.
Proof.
  unfold live_fields. induction l as [|f l IH]; simpl; [reflexivity|].
  destruct (deprecated f) eqn:D; simpl; [exact IH|].
  rewrite D. simpl. now rewrite IH.
Qed.

(** X17: a deprecated field leaves no trace in what [ForAllTableFields]
    produces, whatever the callback and the direction: the traversal of a
    table is the traversal of the table without its deprecated fields.  The
    type and the default of a deprecated field are never looked at, so a
    table whose fields are all deprecated yields nothing, without fail. *)
Theorem ForAllTableFields_skips_deprecated (cur : Namespace)
        (struct_def : StructDef)
        (cb : FieldDef -> TableFieldValues -> Result (list string))
        (reversed : bool) :
  ForAllTableFields cur struct_def cb reversed
  = ForAllTableFields cur
      (with_fields struct_def (live_fields (fields struct_def)))
      cb reversed /\
  (live_fields (fields struct_def) = [] ->
   ForAllTableFields cur struct_def cb reversed = Ok []).
Proof.
  assert (E : ForAllTableFields cur struct_def cb reversed
              = ForAllTableFields cur
                  (with_fields struct_def (live_fields (fields struct_def)))
                  cb reversed).
  { unfold ForAllTableFields. cbv zeta. cbn [fields with_fields].
    rewrite mapM_concat_live by (intros f ->; reflexivity).
    symmetry.
    rewrite mapM_concat_live by (intros f ->; reflexivity).
    destruct reversed; [|now rewrite live_fields_idem].
    now rewrite !live_fields_rev, live_fields_idem. }
  split; [exact E|].
  intros H. rewrite E, H. destruct reversed; reflexivity.
Qed.

Lemma ForAllTableFields_skips_deprecated_witness :
  ForAllTableFields my_game
    (with_fields table_with_union
       [ {| fd_name := "old";
            value := {| type := Build_Type BASE_TYPE_VECTOR BASE_TYPE_VECTOR
                                           None None;
                        constant := "0"; offset := 4 |};
            deprecated := true; required := false; optional := false;
            key := false; padding := 0; fd_doc_comment := [] |} ])
    (fun _ _ => Abort NullPointer) true
  = Ok [].
Proof.
  apply (ForAllTableFields_skips_deprecated my_game). reflexivity.
Defined.

(** ** Accessors of vectors *)

(** X18: the return type and the body of the accessor of a vector field
    agree on slices.  For a vector of structs or of one-byte scalars the
    accessor returns a slice of the element, and its body is the read of the
    vector, converted with [safe_slice]; for every other vector (a vector of
    one-byte enum keys included) it returns a [flatbuffers::Vector] of the
    element and the body is the read alone.  The read is unwrapped unless
    the field is optional. *)
Theorem GenTableAccessor_slice (cur : Namespace) (f : FieldDef)
        (lifetime : string) (ft : FullType) (rt body : string) :
  GetFullType (type (value f)) = Ok ft ->
  vector_tag ft = true ->
  GenTableAccessorFuncReturnType cur f lifetime = Ok rt ->
  GenTableAccessorFuncBody cur f lifetime = Ok body ->
  exists elem arg,
    vector_element cur (type (value f)) lifetime ft false = Some elem /\
    vector_element cur (type (value f)) lifetime ft true = Some arg /\
    rt = WrapInOptionIfNotRequired
           (if accessor_slices ft (type (value f))
            then "&" ++ lifetime ++ " [" ++ elem ++ "]"
            else "flatbuffers::Vector<" ++ lifetime ++ ", " ++ elem ++ ">")
           (required f) /\
    body = "self._tab.get::<flatbuffers::ForwardsUOffset<flatbuffers::Vector<"
           ++ lifetime ++ ", " ++ arg ++ ">>>({{STRUCT_NAME}}::" ++
           GetFieldOffsetName f ++ ", " ++
           (if optional f || required f then "None" else "Some(None)") ++
           ")" ++
           (if accessor_slices ft (type (value f))
            then ".map(|v| v.safe_slice())" else "") ++
           (if optional f then "" else ".unwrap()").
Proof.
  intros Hft Hv Hrt Hb.
  pose proof (GetFullType_tag_inv _ _ Hft) as Ht. rewrite Hv in Ht.
  destruct Ht as (_ & fe & He & Hf & Ht).
  unfold GenTableAccessorFuncReturnType in Hrt. cbv zeta in Hrt.
  unfold GenTableAccessorFuncBody, FollowType, GetDefaultScalarValue in Hb.
  cbv zeta in Hb.
  rewrite Hft in Hrt, Hb. cbn [bind] in Hrt, Hb.
  unfold vector_element, accessor_slices.
  destruct fe; try discriminate Hf; pose proof (Ok_inj _ _ Hf) as <-;
    cbn [bind] in Hrt, Hb;
    try rewrite (GetTypeBasic_scalar_name cur _ _ He eq_refl) in Hrt, Hb;
    try (destruct Ht as (d & Hd); rewrite Hd in Hrt;
         cbn [VectorType enum_def] in Hb; rewrite Hd in Hb);
    cbn [deref bind] in Hrt, Hb;
    destruct (optional f), (required f); cbn [orb negb bind] in Hb;
    try destruct (IsOneByte _);
    apply Ok_inj in Hrt; apply Ok_inj in Hb; subst rt body;
    try match goal with E : _ = Some _ |- _ => rewrite E end;
    do 2 eexists; (split; [reflexivity|]); (split; [reflexivity|]);
    (split; [f_equal; rewrite ?append_assoc; reflexivity|]);
    repeat (cbn [append]; rewrite ?append_assoc); reflexivity.
Qed.

(** A vector of bytes. *)
Definition bytes_field : FieldDef :=
  {| fd_name := "inventory";
     value := {| type := Build_Type BASE_TYPE_VECTOR BASE_TYPE_UCHAR None None;
                 constant := "0"; offset := 8 |};
     deprecated := false; required := false; optional := true;
     key := false; padding := 0; fd_doc_comment := [] |}.

(** The body of the accessor of [bytes_field]. *)
Definition bytes_field_body : string :=
  "self._tab.get::<flatbuffers::ForwardsUOffset<" ++
  "flatbuffers::Vector<'a, u8>>>({{STRUCT_NAME}}::VT_INVENTORY, None)" ++
  ".map(|v| v.safe_slice())".

Lemma GenTableAccessor_slice_witness :
  exists elem arg,
    vector_element my_game (type (value bytes_field)) "'a"
                   ftVectorOfInteger false = Some elem /\
    vector_element my_game (type (value bytes_field)) "'a"
                   ftVectorOfInteger true = Some arg /\
    "Option<&'a [u8]>"
    = WrapInOptionIfNotRequired ("&" ++ "'a" ++ " [" ++ elem ++ "]") false /\
    bytes_field_body
    = "self._tab.get::<flatbuffers::ForwardsUOffset<flatbuffers::Vector<"
      ++ "'a" ++ ", " ++ arg ++ ">>>({{STRUCT_NAME}}::" ++
      GetFieldOffsetName bytes_field ++ ", " ++ "None" ++ ")" ++
      ".map(|v| v.safe_slice())" ++ "".
Proof.
  exact (GenTableAccessor_slice
           my_game bytes_field "'a" ftVectorOfInteger
           "Option<&'a [u8]>" bytes_field_body
           eq_refl eq_refl eq_refl eq_refl).
Defined.

(** ** The vector of unions *)

Definition not_yet_supported : GenError :=
  AssertionFailed "vectors of unions are not yet supported".

Lemma GetFullType_other_error (t : Type_) (e : GenError) :
  GetFullType t = Abort e -> e <> not_yet_supported.
Proof.
  revert e. functional induction (GetFullType t); intros err H;
    try discriminate H;
    injection H as H; subst; try discriminate; eauto.
Qed.

Lemma GetTypeBasic_other_error (cur : Namespace) (t : Type_) (e : GenError) :
  GetTypeBasic cur t = Abort e -> e <> not_yet_supported.
Proof.
  unfold GetTypeBasic. destruct (GetFullType t) as [ft|e'] eqn:F.
  - cbn [bind]. destruct ft; try destruct (enum_def t); intros H;
      try discriminate H; injection H as <-; discriminate.
  - cbn [bind]. intros [= <-]. exact (GetFullType_other_error _ _ F).
Qed.

Ltac other_error H :=
  repeat match type of H with
  | context [deref ?p] => destruct p; cbn [deref bind] in H
  | context [GetTypeBasic ?c ?t] =>
      let E := fresh "E" in
      destruct (GetTypeBasic c t) eqn:E; cbn [bind] in H;
      [|injection H as H; subst;
        exact (GetTypeBasic_other_error _ _ _ E eq_refl)]
  | context [if ?b then _ else _] => destruct b
  end;
  discriminate H.

(** X19: no type is classified as a vector of union values: [GetFullType]
    stops on a vector of unions before it could return that category.  So
    the branch that the other functions keep for it is never taken: the
    assertion [vectors of unions are not yet supported] of
    [GenTableAccessorFuncReturnType] and of [FollowType] never fails, the
    generator having stopped in [GetFullType] on another assertion. *)
Theorem vector_of_union_branches_unreachable (cur : Namespace) (f : FieldDef)
        (lifetime : string) :
  GetFullType (type (value f)) <> Ok ftVectorOfUnionValue /\
  GenTableAccessorFuncReturnType cur f lifetime <> Abort not_yet_supported /\
  FollowType cur (type (value f)) lifetime <> Abort not_yet_supported.
Proof.
  split; [apply GetFullType_never_vector_of_union|]. split.
  - unfold GenTableAccessorFuncReturnType. cbv zeta.
    destruct (GetFullType (type (value f))) as [ft|e] eqn:F; cbn [bind].
    + intros H. destruct ft;
        try (exact (GetFullType_never_vector_of_union _ F));
        other_error H.
    + intros [= ->]. exact (GetFullType_other_error _ _ F eq_refl).
  - unfold FollowType. cbv zeta.
    destruct (GetFullType (type (value f))) as [ft|e] eqn:F; cbn [bind].
    + intros H. destruct ft;
        try (exact (GetFullType_never_vector_of_union _ F));
        other_error H.
    + intros [= ->]. exact (GetFullType_other_error _ _ F eq_refl).
Qed.

(** ** The representation of an enum *)

(** X20: [GetEnumTypeForDecl] answers for the enum keys and the union keys
    only, and what it answers is never [bool]: an enum over [bool] is
    declared over [u8].  For the integer base types it is the Rust integer
    of the base type, the type that [GetTypeBasic] gives for the same base
    type without the enum. *)
Theorem GetEnumTypeForDecl_representation (cur : Namespace) (t : Type_) :
  (is_Ok (GetEnumTypeForDecl t) = true <->
   GetFullType t = Ok ftEnumKey \/ GetFullType t = Ok ftUnionKey) /\
  GetEnumTypeForDecl t <> Ok "bool" /\
  (forall s,
      GetEnumTypeForDecl t = Ok s ->
      IsInteger (base_type t) = true ->
      In s ["u8"; "i8"; "u16"; "i16"; "u32"; "i32"; "u64"; "i64"] /\
      (base_type t <> BASE_TYPE_BOOL ->
       GetTypeBasic cur (Build_Type (base_type t) BASE_TYPE_NONE None None)
       = Ok s)).
Proof.
  unfold GetEnumTypeForDecl.
  destruct (GetFullType t) as [ft|e] eqn:F; cbn [bind].
  - split; [|split].
    + destruct ft; cbn [negb];
        try destruct (BaseType_eqb (base_type t) BASE_TYPE_BOOL);
        cbn [is_Ok]; split; intros H; try discriminate H; auto;
        destruct H as [H|H]; discriminate H.
    + destruct ft; cbn [negb]; try discriminate;
        destruct (base_type t); cbn; discriminate.
    + intros s H Hi.
      destruct ft; cbn [negb] in H; try discriminate H;
        destruct (base_type t); try discriminate Hi; cbn in H;
        injection H as <-;
        (split; [cbn; tauto|]); intros Hb; try (now elim Hb);
        reflexivity.
  - split; [|split].
    + cbn [is_Ok]. split; [discriminate|]. intros [H|H]; discriminate H.
    + discriminate.
    + discriminate.
Qed.

Lemma GetEnumTypeForDecl_representation_witness :
  In "i8" ["u8"; "i8"; "u16"; "i16"; "u32"; "i32"; "u64"; "i64"] /\
  GetEnumTypeForDecl
    (Build_Type BASE_TYPE_BOOL BASE_TYPE_NONE None
                (Some (Build_EnumDef "Flag" my_game false false [])))
  <> Ok "bool".
Proof.
  split.
  - apply (proj2 (proj2 (GetEnumTypeForDecl_representation
                           my_game
                           (Build_Type BASE_TYPE_CHAR BASE_TYPE_NONE None
                              (Some (Build_EnumDef "Color" my_game false false
                                                   []))))) "i8");
      reflexivity.
  - apply (GetEnumTypeForDecl_representation my_game).
Defined.

